(** * go-env: binding environment variables to struct fields

    A shallow embedding of [parse.go] (package [env]): the schema builder
    ([NewParser], [specsFromStruct], [walkFields], [walker], [lookAtTag]) and
    the binding engine ([process], [captureEnvVars], [setSlice], [val],
    [isZero]), with the properties of the specification stated over it;
    and of [usage.go] (the help text) and the entry points [Parse] and
    [MustParse], with further properties of the code.

    Go strings are byte strings ([string]); the process environment is a
    finite map from names to values; the destination structs that the parser
    mutates through reflection are an explicit store that every operation
    takes and returns.

    The store is a list of roots, one for each destination, and each root
    is a tree: a pointer holds its referent and a slice its elements, so
    no two places of the store share memory.  The fields of the structs
    are exported: the flag with which [reflect] keeps an unexported field
    from being set or handed out is not part of the model.  Of the scalar
    library the kinds bool, int and string and the types with a text
    decoder are modelled. *)

From Stdlib Require Import ZArith Ascii String List Bool Lia DecimalString.
From stdpp Require Import base option list strings gmap.

#[local] Set Warnings "-register-all".

Local Open Scope Z_scope.
Local Open Scope nat_scope.

(** ** The part of Go's [strings] package that the parser calls *)

Module strings.

(** [strings.Index(s, sep)] for a one-byte separator; [None] is Go's -1. *)
Fixpoint Index (s : string) (sep : ascii) : option nat :=
  match s with
  | EmptyString => None
  | String a s' => if Ascii.eqb a sep then Some 0 else S <$> Index s' sep
  end.

(** The slice expressions [s[:n]] and [s[n:]]. *)
Fixpoint take (n : nat) (s : string) : string :=
  match n, s with
  | S n', String a s' => String a (take n' s')
  | _, _ => EmptyString
  end.

Fixpoint drop (n : nat) (s : string) : string :=
  match n, s with
  | S n', String _ s' => drop n' s'
  | _, _ => s
  end.

(** [strings.Split(s, sep)] for a one-byte separator: always at least one
    piece, the empty string splits into one empty piece. *)
Fixpoint Split (s : string) (sep : ascii) : list string :=
  match s with
  | EmptyString => [EmptyString]
  | String a s' =>
      if Ascii.eqb a sep then EmptyString :: Split s' sep
      else match Split s' sep with
           | w :: ws => String a w :: ws
           | [] => [String a EmptyString]
           end
  end.

(** [strings.Join(pieces, sep)]. *)
Fixpoint Join (pieces : list string) (sep : string) : string :=
  match pieces with
  | [] => EmptyString
  | [w] => w
  | w :: ws => w +:+ sep +:+ Join ws sep
  end.

(** [strings.TrimLeft(s, cutset)] for a one-byte cutset. *)
Fixpoint TrimLeft (s : string) (cut : ascii) : string :=
  match s with
  | String a s' => if Ascii.eqb a cut then TrimLeft s' cut else s
  | EmptyString => EmptyString
  end.

Definition lower (a : ascii) : ascii :=
  let n := nat_of_ascii a in
  if (65 <=? n) && (n <=? 90) then ascii_of_nat (n + 32) else a.

(** [strings.ToLower] on the ASCII letters (Go field names outside ASCII
    are not covered). *)
Fixpoint ToLower (s : string) : string :=
  match s with
  | EmptyString => EmptyString
  | String a s' => String (lower a) (ToLower s')
  end.

(** [strings.Contains(s, sub)], as a proposition. *)
Definition Contains (s sub : string) : Prop :=
  exists pre post : string, s = pre +:+ sub +:+ post.

End strings.

(** ** Errors

    [errors.New] makes a sentinel; [fmt.Errorf] with one [%w] operand makes an
    error that carries its formatted text and wraps the operand. *)

Inductive error : Type :=
| New (text : string)
| Errorf (text : string) (wrapped : error).

Definition Error (e : error) : string :=
  match e with
  | New text => text
  | Errorf text _ => text
  end.

Global Instance error_eq_dec : EqDecision error.
Proof. solve_decision. Defined.

(** [errors.Is(e, target)]: [target] is [e] or is in its chain. *)
Fixpoint Is (e target : error) : bool :=
  bool_decide (e = target) ||
  match e with
  | New _ => false
  | Errorf _ w => Is w target
  end.

Definition ErrorFieldIsNotWritable : error := New "field is not writable".
Definition ErrorFieldIsRequired : error := New "field is required".
Definition ErrorNotPointers : error := New "must be pointers".
Definition ErrorNotStruct : error := New "must be structs".
Definition ErrorRequiredWithDefault : error :=
  New "'required' cannot be used when a default value is specified".
Definition ErrorUnrecognizedTag : error := New "unrecognized tag".
Definition ErrorFieldsAreNotSupported : error := New "fields are not supported".
Definition ErrorDefaultValueForSlice : error :=
  New "default values are not supported for slice fields".

(** What a call does: it returns normally, returns a Go [error], or panics
    (reflection on an invalid value). *)
Inductive result (A : Type) : Type :=
| Ok (a : A)
| Err (e : error)
| Panic.
Arguments Ok {A} a.
Arguments Err {A} e.
Arguments Panic {A}.

(** ** Reflection: types, values, struct fields

    The part of Go's [reflect] that [parse.go] uses.  A type is a bool, an
    int, a string, an interface, a pointer, a slice, a struct literal, or a
    named type over one of these; a named type may declare
    [UnmarshalText] (pointer receiver, as a decoder has to write its
    receiver) and [MarshalText] (either receiver).  Floats, durations and
    the address types go through the same entry points of the scalar
    library as ints and are left out. *)

Module reflect.

Inductive Kind : Set :=
| Invalid | Bool | Int | String_ | Ptr | Slice | Struct | Interface.

Global Instance Kind_eq_dec : EqDecision Kind.
Proof. solve_decision. Defined.

Inductive receiver : Set := ByValue | ByPointer.

(** A field as declared in a struct type: name, type, tag (key and value
    pairs, as [StructTag.Lookup] sees them), embedded or not. *)
Record decl (T : Type) : Type := Decl {
  decl_Name : string;
  decl_Type : T;
  decl_Tag : list (string * string);
  decl_Anonymous : bool
}.
Arguments Decl {T} _ _ _ _.
Arguments decl_Name {T} _.
Arguments decl_Type {T} _.
Arguments decl_Tag {T} _.
Arguments decl_Anonymous {T} _.

Inductive rtype : Type :=
| TBool
| TInt
| TString
| TInterface
| TPtr (elem : rtype)
| TSlice (elem : rtype)
| TStruct (fields : list (decl rtype))
| TNamed (name : string) (underlying : rtype)
         (unmarshaler : bool) (marshaler : option receiver).

(** [reflect.StructField]: a declared field with its index sequence. *)
Record StructField : Type := mkStructField {
  Name : string;
  Type_ : rtype;
  Tag : list (string * string);
  Anonymous : bool;
  Index : list nat
}.

(** [StructTag.Lookup] and [StructTag.Get]. *)
Fixpoint Lookup (tag : list (string * string)) (key : string) : option string :=
  match tag with
  | [] => None
  | (k, v) :: tag' => if bool_decide (k = key) then Some v else Lookup tag' key
  end.

Definition Get (tag : list (string * string)) (key : string) : string :=
  default EmptyString (Lookup tag key).

Fixpoint KindOf (t : rtype) : Kind :=
  match t with
  | TBool => Bool
  | TInt => Int
  | TString => String_
  | TInterface => Interface
  | TPtr _ => Ptr
  | TSlice _ => Slice
  | TStruct _ => Struct
  | TNamed _ u _ _ => KindOf u
  end.

Definition KindString (k : Kind) : string :=
  match k with
  | Invalid => "invalid"
  | Bool => "bool"
  | Int => "int"
  | String_ => "string"
  | Ptr => "ptr"
  | Slice => "slice"
  | Struct => "struct"
  | Interface => "interface"
  end.

(** [Type.Name()]: empty for a type literal. *)
Definition NameOf (t : rtype) : string :=
  match t with
  | TNamed n _ _ _ => n
  | TBool => "bool"
  | TInt => "int"
  | TString => "string"
  | _ => EmptyString
  end.

(** [Type.String()]; a struct literal is abbreviated. *)
Fixpoint TypeString (t : rtype) : string :=
  match t with
  | TBool => "bool"
  | TInt => "int"
  | TString => "string"
  | TInterface => "interface {}"
  | TPtr e => "*" +:+ TypeString e
  | TSlice e => "[]" +:+ TypeString e
  | TStruct _ => "struct {...}"
  | TNamed n _ _ _ => n
  end.

(** [Type.Elem()] of a pointer or slice type. *)
Fixpoint Elem (t : rtype) : option rtype :=
  match t with
  | TPtr e => Some e
  | TSlice e => Some e
  | TNamed _ u _ _ => Elem u
  | _ => None
  end.

(** The declared fields of a struct type ([NumField], [Field]). *)
Fixpoint Fields (t : rtype) : list (decl rtype) :=
  match t with
  | TStruct fs => fs
  | TNamed _ u _ _ => Fields u
  | _ => []
  end.

(** [t.Implements(textUnmarshalerType)]: with pointer receivers only
    [*T] has the method. *)
Definition ImplementsUnmarshaler (t : rtype) : bool :=
  match t with
  | TPtr (TNamed _ _ true _) => true
  | _ => false
  end.

(** Whether a value of type [t] is an [encoding.TextMarshaler], and the
    named type that declares the method. *)
Definition ImplementsMarshaler (t : rtype) : bool :=
  match t with
  | TNamed _ _ _ (Some ByValue) => true
  | TPtr (TNamed _ _ _ (Some _)) => true
  | _ => false
  end.

(** [Type.Comparable()]. *)
Fixpoint Comparable (t : rtype) : bool :=
  match t with
  | TSlice _ => false
  | TStruct fs =>
      (fix all (fs : list (decl rtype)) : bool :=
         match fs with
         | [] => true
         | f :: fs' => Comparable (decl_Type f) && all fs'
         end) fs
  | TNamed _ u _ _ => Comparable u
  | _ => true
  end.

(** Values.  A pointer is nil or holds its referent; a slice is nil or
    holds its elements; [VNil] is the nil interface. *)
Inductive value : Type :=
| VBool (b : bool)
| VInt (n : Z)
| VString (s : string)
| VNil
| VPtr (referent : option value)
| VSlice (elems : option (list value))
| VStruct (fields : list value).

(** [==] on the values of comparable types. *)
Fixpoint value_eqb (v w : value) : bool :=
  match v, w with
  | VBool a, VBool b => bool_decide (a = b)
  | VInt a, VInt b => bool_decide (a = b)
  | VString a, VString b => bool_decide (a = b)
  | VNil, VNil => true
  | VPtr None, VPtr None => true
  | VPtr (Some a), VPtr (Some b) => value_eqb a b
  | VStruct fs, VStruct gs =>
      (fix all (fs gs : list value) : bool :=
         match fs, gs with
         | [], [] => true
         | f :: fs', g :: gs' => value_eqb f g && all fs' gs'
         | _, _ => false
         end) fs gs
  | _, _ => false
  end.

(** [reflect.Zero(t)]. *)
Fixpoint Zero (t : rtype) : value :=
  match t with
  | TBool => VBool false
  | TInt => VInt 0%Z
  | TString => VString EmptyString
  | TInterface => VNil
  | TPtr _ => VPtr None
  | TSlice _ => VSlice None
  | TStruct fs =>
      VStruct ((fix zeros (fs : list (decl rtype)) : list value :=
                  match fs with
                  | [] => []
                  | f :: fs' => Zero (decl_Type f) :: zeros fs'
                  end) fs)
  | TNamed _ u _ _ => Zero u
  end.

(** [Value.IsNil()] of a pointer or slice. *)
Definition IsNil (v : value) : bool :=
  match v with
  | VPtr None | VSlice None | VNil => true
  | _ => false
  end.

(** [Value.FieldByIndex(index)]: [None] where Go panics. *)
Fixpoint FieldByIndex (v : value) (index : list nat) : option value :=
  match index with
  | [] => Some v
  | i :: index' =>
      match v with
      | VStruct fs => fs !! i ≫= fun f => FieldByIndex f index'
      | _ => None
      end
  end.

(** The store after [Value.FieldByIndex(index).Set(new)]; unchanged where
    the index does not resolve. *)
Fixpoint SetFieldByIndex (v : value) (index : list nat) (new : value) : value :=
  match index with
  | [] => new
  | i :: index' =>
      match v with
      | VStruct fs =>
          match fs !! i with
          | Some f => VStruct (<[i := SetFieldByIndex f index' new]> fs)
          | None => v
          end
      | _ => v
      end
  end.

End reflect.

(** ** What the engine calls outside of itself

    The text methods that the destination's named types declare, looked up
    by type name, and [fmt]'s rendering of a value with the verb [%v].
    [UnmarshalText] gets the receiver's referent and the text, and gives the
    referent afterwards and the error it returned (a decoder may write its
    receiver and still fail). *)

Record Methods : Type := {
  UnmarshalText : string -> reflect.value -> string -> reflect.value * option error;
  MarshalText : string -> reflect.value -> string * option error;
  Sprint : reflect.rtype -> reflect.value -> string
}.

(** ** The part of [strconv] and of [github.com/alexflint/go-scalar] that the
    engine reaches *)

Module strconv.

Definition quote (s : string) : string :=
  String "034"%char (s +:+ String "034"%char EmptyString).

Definition syntaxError (fn s : string) : error :=
  New ("strconv." +:+ fn +:+ ": parsing " +:+ quote s +:+ ": invalid syntax").

Definition rangeError (fn s : string) : error :=
  New ("strconv." +:+ fn +:+ ": parsing " +:+ quote s +:+ ": value out of range").

(** [strconv.ParseBool]. *)
Definition ParseBool (s : string) : result bool :=
  if bool_decide (s ∈ ["1"; "t"; "T"; "TRUE"; "true"; "True"]) then Ok true
  else if bool_decide (s ∈ ["0"; "f"; "F"; "FALSE"; "false"; "False"]) then Ok false
  else Err (syntaxError "ParseBool" s).

Fixpoint digits (s : string) (acc : Z) : option Z :=
  match s with
  | EmptyString => Some acc
  | String a s' =>
      match Ascii.is_nat a with
      | Some d => digits s' (10 * acc + Z.of_nat d)%Z
      | None => None
      end
  end.

(** [strconv.ParseInt(s, 10, 64)]: an optional sign, then one or more
    decimal digits, within the range of [int64]. *)
Definition ParseInt (s : string) : result Z :=
  let '(neg, body) :=
    match s with
    | String "+"%char s' => (false, s')
    | String "-"%char s' => (true, s')
    | _ => (false, s)
    end in
  match body with
  | EmptyString => Err (syntaxError "ParseInt" s)
  | _ =>
      match digits body 0%Z with
      | None => Err (syntaxError "ParseInt" s)
      | Some n =>
          let z := if neg then (- n)%Z else n in
          if ((- 2 ^ 63 <=? z) && (z <? 2 ^ 63))%Z then Ok z
          else Err (rangeError "ParseInt" s)
      end
  end.

End strconv.

Module scalar.
Import reflect.

(** [scalar.CanParse(t)]. *)
Definition CanParse (t : rtype) : bool :=
  if ImplementsUnmarshaler t || ImplementsUnmarshaler (TPtr t) then true
  else
    let t' := if bool_decide (KindOf t = Ptr) then default t (Elem t) else t in
    match KindOf t' with
    | Bool | String_ | Int => true
    | _ => false
    end.

Section ParseValue.
Variable M : Methods.

Definition fromError (e : option error) : result unit :=
  match e with
  | None => Ok tt
  | Some e => Err e
  end.

(** The two switches at the end of [ParseValue], on a value that is no
    pointer any more: by kind, so that derived types are handled. *)
Definition parseKind (t : rtype) (v : value) (s : string) : value * result unit :=
  match KindOf t with
  | String_ => (VString s, Ok tt)
  | Bool =>
      match strconv.ParseBool s with
      | Ok x => (VBool x, Ok tt)
      | Err e => (v, Err e)
      | Panic => (v, Panic)
      end
  | Int =>
      match strconv.ParseInt s with
      | Ok x => (VInt x, Ok tt)
      | Err e => (v, Err e)
      | Panic => (v, Panic)
      end
  | _ => (v, Err (New ("cannot parse into " +:+ TypeString t)))
  end.

(** The name of the type whose [UnmarshalText] a [*T] value carries. *)
Definition decoderOf (t : rtype) : string :=
  match t with
  | TNamed n _ _ _ => n
  | _ => EmptyString
  end.

(** [scalar.ParseValue(v, s)] on an addressable, settable [v] of type
    [t]: what [v] holds afterwards, and what the call returned. *)
Definition ParseValue (t : rtype) (v : value) (s : string) : value * result unit :=
  if bool_decide (KindOf t = Ptr) then
    let e := default t (Elem t) in
    (* a nil pointer gets a new object *)
    let r := match v with VPtr (Some r) => r | _ => Zero e end in
    if ImplementsUnmarshaler t then
      let '(r', err) := UnmarshalText M (decoderOf e) r s in
      (VPtr (Some r'), fromError err)
    else
      let '(r', res) := parseKind e r s in
      (VPtr (Some r'), res)
  else if ImplementsUnmarshaler (TPtr t) then
    (* the value is addressable and its address is a decoder *)
    let '(v', err) := UnmarshalText M (decoderOf t) v s in
    (v', fromError err)
  else parseKind t v s.

End ParseValue.

End scalar.

(** ** The part of [encoding/csv] that the engine reaches

    [csv.NewReader(strings.NewReader(value)).Read()] with the options a new
    reader has: comma as separator, no comment character, strict quotes, no
    trimming.  The position that [csv.ParseError] adds to an error is left
    out. *)

Module csv.

Definition LF : ascii := "010"%char.
Definition CR : ascii := "013"%char.
Definition quote : ascii := "034"%char.
Definition comma : ascii := ","%char.

Definition EOF : error := New "EOF".
Definition ErrBareQuote : error :=
  New ("bare " +:+ String quote " in non-quoted-field").
Definition ErrQuote : error :=
  New ("extraneous or missing " +:+ String quote " in quoted-field").

Definition snoc (s : string) (a : ascii) : string := s +:+ String a EmptyString.

Definition consLine (a : ascii) (ls : list string) : list string :=
  match ls with
  | [] => [String a EmptyString]
  | l :: ls' => String a l :: ls'
  end.

(** What the successive calls of [readLine] return before end of input:
    each line with its line feed; a carriage return directly before the
    line feed is removed, and so is one at the very end of the input. *)
Fixpoint lines (s : string) : list string :=
  match s with
  | EmptyString => []
  | String a s' =>
      if Ascii.eqb a LF then String LF EmptyString :: lines s'
      else if Ascii.eqb a CR then
        match s' with
        | EmptyString => [EmptyString]
        | String b s'' =>
            if Ascii.eqb b LF then String LF EmptyString :: lines s''
            else consLine a (lines s')
        end
      else consLine a (lines s')
  end.

(** [len(line) == lengthNL(line)]: nothing but the line feed. *)
Definition blank (line : string) : bool :=
  match line with
  | EmptyString => true
  | String a EmptyString => Ascii.eqb a LF
  | _ => false
  end.

Fixpoint skipBlank (ls : list string) : list string :=
  match ls with
  | [] => []
  | l :: ls' => if blank l then skipBlank ls' else ls
  end.

Section Fields.
(** How a quoted field goes on when the line ends inside it. *)
Variable nextLine : string -> list string -> result (list string).

(** The [parseField] loop of [readRecord] on what is left of the line:
    [unquoted] is inside a field that did not start with a quote,
    [quoted] inside one that did; [field] is what the field holds so
    far and [fields] the fields before it. *)
Fixpoint unquoted (line field : string) (fields : list string)
  {struct line} : result (list string) :=
  match line with
  | EmptyString => Ok (fields ++ [field])
  | String a line' =>
      if Ascii.eqb a comma then
        match line' with
        | String b line'' =>
            if Ascii.eqb b quote then quoted line'' EmptyString (fields ++ [field])
            else unquoted line' EmptyString (fields ++ [field])
        | EmptyString => unquoted line' EmptyString (fields ++ [field])
        end
      else if Ascii.eqb a quote then Err ErrBareQuote
      else if Ascii.eqb a LF then Ok (fields ++ [field])
      else unquoted line' (snoc field a) fields
  end
with quoted (line field : string) (fields : list string)
  {struct line} : result (list string) :=
  match line with
  | EmptyString => nextLine field fields
  | String a line' =>
      if Ascii.eqb a quote then
        match line' with
        | EmptyString => Ok (fields ++ [field])
        | String b line'' =>
            if Ascii.eqb b quote then quoted line'' (snoc field quote) fields
            else if Ascii.eqb b comma then
              match line'' with
              | String c line''' =>
                  if Ascii.eqb c quote
                  then quoted line''' EmptyString (fields ++ [field])
                  else unquoted line'' EmptyString (fields ++ [field])
              | EmptyString => unquoted line'' EmptyString (fields ++ [field])
              end
            else if Ascii.eqb b LF then Ok (fields ++ [field])
            else Err ErrQuote
        end
      else quoted line' (snoc field a) fields
  end.

(** The start of a field: quoted when the first byte is a quote. *)
Definition startField (line : string) (fields : list string) : result (list string) :=
  match line with
  | String b line' =>
      if Ascii.eqb b quote then quoted line' EmptyString fields
      else unquoted line EmptyString fields
  | EmptyString => unquoted line EmptyString fields
  end.
End Fields.

(** A quoted field that is open at the end of a line goes on in the next
    line; at the end of the input it is an error. *)
Fixpoint continueQuoted (ls : list string) (field : string) (fields : list string)
  : result (list string) :=
  match ls with
  | [] => Err ErrQuote
  | l :: ls' => quoted (continueQuoted ls') l field fields
  end.

(** [readRecord]: skip blank lines, then the fields of one record. *)
Definition readRecord (ls : list string) : result (list string) :=
  match skipBlank ls with
  | [] => Err EOF
  | l :: ls' => startField (continueQuoted ls') l []
  end.

(** The first [Read()] of a new reader over [s]. *)
Definition Read (s : string) : result (list string) := readRecord (lines s).

End csv.

(** ** Package [env]: the schema *)

Module env.
Import reflect.

(** [path]: the steps to an output location in the destination structs. *)
Record path : Type := mkPath {
  root : nat;
  fields : list StructField
}.

Definition path_String (p : path) : string :=
  fold_left (fun s f => s +:+ "." +:+ Name f) (fields p) "args".

Definition Child (p : path) (f : StructField) : path :=
  {| root := root p; fields := fields p ++ [f] |}.

(** [spec]: one option of the schema. *)
Record spec : Type := mkSpec {
  dest : path;
  typ : rtype;
  name : string;
  help : string;
  defaultVal : string;
  multiple : bool;
  required : bool;
  boolean : bool;
  hasDefault : bool
}.

Definition withName (sp : spec) (n : string) : spec :=
  mkSpec (dest sp) (typ sp) n (help sp) (defaultVal sp)
         (multiple sp) (required sp) (boolean sp) (hasDefault sp).

Definition withHelp (sp : spec) (h : string) : spec :=
  mkSpec (dest sp) (typ sp) (name sp) h (defaultVal sp)
         (multiple sp) (required sp) (boolean sp) (hasDefault sp).

Definition withDefaultVal (sp : spec) (d : string) : spec :=
  mkSpec (dest sp) (typ sp) (name sp) (help sp) d
         (multiple sp) (required sp) (boolean sp) (hasDefault sp).

Definition withRequired (sp : spec) : spec :=
  mkSpec (dest sp) (typ sp) (name sp) (help sp) (defaultVal sp)
         (multiple sp) true (boolean sp) (hasDefault sp).

Definition withKind (sp : spec) (b m : bool) : spec :=
  mkSpec (dest sp) (typ sp) (name sp) (help sp) (defaultVal sp)
         m (required sp) b (hasDefault sp).

(** [SetDefault] of a spec. *)
Definition SetDefault (sp : spec) (def : string) : spec :=
  mkSpec (dest sp) (typ sp) (name sp) (help sp) def
         (multiple sp) (required sp) (boolean sp) true.

(** [Parser]: the options; its roots are the store, its configuration is
    empty, the description line of the help text is not modelled. *)
Record Parser : Type := mkParser {
  specs : list spec
}.

(** Modelled from the spec: [canParse] and [isBoolean] are in the
    repository's [reflect.go], which is not among the sources; the
    classification follows section 4.2 of the specification and the
    cases of [TestCanParse] and [TestCanParseTextUnmarshaler].  A type
    that exposes a text decoder, itself or through its pointer, is one
    opaque scalar.  Else a bool or pointer to bool is boolean, a scalar
    the scalar library parses is a scalar, and a slice (or pointer to
    slice) of elements that are classifiable, themselves or behind one
    pointer, is multi-value, boolean with it when the elements are. *)
Definition decodable (t : rtype) : bool :=
  ImplementsUnmarshaler t || ImplementsUnmarshaler (TPtr t).

Definition isBoolean (t : rtype) : bool :=
  if decodable t then false
  else if bool_decide (KindOf t = Bool) then true
  else bool_decide (KindOf t = Ptr) &&
       bool_decide (KindOf (default t (Elem t)) = Bool) &&
       negb (decodable (default t (Elem t))).

Definition canParse (t : rtype) : bool * bool * bool :=
  if decodable t then (true, false, false)
  else if scalar.CanParse t then (true, isBoolean t, false)
  else
    (* look inside a pointer, then inside a slice *)
    let t1 := if bool_decide (KindOf t = Ptr) then default t (Elem t) else t in
    if bool_decide (KindOf t1 = Slice) then
      let e := default t1 (Elem t1) in
      if scalar.CanParse e then (true, isBoolean e, true)
      else
        (* elements behind one more pointer *)
        let e' := if bool_decide (KindOf e = Ptr) then default e (Elem e) else e in
        if scalar.CanParse e' then (true, isBoolean e', true)
        else (false, false, false)
    else (false, false, false).

(** [lookAtTag]: one key of the annotation, trimmed and cut at the first
    colon into key and value.  The spec is written in place, so it is
    given back with the error. *)
Definition keyValue (key : string) : string * string :=
  let key := strings.TrimLeft key " "%char in
  match strings.Index key ":"%char with
  | Some pos => (strings.take pos key, strings.drop (pos + 1) key)
  | None => (key, EmptyString)
  end.

Definition lookAtKey (key : string) (sp : spec) : spec * option error :=
  let '(key, value) := keyValue key in
  if bool_decide (key = "name") && negb (bool_decide (value = EmptyString))
  then (withName sp value, None)
  else if bool_decide (key = "required") then
    if hasDefault sp then (sp, Some ErrorRequiredWithDefault)
    else (withRequired sp, None)
  else (sp, Some (Errorf (key +:+ "-" +:+ Error ErrorUnrecognizedTag) ErrorUnrecognizedTag)).

Fixpoint lookAtKeys (keys : list string) (sp : spec) : spec * option error :=
  match keys with
  | [] => (sp, None)
  | key :: keys' =>
      if bool_decide (key = EmptyString) then lookAtKeys keys' sp
      else
        match lookAtKey key sp with
        | (sp', None) => lookAtKeys keys' sp'
        | (sp', Some e) => (sp', Some e)
        end
  end.

Definition lookAtTag (tag : string) (sp : spec) : spec * option error :=
  lookAtKeys (strings.Split tag ","%char) sp.

(** [walker], the spec before the annotation is looked at: the path of
    the field, the lower-cased field name, and the [help] and [default]
    keys of the tag. *)
Definition newSpec (dest : path) (field : StructField) : spec :=
  let subdest := Child dest field in
  let sp := mkSpec subdest (Type_ field) (strings.ToLower (Name field))
                   EmptyString EmptyString false false false false in
  let sp := match Lookup (Tag field) "help" with
            | Some h => withHelp sp h
            | None => sp
            end in
  match Lookup (Tag field) "default" with
  | Some d => SetDefault sp d
  | None => sp
  end.

(** [walker]: the option of one field, whether to expand the field, and
    the error. *)
Definition walker (dest : path) (field : StructField) (t : rtype)
  : option spec * bool * option error :=
  let tag := Get (Tag field) "env" in
  if bool_decide (tag = "-") then (None, false, None)
  else if Anonymous field && bool_decide (KindOf (Type_ field) = Struct)
  then (None, true, None)
  else
    match lookAtTag tag (newSpec dest field) with
    | (_, Some err) =>
        (None, false,
         Some (Errorf (NameOf t +:+ "." +:+ Name field +:+ ": " +:+ Error err) err))
    | (sp, None) =>
        let '(parseable, b, m) := canParse (Type_ field) in
        let sp := withKind sp b m in
        if negb parseable then
          (Some sp, false,
           Some (Errorf (NameOf t +:+ "." +:+ Name field +:+ ": "
                         +:+ TypeString (Type_ field) +:+ " - "
                         +:+ Error ErrorFieldsAreNotSupported)
                        ErrorFieldsAreNotSupported))
        else if multiple sp && hasDefault sp then
          (Some sp, false,
           Some (Errorf (NameOf t +:+ "." +:+ Name field +:+ ": "
                         +:+ Error ErrorDefaultValueForSlice)
                        ErrorDefaultValueForSlice))
        else (Some sp, false, None)
    end.

Section Walk.
Context {A : Type}.
(** The visitor: it may write the state it closes over. *)
Variable visit : A -> StructField -> rtype -> A * bool * option error.

(** [walkFieldsImpl] over the fields of [t], expanding the fields the
    visitor asks for; [owner] is [t] as the visitor is given it. *)
Fixpoint walkFieldsImpl (owner t : rtype) (path : list nat) (acc : A)
  {struct t} : A * result unit :=
  match t with
  | TStruct fs =>
      (fix loop (fs : list (decl rtype)) (i : nat) (acc : A) {struct fs}
         : A * result unit :=
         match fs with
         | [] => (acc, Ok tt)
         | d :: fs' =>
             let field := mkStructField (decl_Name d) (decl_Type d) (decl_Tag d)
                                        (decl_Anonymous d) (path ++ [i]) in
             match visit acc field owner with
             | (acc, _, Some err) => (acc, Err err)
             | (acc, false, None) => loop fs' (S i) acc
             | (acc, true, None) =>
                 let subpath := if Anonymous field then path ++ [i] else [] in
                 match walkFieldsImpl (decl_Type d) (decl_Type d) subpath acc with
                 | (acc, Ok _) => loop fs' (S i) acc
                 | (acc, r) => (acc, r)
                 end
             end
         end) fs 0 acc
  | TNamed _ u _ _ => walkFieldsImpl owner u path acc
  | _ => (acc, Panic)
  end.

Definition walkFields (t : rtype) (acc : A) : A * result unit :=
  walkFieldsImpl t t [] acc.
End Walk.

(** [specsFromStruct]. *)
Definition specsFromStruct (dest : path) (t : rtype) : list spec * result unit :=
  if negb (bool_decide (KindOf t = Ptr)) then
    ([], Err (Errorf (path_String dest +:+ ":" +:+ KindString (KindOf t) +:+ " - "
                      +:+ Error ErrorNotPointers) ErrorNotPointers))
  else
    let t := default t (Elem t) in
    if negb (bool_decide (KindOf t = Struct)) then
      ([], Err (Errorf (path_String dest +:+ ":" +:+ KindString (KindOf t) +:+ " - "
                        +:+ Error ErrorNotStruct) ErrorNotStruct))
    else
      walkFields
        (fun specs field t =>
           let '(sp, expand, err) := walker dest field t in
           (specs ++ option_list sp, expand, err))
        t [].

(** ** Package [env]: the destination store

    [p.roots] are the pointers the caller gave; the store holds what they
    point to.  [val] is [None] for the invalid [reflect.Value] that a nil
    root gives, and also where the source would panic on a path that does
    not resolve, which a store of the shape of its types never does. *)

Fixpoint valFields (v : value) (fs : list StructField) : option value :=
  match fs with
  | [] => Some v
  | f :: fs' =>
      match v with
      | VPtr None => None
      | VPtr (Some u) => FieldByIndex u (Index f) ≫= fun next => valFields next fs'
      | _ => FieldByIndex v (Index f) ≫= fun next => valFields next fs'
      end
  end.

Definition val (roots : list value) (dest : path) : option value :=
  roots !! root dest ≫= fun v => valFields v (fields dest).

(** The store after a write through the [reflect.Value] that [val] gave. *)
Fixpoint setFields (v : value) (fs : list StructField) (new : value) : value :=
  match fs with
  | [] => new
  | f :: fs' =>
      let setIn u :=
        match FieldByIndex u (Index f) with
        | Some next => SetFieldByIndex u (Index f) (setFields next fs' new)
        | None => u
        end in
      match v with
      | VPtr None => v
      | VPtr (Some u) => VPtr (Some (setIn u))
      | _ => setIn v
      end
  end.

Definition setVal (roots : list value) (dest : path) (new : value) : list value :=
  match roots !! root dest with
  | Some v => <[root dest := setFields v (fields dest) new]> roots
  | None => roots
  end.

(** [isZero].  The [v.Interface()] of its last case panics for a field that
    is not exported; the structs of the model have exported fields only. *)
Definition isZero (t : rtype) (v : value) : bool :=
  if bool_decide (KindOf t = Slice) then IsNil v
  else if negb (Comparable t) then false
  else value_eqb v (Zero t).

(** The environment of the process, as [os.LookupEnv] reads it. *)
Abbreviation environ := (gmap string string).

Section Engine.
Variable M : Methods.

(** The receiver that [v.Interface().(encoding.TextMarshaler)] calls
    [MarshalText] on, and the type that declares the method. *)
Definition marshalerOf (t : rtype) : string :=
  match t with
  | TPtr e => scalar.decoderOf e
  | _ => scalar.decoderOf t
  end.

Definition marshalReceiver (t : rtype) (v : value) : value :=
  match t, v with
  | TPtr _, VPtr (Some r) => r
  | _, _ => v
  end.

(** [NewParser], the body of "add nonzero field values as defaults". *)
Definition addDefault (roots : list value) (sp : spec) : result spec :=
  match val roots (dest sp) with
  | Some v =>
      if negb (isZero (typ sp) v) then
        let sp := withDefaultVal sp (Sprint M (typ sp) v) in
        if ImplementsMarshaler (typ sp) then
          match MarshalText M (marshalerOf (typ sp)) (marshalReceiver (typ sp) v) with
          | (_, Some err) =>
              Err (Errorf (path_String (dest sp)
                           +:+ ": error marshaling default value to string: "
                           +:+ Error err) err)
          | (str, None) => Ok (withDefaultVal sp str)
          end
        else Ok sp
      else Ok sp
  | None => Ok sp
  end.

Fixpoint addDefaults (roots : list value) (specs : list spec) : result (list spec) :=
  match specs with
  | [] => Ok []
  | sp :: specs' =>
      match addDefault roots sp with
      | Ok sp' =>
          match addDefaults roots specs' with
          | Ok specs'' => Ok (sp' :: specs'')
          | r => r
          end
      | Err e => Err e
      | Panic => Panic
      end
  end.

(** [NewParser], the loop over the destinations: [dests] are the
    interface values the caller passed, each with its dynamic type. *)
Fixpoint newSpecs (roots : list value) (i : nat) (dests : list (rtype * value))
  (acc : list spec) : result (list spec) :=
  match dests with
  | [] => Ok acc
  | (t, _) :: dests' =>
      match specsFromStruct (mkPath i []) t with
      | (found, Ok _) =>
          match addDefaults roots found with
          | Ok found' => newSpecs roots (S i) dests' (acc ++ found')
          | r => r
          end
      | (_, Err e) => Err e
      | (_, Panic) => Panic
      end
  end.

Definition NewParser (dests : list (rtype * value)) : result Parser :=
  match newSpecs (snd <$> dests) 0 dests [] with
  | Ok found => Ok (mkParser found)
  | Err e => Err e
  | Panic => Panic
  end.

(** ** Package [env]: binding *)

(** [reflect.Append(dest, v)]; [None] where it panics. *)
Definition Append (d v : value) : option value :=
  match d with
  | VSlice None => Some (VSlice (Some [v]))
  | VSlice (Some l) => Some (VSlice (Some (l ++ [v])))
  | _ => None
  end.

(** [setSlice], the loop over the values: what the destination holds
    afterwards and what the call returned. *)
Fixpoint appendValues (elem : rtype) (ptr : bool) (d : value) (values : list string)
  : value * result unit :=
  match values with
  | [] => (d, Ok tt)
  | s :: values' =>
      match scalar.ParseValue M elem (Zero elem) s with
      | (e, Ok _) =>
          let v := if ptr then VPtr (Some e) else e in
          match Append d v with
          | Some d' => appendValues elem ptr d' values'
          | None => (d, Panic)
          end
      | (_, r) => (d, r)
      end
  end.

(** [setSlice(dest, values)] on the value [val] gave, of type [t].  In the
    model [CanSet] is false for the invalid value only: a field reached
    through a pointer root is addressable, and the structs of the model
    have exported fields only. *)
Definition setSlice (t : rtype) (dest : option value) (values : list string)
  : option value * result unit :=
  match dest with
  | None => (None, Err ErrorFieldIsNotWritable)
  | Some d =>
      match Elem t with
      | None => (dest, Panic)
      | Some elem =>
          let ptr := bool_decide (KindOf elem = Ptr) && negb (ImplementsUnmarshaler elem) in
          let elem := if ptr then default elem (Elem elem) else elem in
          (* truncate the slice in case default values exist *)
          let truncated :=
            if IsNil d then Some d
            else match d with
                 | VSlice (Some _) => Some (VSlice (Some []))
                 | _ => None
                 end in
          match truncated with
          | None => (dest, Panic)
          | Some d0 =>
              let '(d', r) := appendValues elem ptr d0 values in
              (Some d', r)
          end
      end
  end.

Definition store (roots : list value) (dest : path) (new : option value) : list value :=
  match new with
  | Some v => setVal roots dest v
  | None => roots
  end.

(** [scalar.ParseValue(p.val(dest), s)] on the store: an invalid value
    makes it panic. *)
Definition parseInto (roots : list value) (sp : spec) (s : string)
  : list value * result unit :=
  match val roots (dest sp) with
  | None => (roots, Panic)
  | Some v =>
      let '(v', r) := scalar.ParseValue M (typ sp) v s in
      (setVal roots (dest sp) v', r)
  end.

(** [captureEnvVars]: [i] is the position of the first of [specs] in the
    parser's list, which stands for the pointer that keys [wasPresent]. *)
Fixpoint captureEnvVars (E : environ) (i : nat) (specs : list spec)
  (wasPresent : gmap nat bool) (roots : list value)
  : list value * gmap nat bool * result unit :=
  match specs with
  | [] => (roots, wasPresent, Ok tt)
  | sp :: specs' =>
      match E !! name sp with
      | None => captureEnvVars E (S i) specs' wasPresent roots
      | Some value =>
          let '(roots, r) :=
            if multiple sp then
              match csv.Read value with
              | Ok values =>
                  match setSlice (typ sp) (val roots (dest sp)) values with
                  | (new, Err err) =>
                      (store roots (dest sp) new,
                       Err (Errorf ("error processing environment variable "
                                    +:+ name sp +:+ " with multiple values: "
                                    +:+ Error err) err))
                  | (new, r) => (store roots (dest sp) new, r)
                  end
              | Err err =>
                  (roots,
                   Err (Errorf ("error reading a CSV string from environment variable "
                                +:+ name sp +:+ " with multiple values: "
                                +:+ Error err) err))
              | Panic => (roots, Panic)
              end
            else
              match parseInto roots sp value with
              | (roots, Err err) =>
                  (roots,
                   Err (Errorf ("error processing environment variable "
                                +:+ name sp +:+ ": " +:+ Error err) err))
              | (roots, r) => (roots, r)
              end in
          match r with
          | Ok _ => captureEnvVars E (S i) specs' (<[i := true]> wasPresent) roots
          | _ => (roots, wasPresent, r)
          end
      end
  end.

(** [process], the loop "fill in defaults and check that all the
    required args were provided". *)
Fixpoint fillDefaults (i : nat) (specs : list spec) (wasPresent : gmap nat bool)
  (roots : list value) : list value * result unit :=
  match specs with
  | [] => (roots, Ok tt)
  | sp :: specs' =>
      if default false (wasPresent !! i) then fillDefaults (S i) specs' wasPresent roots
      else
        let name := name sp in
        if required sp then
          (roots, Err (Errorf (name +:+ ": " +:+ Error ErrorFieldIsRequired)
                              ErrorFieldIsRequired))
        else if negb (bool_decide (defaultVal sp = EmptyString)) then
          match parseInto roots sp (defaultVal sp) with
          | (roots, Ok _) => fillDefaults (S i) specs' wasPresent roots
          | (roots, Err err) =>
              (roots,
               Err (Errorf ("error processing default value for " +:+ name
                            +:+ ": " +:+ Error err) err))
          | (roots, Panic) => (roots, Panic)
          end
        else fillDefaults (S i) specs' wasPresent roots
  end.

(** [process]: the store afterwards and what the call returned. *)
Definition process (p : Parser) (E : environ) (roots : list value)
  : list value * result unit :=
  let wasPresent : gmap nat bool := ∅ in
  let specs := specs p in
  match captureEnvVars E 0 specs wasPresent roots with
  | (roots, wasPresent, Ok _) => fillDefaults 0 specs wasPresent roots
  | (roots, _, r) => (roots, r)
  end.

(** [Parse]. *)
Definition Parse (p : Parser) (E : environ) (roots : list value)
  : list value * result unit :=
  process p E roots.

End Engine.

End env.

(** ** Package [env]: the help text ([usage.go])

    The writer is the text written so far (a [bytes.Buffer], whose writes
    do not fail); the parser's description, which [Parser] above leaves out,
    is an argument. *)

Module usage.
Import env.

(** [strings.Repeat(s, count)]. *)
Fixpoint Repeat (s : string) (count : nat) : string :=
  match count with
  | 0 => EmptyString
  | S count' => s +:+ Repeat s count'
  end.

Definition newline : string := String csv.LF EmptyString.

(** The width of the left column. *)
Definition colWidth : nat := 25.

Definition printTwoCols (w left help defaultVal : string) : string :=
  let lhs := "  " +:+ left in
  let w := w +:+ lhs in
  let w :=
    if negb (bool_decide (help = EmptyString)) then
      let w :=
        if String.length lhs + 2 <? colWidth
        then w +:+ Repeat " " (colWidth - String.length lhs)
        else w +:+ newline +:+ Repeat " " colWidth in
      w +:+ help
    else w in
  let bracketsContent : list string := [] in
  let bracketsContent :=
    if negb (bool_decide (defaultVal = EmptyString))
    then bracketsContent ++ ["default: " +:+ defaultVal]
    else bracketsContent in
  let w :=
    if 0 <? length bracketsContent
    then w +:+ " [" +:+ strings.Join bracketsContent ", " +:+ "]"
    else w in
  w +:+ newline.

Definition synopsis (sp : spec) (form : string) : string := form.

Definition printOption (w : string) (sp : spec) : string :=
  let left := synopsis sp (name sp) in
  printTwoCols w left (help sp) (defaultVal sp).

(** [writeHelp]. *)
Definition writeHelp (description : string) (w : string) (specs : list spec) : string :=
  let options := [] ++ specs in
  let w :=
    if negb (bool_decide (description = EmptyString))
    then w +:+ description +:+ newline
    else w in
  (* write the list of options *)
  if 0 <? length options
  then fold_left printOption options (w +:+ "Environments:" +:+ newline)
  else w.

(** [Help]. *)
Definition Help (description : string) (p : Parser) : string :=
  writeHelp description EmptyString (specs p).

End usage.

(** ** Package [env]: the entry points [MustParse] and [Parse]

    The functions of the package (the methods of [Parser] are in [env]
    above): the store they leave and what they return. *)

Module api.
Import reflect env.

Section Entry.
Variable M : Methods.

(** [MustParse(dest...)]: it returns the parser or the error. *)
Definition MustParse (E : environ) (dests : list (rtype * value))
  : list value * result Parser :=
  match NewParser M dests with
  | Ok p =>
      match env.Parse M p E (snd <$> dests) with
      | (roots, Ok _) => (roots, Ok p)
      | (roots, Err err) => (roots, Err err)
      | (roots, Panic) => (roots, Panic)
      end
  | Err err => (snd <$> dests, Err err)
  | Panic => (snd <$> dests, Panic)
  end.

(** [Parse(dest...)]. *)
Definition Parse (E : environ) (dests : list (rtype * value))
  : list value * result unit :=
  match NewParser M dests with
  | Ok p => env.Parse M p E (snd <$> dests)
  | Err err => (snd <$> dests, Err err)
  | Panic => (snd <$> dests, Panic)
  end.

End Entry.

End api.

(** ** The types of the repository's tests, and [fmt]'s [%v] on the model's
    values *)

Module fixtures.
Import reflect.

Definition itoa (z : Z) : string := NilZero.string_of_int (Z.to_int z).

(** [%v]: ints in decimal, [true] and [false], strings as they are, the
    elements of a slice and the fields of a struct between brackets; a
    pointer prints as an address, which the model fixes. *)
Fixpoint sprintValue (v : value) : string :=
  match v with
  | VBool b => if b then "true" else "false"
  | VInt n => itoa n
  | VString s => s
  | VNil => "<nil>"
  | VPtr None => "<nil>"
  | VPtr (Some _) => "0xc000012345"
  | VSlice None => "[]"
  | VSlice (Some l) =>
      "[" +:+ strings.Join ((fix each (l : list value) : list string :=
                               match l with
                               | [] => []
                               | x :: l' => sprintValue x :: each l'
                               end) l) " " +:+ "]"
  | VStruct l =>
      "{" +:+ strings.Join ((fix each (l : list value) : list string :=
                               match l with
                               | [] => []
                               | x :: l' => sprintValue x :: each l'
                               end) l) " " +:+ "}"
  end.

Definition field (n : string) (t : rtype) (tag : list (string * string)) : decl rtype :=
  Decl n t tag false.

Definition textUnmarshaler : rtype :=
  TNamed "textUnmarshaler" (TStruct [field "val" TInt []]) true None.
Definition boolUnmarshaler : rtype := TNamed "boolUnmarshaler" TBool true None.
Definition sliceUnmarshaler : rtype := TNamed "sliceUnmarshaler" (TSlice TInt) true None.
Definition NameDotName : rtype :=
  TNamed "NameDotName" (TStruct [field "Head" TString []; field "Tail" TString []])
         true (Some ByPointer).
Definition MyEnum : rtype := TNamed "MyEnum" TInt true (Some ByPointer).

(** A decoder that adds to what its receiver holds:
    [func (t *tally) UnmarshalText(b []byte) error { *t += tally(len(b)); return nil }]. *)
Definition tally : rtype := TNamed "tally" TInt true None.

Definition errTestMissingPeriod : error := New "missing period".
Definition errTestProblem : error := New "there was a problem".

Definition len (s : string) : Z := Z.of_nat (String.length s).

Definition unmarshalText (type : string) (r : value) (s : string) : value * option error :=
  if bool_decide (type = "textUnmarshaler") then (VStruct [VInt (len s)], None)
  else if bool_decide (type = "boolUnmarshaler") then (VBool (Z.even (len s)), None)
  else if bool_decide (type = "sliceUnmarshaler") then (VSlice (Some [VInt (len s)]), None)
  else if bool_decide (type = "NameDotName") then
    match strings.Index s "."%char with
    | None => (r, Some (Errorf (s +:+ ": " +:+ Error errTestMissingPeriod) errTestMissingPeriod))
    | Some pos =>
        (VStruct [VString (strings.take pos s); VString (strings.drop (pos + 1) s)], None)
    end
  else (r, None).

Definition marshalText (type : string) (r : value) : string * option error :=
  if bool_decide (type = "NameDotName") then
    match r with
    | VStruct [VString h; VString t] => (h +:+ "." +:+ t, None)
    | _ => (EmptyString, None)
    end
  else if bool_decide (type = "MyEnum") then (EmptyString, Some errTestProblem)
  else (EmptyString, None).

(** The methods of the tests' types. *)
Definition methods : Methods :=
  {| UnmarshalText := unmarshalText;
     MarshalText := marshalText;
     Sprint := fun _ v => sprintValue v |}.

(** The same, and the decoder of [tally]. *)
Definition tallyMethods : Methods :=
  {| UnmarshalText := fun type r s =>
       if bool_decide (type = "tally") then
         match r with
         | VInt n => (VInt (n + len s), None)
         | _ => (r, None)
         end
       else unmarshalText type r s;
     MarshalText := marshalText;
     Sprint := fun _ v => sprintValue v |}.

(** A destination: the pointer to a struct literal with these fields,
    holding these values. *)
Definition dest (fs : list (decl rtype)) (vs : list value) : rtype * value :=
  (TPtr (TStruct fs), VPtr (Some (VStruct vs))).

Definition zeroDest (fs : list (decl rtype)) : rtype * value :=
  (TPtr (TStruct fs), VPtr (Some (Zero (TStruct fs)))).

(** [pparse] of the tests: construct, then bind. *)
Definition pparse (E : env.environ) (d : rtype * value)
  : result env.Parser * list value * result unit :=
  match env.NewParser methods [d] with
  | Ok p =>
      let '(roots, r) := env.Parse methods p E [snd d] in
      (Ok p, roots, r)
  | r => (r, [snd d], Ok tt)
  end.

(** The parser that [NewParser] gives for one destination (an empty one
    where it gives none). *)
Definition parserOf (d : rtype * value) : env.Parser :=
  match env.NewParser tallyMethods [d] with
  | Ok p => p
  | _ => env.mkParser []
  end.

End fixtures.

(** * Properties *)

Import reflect env.

(** ** Strings and errors *)

Lemma Contains_mid (pre sub post : string) :
  strings.Contains (pre +:+ sub +:+ post) sub.
Proof. by exists pre, post. Qed.

Lemma Contains_head (sub post : string) : strings.Contains (sub +:+ post) sub.
Proof. by exists EmptyString, post. Qed.

Lemma Is_refl (e : error) : Is e e = true.
Proof. destruct e; simpl; by rewrite bool_decide_eq_true_2. Qed.

Lemma Is_wrapped (text : string) (e : error) : Is (Errorf text e) e = true.
Proof. simpl. rewrite Is_refl. apply orb_true_r. Qed.

(** ** The store: reading back what was written, and what a write leaves alone *)

Lemma FieldByIndex_set_same (index : list nat) (v old new : value) :
  FieldByIndex v index = Some old ->
  FieldByIndex (SetFieldByIndex v index new) index = Some new.
Proof.
  revert v. induction index as [|i index IH]; intros v H; simpl in *; [done|].
  destruct v as [| | | | |  |fs]; try done.
  destruct (fs !! i) as [f|] eqn:Hf; simpl in *; [|done].
  rewrite list_lookup_insert_eq by (by eapply lookup_lt_Some).
  simpl. by apply IH.
Qed.

Lemma SetFieldByIndex_same (index : list nat) (v old : value) :
  FieldByIndex v index = Some old -> SetFieldByIndex v index old = v.
Proof.
  revert v. induction index as [|i index IH]; intros v H; simpl in *; [congruence|].
  destruct v as [| | | | |  |fs]; try done.
  destruct (fs !! i) as [f|] eqn:Hf; simpl in *; [|done].
  rewrite (IH _ H). by rewrite list_insert_id.
Qed.

(** Two index sequences part ways: neither field is inside the other. *)
Fixpoint diverge (l1 l2 : list nat) : bool :=
  match l1, l2 with
  | i :: l1', j :: l2' => if bool_decide (i = j) then diverge l1' l2' else true
  | _, _ => false
  end.

Lemma diverge_sym (l1 l2 : list nat) : diverge l1 l2 = diverge l2 l1.
Proof.
  revert l2. induction l1 as [|i l1 IH]; intros [|j l2]; simpl; try done.
  repeat case_bool_decide; subst; try done; apply IH.
Qed.

Lemma FieldByIndex_set_other (index index' : list nat) (v new : value) :
  diverge index index' = true ->
  FieldByIndex (SetFieldByIndex v index new) index' = FieldByIndex v index'.
Proof.
  revert v index'. induction index as [|i index IH]; intros v [|j index'] H;
    simpl in *; try done.
  destruct v as [| | | | |  |fs]; try done.
  destruct (fs !! i) as [f|] eqn:Hf; simpl in *; [|done].
  case_bool_decide as Hij.
  - subst j. rewrite list_lookup_insert_eq by (by eapply lookup_lt_Some).
    rewrite Hf. simpl. by apply IH.
  - by rewrite list_lookup_insert_ne.
Qed.

Lemma FieldByIndex_struct (index : list nat) (v x : value) :
  index <> [] -> FieldByIndex v index = Some x -> exists fs, v = VStruct fs.
Proof. destruct index, v; simpl; try done. eauto. Qed.

Lemma SetFieldByIndex_struct (index : list nat) (fs : list value) (new : value) :
  index <> [] -> exists gs, SetFieldByIndex (VStruct fs) index new = VStruct gs.
Proof. destruct index as [|i index]; simpl; [done|]. destruct (fs !! i); eauto. Qed.

(** The paths of a schema have steps with an index sequence that is not
    empty ([walkFieldsImpl] makes it one longer than the path it is in). *)
Definition steps_ok (fs : list StructField) : Prop :=
  Forall (fun f => Index f <> []) fs.

Lemma valFields_set_same (fs : list StructField) (v old new : value) :
  steps_ok fs ->
  valFields v fs = Some old -> valFields (setFields v fs new) fs = Some new.
Proof.
  intros Hok. revert v. induction Hok as [|f fs Hf Hok IH]; intros v H; simpl in *; [done|].
  assert (Hin : forall u, FieldByIndex u (Index f) ≫= (fun next => valFields next fs) = Some old ->
    exists gs, match FieldByIndex u (Index f) with
      | Some next => SetFieldByIndex u (Index f) (setFields next fs new)
      | None => u
      end = VStruct gs /\
    FieldByIndex (VStruct gs) (Index f) ≫= (fun next => valFields next fs) = Some new).
  { intros u Hu. destruct (FieldByIndex u (Index f)) as [next|] eqn:Hn; [|done].
    simpl in Hu. destruct (FieldByIndex_struct _ _ _ Hf Hn) as [us ->].
    destruct (SetFieldByIndex_struct (Index f) us (setFields next fs new) Hf) as [gs Hgs].
    exists gs. split; [done|]. rewrite <- Hgs.
    erewrite FieldByIndex_set_same by done. simpl. by apply IH. }
  destruct v as [| | | |[u|]|  |];
    try (destruct (Hin _ H) as (gs & -> & Hgs); by simpl in * ); done.
Qed.

Lemma setFields_same (fs : list StructField) (v old : value) :
  valFields v fs = Some old -> setFields v fs old = v.
Proof.
  revert v. induction fs as [|f fs IH]; intros v H; simpl in *; [congruence|].
  assert (Hin : forall u, FieldByIndex u (Index f) ≫= (fun next => valFields next fs) = Some old ->
    match FieldByIndex u (Index f) with
    | Some next => SetFieldByIndex u (Index f) (setFields next fs old)
    | None => u
    end = u).
  { intros u Hu. destruct (FieldByIndex u (Index f)) as [next|] eqn:Hn; [|done].
    simpl in Hu. rewrite (IH _ Hu). by apply SetFieldByIndex_same. }
  destruct v as [| | | |[u|]|  |]; simpl; try (by apply Hin); try done.
  by rewrite Hin.
Qed.

Lemma val_setVal_same (roots : list value) (d : path) (old new : value) :
  steps_ok (fields d) ->
  val roots d = Some old -> val (setVal roots d new) d = Some new.
Proof.
  unfold val, setVal. intros Hok H.
  destruct (roots !! root d) as [v|] eqn:Hv; simpl in *; [|done].
  rewrite list_lookup_insert_eq by (by eapply lookup_lt_Some).
  simpl. by eapply valFields_set_same.
Qed.

Lemma setVal_same (roots : list value) (d : path) (old : value) :
  val roots d = Some old -> setVal roots d old = roots.
Proof.
  unfold val, setVal. intros H.
  destruct (roots !! root d) as [v|] eqn:Hv; simpl in *; [|done].
  rewrite (setFields_same _ _ _ H). by apply list_insert_id.
Qed.

(** Two destinations are independent when they are in different roots, or
    are fields of one root whose index sequences part ways. *)
Definition independent (d d' : path) : bool :=
  negb (bool_decide (root d = root d')) ||
  match fields d, fields d' with
  | [f], [f'] => diverge (Index f) (Index f')
  | _, _ => false
  end.

Lemma independent_sym (d d' : path) : independent d d' = independent d' d.
Proof.
  unfold independent. f_equal.
  - repeat case_bool_decide; try done; congruence.
  - destruct (fields d) as [|f [|]], (fields d') as [|f' [|]]; try done.
    apply diverge_sym.
Qed.

Lemma val_setVal_other (roots : list value) (d d' : path) (new : value) :
  independent d d' = true -> val (setVal roots d new) d' = val roots d'.
Proof.
  unfold independent, val, setVal. intros H.
  destruct (roots !! root d) as [v|] eqn:Hv; [|done].
  case_bool_decide as Hr; simpl in H; [|by rewrite list_lookup_insert_ne].
  destruct (fields d) as [|f [|]] eqn:Hf; try done.
  destruct (fields d') as [|f' [|]] eqn:Hf'; try done.
  assert (Hne : Index f <> []) by (intros Hn; by rewrite Hn in H).
  rewrite <- Hr. rewrite list_lookup_insert_eq by (by eapply lookup_lt_Some).
  rewrite Hv. simpl.
  assert (Hin : forall u,
    let u' := match FieldByIndex u (Index f) with
              | Some _ => SetFieldByIndex u (Index f) new
              | None => u
              end in
    FieldByIndex u' (Index f') = FieldByIndex u (Index f') /\
    ((exists fs, u = VStruct fs) -> exists gs, u' = VStruct gs) /\
    ((forall fs, u <> VStruct fs) -> u' = u)).
  { intros u. simpl. destruct (FieldByIndex u (Index f)) as [x|] eqn:Hx.
    - destruct (FieldByIndex_struct _ _ _ Hne Hx) as [us ->].
      split; [by apply FieldByIndex_set_other|]. split.
      + intros _. by apply SetFieldByIndex_struct.
      + intros Hu. by destruct (Hu us).
    - split; [done|]. split; [|done]. intros [fs ->]. eauto. }
  destruct v as [| | | |[u|]|  |fs]; simpl;
    try (destruct (Hin u) as (-> & _ & _); done);
    try (match goal with |- context [FieldByIndex ?w (Index f)] =>
           destruct (Hin w) as (_ & _ & Hw); simpl in Hw; rewrite Hw by done end; done);
    try done.
  destruct (Hin (VStruct fs)) as (Hget & Hs & _). simpl in *.
  destruct Hs as [gs Hgs]; [eauto|]. rewrite Hgs in *. by rewrite Hget.
Qed.

(** ** The two loops of [process] *)

Section Loops.
Variable M : Methods.
Variable E : environ.

(** [captureEnvVars] marks the positions it went through, and no other. *)
Lemma captureEnvVars_before (specs : list spec) :
  forall (i : nat) (wp wp' : gmap nat bool) (roots roots' : list value) (r : result unit) (j : nat),
    captureEnvVars M E i specs wp roots = (roots', wp', r) ->
    j < i -> wp' !! j = wp !! j.
Proof.
  induction specs as [|sp specs IH]; intros i wp wp' roots roots' r j H Hj; simpl in H.
  - by simplify_eq.
  - destruct (E !! name sp) as [value|]; [|eapply IH; [done|lia]].
    destruct (if multiple sp then _ else _) as [roots1 [[]|e|]] in H; try by simplify_eq.
    erewrite IH by (done || lia). apply lookup_insert_ne. lia.
Qed.

Lemma captureEnvVars_at (specs : list spec) :
  forall (i k : nat) (wp wp' : gmap nat bool) (roots roots' : list value) (sp : spec),
    captureEnvVars M E i specs wp roots = (roots', wp', Ok tt) ->
    specs !! k = Some sp ->
    wp' !! (i + k) = if E !! name sp is Some _ then Some true else wp !! (i + k).
Proof.
  induction specs as [|sp0 specs IH]; intros i k wp wp' roots roots' sp H Hk; [done|].
  simpl in H. destruct k as [|k]; simpl in Hk.
  - simplify_eq. rewrite Nat.add_0_r.
    destruct (E !! name sp) as [value|].
    + destruct (if multiple sp then _ else _) as [roots1 [[]|e|]] in H; try by simplify_eq.
      erewrite captureEnvVars_before by (done || lia). apply lookup_insert_eq.
    + eapply captureEnvVars_before; [done|lia].
  - replace (i + S k) with (S i + k) by lia.
    destruct (E !! name sp0) as [value|].
    + destruct (if multiple sp0 then _ else _) as [roots1 [[]|e|]] in H; try by simplify_eq.
      erewrite IH by done. destruct (E !! name sp); [done|].
      apply lookup_insert_ne. lia.
    + by erewrite IH.
Qed.

(** The second loop over a list in two parts. *)
Lemma fillDefaults_app (pre rest : list spec) :
  forall (i : nat) (wp : gmap nat bool) (roots : list value),
    fillDefaults M i (pre ++ rest) wp roots =
    match fillDefaults M i pre wp roots with
    | (roots', Ok _) => fillDefaults M (i + length pre) rest wp roots'
    | other => other
    end.
Proof.
  induction pre as [|sp pre IH]; intros i wp roots; simpl.
  - by rewrite Nat.add_0_r.
  - replace (i + S (length pre)) with (S i + length pre) by lia.
    destruct (default false (wp !! i)); [apply IH|].
    destruct (required sp); [done|].
    destruct (negb _); [|apply IH].
    destruct (parseInto M roots sp (defaultVal sp)) as [roots1 [[]|e|]]; [apply IH|done..].
Qed.

End Loops.

(** ** C1: absent slots, required or with a default *)

(** C1, as the code has it.  After the pass over the slots that are
    present, the second loop takes the slots in order and stops at the
    first failure.  A slot whose key is absent and that is required keeps
    the pass from returning normally; when the loop gets to it (the first
    loop returned no error, and neither did the second loop for the slots
    before it) the pass returns [name: field is required], which wraps
    [ErrorFieldIsRequired] and has the slot's name in its text.  A slot
    whose key is absent, that is not required and has a non-empty default
    literal gets, when the loop gets to it, the literal converted by the
    scalar parser into its destination: on success the store holds the
    converted value there and the loop goes on with the next slot, on a
    conversion failure the pass returns an error that wraps the failure and
    has the slot's name in its text.  When the first loop or an earlier
    slot of the second loop fails, the pass ends there with that result and
    the slot is not looked at. *)
Theorem C1_absent_required_or_default
    (M : Methods) (E : environ) (p : Parser) (roots : list value)
    (pre post : list spec) (sp : spec) :
  specs p = pre ++ sp :: post ->
  E !! name sp = None ->
  (required sp = true -> forall roots', process M p E roots <> (roots', Ok tt)) /\
  (forall (roots1 roots2 : list value) (wasPresent : gmap nat bool),
     captureEnvVars M E 0 (specs p) ∅ roots = (roots1, wasPresent, Ok tt) ->
     fillDefaults M 0 pre wasPresent roots1 = (roots2, Ok tt) ->
     (required sp = true ->
      exists e, process M p E roots = (roots2, Err e) /\
                e = Errorf (name sp +:+ ": field is required") ErrorFieldIsRequired /\
                Is e ErrorFieldIsRequired = true /\
                strings.Contains (Error e) (name sp)) /\
     (required sp = false -> defaultVal sp <> EmptyString ->
      forall (v v' : value) (r : result unit),
        val roots2 (dest sp) = Some v ->
        scalar.ParseValue M (typ sp) v (defaultVal sp) = (v', r) ->
        let roots3 := setVal roots2 (dest sp) v' in
        match r with
        | Ok _ =>
            process M p E roots = fillDefaults M (S (length pre)) post wasPresent roots3
        | Err err =>
            exists e, process M p E roots = (roots3, Err e) /\
                      Is e err = true /\ strings.Contains (Error e) (name sp)
        | Panic => process M p E roots = (roots3, Panic)
        end)) /\
  (forall (roots1 : list value) (wasPresent : gmap nat bool) (r : result unit),
     captureEnvVars M E 0 (specs p) ∅ roots = (roots1, wasPresent, r) ->
     r <> Ok tt ->
     process M p E roots = (roots1, r)) /\
  (forall (roots1 roots2 : list value) (wasPresent : gmap nat bool) (r : result unit),
     captureEnvVars M E 0 (specs p) ∅ roots = (roots1, wasPresent, Ok tt) ->
     fillDefaults M 0 pre wasPresent roots1 = (roots2, r) ->
     r <> Ok tt ->
     process M p E roots = (roots2, r)).
Proof.
  intros Hspecs Habsent.
  assert (Hwp : forall roots1 wp, captureEnvVars M E 0 (specs p) ∅ roots = (roots1, wp, Ok tt) ->
                default false (wp !! length pre) = false).
  { intros roots1 wp Hc. change (length pre) with (0 + length pre).
    erewrite (captureEnvVars_at M E _ 0 (length pre)); [|done|].
    - by rewrite Habsent.
    - rewrite Hspecs. by rewrite list_lookup_middle. }
  split; [|split; [|split]].
  - intros Hreq roots'. unfold process.
    destruct (captureEnvVars M E 0 (specs p) ∅ roots) as [[roots1 wp] [[]|e|]] eqn:Hc;
      try congruence.
    rewrite Hspecs, fillDefaults_app.
    destruct (fillDefaults M 0 pre wp roots1) as [roots2 [[]|e|]]; try congruence.
    simpl. rewrite (Hwp _ _ eq_refl), Hreq. congruence.
  - intros roots1 roots2 wp Hc Hpre.
    assert (Hp : process M p E roots =
                 fillDefaults M (length pre) (sp :: post) wp roots2).
    { unfold process. rewrite Hc. simpl. rewrite Hspecs at 1.
      by rewrite fillDefaults_app, Hpre. }
    rewrite Hp. simpl. rewrite (Hwp _ _ Hc). split.
    + intros ->. eexists. split; [done|]. split; [done|]. split; [done|].
      apply Contains_head.
    + intros -> Hdef v v' r Hv Hparse.
      rewrite bool_decide_eq_false_2 by done. simpl.
      unfold parseInto. rewrite Hv, Hparse.
      destruct r as [[]|err|]; [done| |done].
      eexists. split; [done|]. split; [apply Is_wrapped|].
      apply (Contains_mid "error processing default value for ").
  - intros roots1 wp r Hc Hr. unfold process. rewrite Hc.
    by destruct r as [[]|e|].
  - intros roots1 roots2 wp r Hc Hpre Hr. unfold process. rewrite Hc. simpl.
    rewrite Hspecs at 1. rewrite fillDefaults_app, Hpre.
    by destruct r as [[]|e|].
Qed.

(** A test for [strings.Contains]. *)
Fixpoint hasPrefix (s sub : string) {struct sub} : bool :=
  match sub, s with
  | EmptyString, _ => true
  | String b sub', String a s' => bool_decide (a = b) && hasPrefix s' sub'
  | _, _ => false
  end.

Fixpoint contains (s sub : string) : bool :=
  hasPrefix s sub ||
  match s with
  | String _ s' => contains s' sub
  | EmptyString => false
  end.

Lemma Contains_contains (s sub : string) :
  strings.Contains s sub -> contains s sub = true.
Proof.
  intros (pre & post & ->). induction pre as [|a pre IH].
  - assert (H : hasPrefix (sub +:+ post) sub = true).
    { induction sub as [|b sub IH]; [done|]. simpl.
      by rewrite bool_decide_eq_true_2, IH. }
    change (EmptyString +:+ ?x) with x.
    destruct (sub +:+ post); simpl; by rewrite H.
  - change (String a pre +:+ ?x) with (String a (pre +:+ x)).
    simpl. rewrite IH. apply orb_true_r.
Qed.

(** C1 fails as stated for a slot that the second loop does not get to:
    with [Foo] and [Bar] required and [N int `default:"7"`], all three
    absent, the pass ends at [Foo]; its error does not have the name of
    [Bar] in its text, and the default of [N] is not assigned. *)
Lemma C1_counterexample :
  let d := fixtures.zeroDest [fixtures.field "Foo" TString [("env", "required")];
                              fixtures.field "Bar" TString [("env", "required")];
                              fixtures.field "N" TInt [("default", "7")]] in
  let p := fixtures.parserOf d in
  (name <$> specs p, required <$> specs p, defaultVal <$> specs p)
  = (["foo"; "bar"; "n"], [true; true; false], [EmptyString; EmptyString; "7"]) /\
  process fixtures.methods p ∅ [d.2]
  = ([VPtr (Some (VStruct [VString EmptyString; VString EmptyString; VInt 0]))],
     Err (Errorf "foo: field is required" ErrorFieldIsRequired)) /\
  ~ strings.Contains "foo: field is required" "bar".
Proof.
  intros d p. split; [by vm_compute|]. split; [by vm_compute|].
  intros H. apply Contains_contains in H. by vm_compute in H.
Qed.

(** ** The schema: what [walker] and [NewParser] give *)

(** Induction over types, with the fields of a struct. *)
Section rtype_induction.
Variable P : rtype -> Prop.
Hypothesis HBool : P TBool.
Hypothesis HInt : P TInt.
Hypothesis HString : P TString.
Hypothesis HInterface : P TInterface.
Hypothesis HPtr : forall e, P e -> P (TPtr e).
Hypothesis HSlice : forall e, P e -> P (TSlice e).
Hypothesis HStruct : forall fs, Forall (fun d => P (decl_Type d)) fs -> P (TStruct fs).
Hypothesis HNamed : forall n u a b, P u -> P (TNamed n u a b).

Fixpoint rtype_fields_ind (t : rtype) : P t :=
  match t with
  | TBool => HBool
  | TInt => HInt
  | TString => HString
  | TInterface => HInterface
  | TPtr e => HPtr e (rtype_fields_ind e)
  | TSlice e => HSlice e (rtype_fields_ind e)
  | TStruct fs =>
      HStruct fs
        ((fix all (fs : list (decl rtype)) : Forall (fun d => P (decl_Type d)) fs :=
            match fs with
            | [] => List.Forall_nil _
            | d :: fs' =>
                @List.Forall_cons _ _ d fs' (rtype_fields_ind (decl_Type d)) (all fs')
            end) fs)
  | TNamed n u a b => HNamed n u a b (rtype_fields_ind u)
  end.
End rtype_induction.

(** What the visitor keeps when it returns no error, the walk keeps when it
    returns no error. *)
Lemma walkFieldsImpl_invariant {A : Type}
    (visit : A -> StructField -> rtype -> A * bool * option error) (Inv : A -> Prop) :
  (forall acc f t acc' expand, Inv acc -> visit acc f t = (acc', expand, None) -> Inv acc') ->
  forall (t owner : rtype) (path : list nat) (acc acc' : A),
    Inv acc -> walkFieldsImpl visit owner t path acc = (acc', Ok tt) -> Inv acc'.
Proof.
  intros Hvisit t.
  induction t as [| | | |e IH|e IH|fs IH|n u a b IH] using rtype_fields_ind;
    intros owner path acc acc' Hacc H; simpl in H; try done; [|by eapply IH].
  revert acc Hacc H. generalize 0 as i.
  induction IH as [|d fs Hd _ IHfs]; intros i acc Hacc H; [by simplify_eq|].
  destruct (visit acc _ owner) as [[acc1 expand] [err|]] eqn:Hv;
    [by destruct expand|].
  pose proof (Hvisit _ _ _ _ _ Hacc Hv) as Hacc1.
  destruct expand; [|by eapply IHfs].
  destruct (walkFieldsImpl visit (decl_Type d) (decl_Type d) _ acc1)
    as [acc2 [[]|e|]] eqn:Hw; try done.
  eapply IHfs; [|done]. by eapply Hd.
Qed.

(** A spec is built from a field when [walker] gave it for that field. *)
Definition built (d : path) (sp : spec) : Prop :=
  exists (field : StructField) (t : rtype), walker d field t = (Some sp, false, None).

Lemma specsFromStruct_built (d : path) (t : rtype) (found : list spec) :
  specsFromStruct d t = (found, Ok tt) -> Forall (built d) found.
Proof.
  unfold specsFromStruct, walkFields.
  destruct (negb (bool_decide (KindOf t = Ptr))); [done|].
  destruct (negb (bool_decide (KindOf (default t (Elem t)) = Struct))); [done|].
  apply (walkFieldsImpl_invariant _ (Forall (built d))); [|done].
  intros acc f t' acc' expand Hacc Hv.
  destruct (walker d f t') as [[[sp|] ex] err] eqn:Hw; simplify_eq; simpl.
  - apply Forall_app. split; [done|]. apply Forall_singleton.
    exists f, t'. rewrite Hw. do 2 f_equal.
    unfold walker in Hw. repeat case_match; by simplify_eq.
  - by rewrite app_nil_r.
Qed.

(** What [lookAtTag] may change: the name, and the required flag, which it
    sets only on a spec without an explicit default. *)
Definition annotated (sp sp' : spec) : Prop :=
  dest sp' = dest sp /\ typ sp' = typ sp /\ help sp' = help sp /\
  defaultVal sp' = defaultVal sp /\ hasDefault sp' = hasDefault sp /\
  multiple sp' = multiple sp /\ boolean sp' = boolean sp /\
  (required sp' = true -> required sp = true \/ hasDefault sp = false).

Lemma annotated_refl (sp : spec) : annotated sp sp.
Proof. unfold annotated. tauto. Qed.

Lemma annotated_trans (sp1 sp2 sp3 : spec) :
  annotated sp1 sp2 -> annotated sp2 sp3 -> annotated sp1 sp3.
Proof.
  unfold annotated. intros (?&?&?&?&Hd&?&?&Hr) (?&?&?&?&?&?&?&Hr').
  repeat split; try congruence.
  intros Hreq3. destruct (Hr' Hreq3) as [Hreq2|Hreq2]; [by apply Hr|]. right. congruence.
Qed.

Lemma lookAtKey_annotated (key : string) (sp sp' : spec) :
  lookAtKey key sp = (sp', None) -> annotated sp sp'.
Proof.
  unfold lookAtKey. intros H.
  repeat case_match; simplify_eq; unfold annotated; simpl; tauto.
Qed.

Lemma lookAtKeys_annotated (keys : list string) (sp sp' : spec) :
  lookAtKeys keys sp = (sp', None) -> annotated sp sp'.
Proof.
  revert sp. induction keys as [|key keys IH]; intros sp H; simpl in H.
  - simplify_eq. apply annotated_refl.
  - case_bool_decide; [by apply IH|].
    destruct (lookAtKey key sp) as [sp1 [e|]] eqn:Hk; [done|].
    eapply annotated_trans; [by eapply lookAtKey_annotated|by apply IH].
Qed.

(** The spec that [walker] gives for a field. *)
Lemma walker_spec (d : path) (field : StructField) (t : rtype) (sp : spec) (expand : bool) :
  walker d field t = (Some sp, expand, None) ->
  expand = false /\
  dest sp = Child d field /\
  typ sp = Type_ field /\
  defaultVal sp = Get (Tag field) "default" /\
  hasDefault sp = bool_decide (is_Some (Lookup (Tag field) "default")) /\
  canParse (Type_ field) = (true, boolean sp, multiple sp) /\
  (required sp = true -> hasDefault sp = false) /\
  (multiple sp = true -> hasDefault sp = false).
Proof.
  unfold walker. intros H.
  case_bool_decide; [done|].
  destruct (Anonymous field && _); [done|].
  assert (Hsp0 : dest (newSpec d field) = Child d field /\
               typ (newSpec d field) = Type_ field /\
               defaultVal (newSpec d field) = Get (Tag field) "default" /\
               hasDefault (newSpec d field)
                 = bool_decide (is_Some (Lookup (Tag field) "default")) /\
               required (newSpec d field) = false)
    by (unfold newSpec, Get; destruct (Lookup (Tag field) "help"),
          (Lookup (Tag field) "default"); simpl; repeat split; try done;
        by rewrite bool_decide_eq_false_2 by (by intros [? ?])).
  destruct (lookAtTag _ (newSpec d field)) as [sp1 [e|]] eqn:Htag; [done|].
  apply lookAtKeys_annotated in Htag.
  destruct Htag as (Hd & Ht & _ & Hdv & Hhd & _ & _ & Hreq).
  destruct Hsp0 as (Hd0 & Ht0 & Hdv0 & Hhd0 & Hreq0).
  destruct (canParse (Type_ field)) as [[parseable b] m] eqn:Hcan.
  destruct parseable; simpl in H; [|done].
  destruct (m && hasDefault sp1) eqn:Hm; simplify_eq. simpl.
  repeat split; try congruence.
  - intros Hr. destruct (Hreq Hr); congruence.
  - intros ->. by apply andb_false_iff in Hm as [|].
Qed.

Section Schema.
Variable M : Methods.

(** The text that "add nonzero field values as defaults" stores for a
    non-zero value: the type's own encoding when it has one, else [%v]. *)
Definition rendering (t : rtype) (v : value) : string :=
  if ImplementsMarshaler t
  then (MarshalText M (marshalerOf t) (marshalReceiver t v)).1
  else Sprint M t v.

Lemma addDefault_spec (roots : list value) (sp sp' : spec) :
  addDefault M roots sp = Ok sp' ->
  dest sp' = dest sp /\ typ sp' = typ sp /\ name sp' = name sp /\
  multiple sp' = multiple sp /\ required sp' = required sp /\
  boolean sp' = boolean sp /\ hasDefault sp' = hasDefault sp /\
  defaultVal sp' =
    match val roots (dest sp) with
    | Some v => if isZero (typ sp) v then defaultVal sp else rendering (typ sp) v
    | None => defaultVal sp
    end.
Proof.
  unfold addDefault, rendering. intros H.
  destruct (val roots (dest sp)) as [v|]; [|by simplify_eq].
  destruct (isZero (typ sp) v); simpl in H; [by simplify_eq|].
  destruct (ImplementsMarshaler (typ sp)); [|by simplify_eq].
  destruct (MarshalText M _ _) as [str [err|]]; by simplify_eq.
Qed.

Lemma addDefaults_spec (roots : list value) (found found' : list spec) :
  addDefaults M roots found = Ok found' ->
  Forall2 (fun sp sp' => addDefault M roots sp = Ok sp') found found'.
Proof.
  revert found'. induction found as [|sp found IH]; intros found' H; simpl in H.
  - simplify_eq. constructor.
  - destruct (addDefault M roots sp) as [sp'|e|] eqn:Hsp; try done.
    destruct (addDefaults M roots found) as [found''|e|]; try done.
    simplify_eq. constructor; [done|]. by apply IH.
Qed.

(** A slot of a constructed schema: built by [walker] from a field of a
    destination, then given its implicit default. *)
Definition slot (roots : list value) (sp' : spec) : Prop :=
  exists (i : nat) (sp : spec), built (mkPath i []) sp /\ addDefault M roots sp = Ok sp'.

Lemma newSpecs_slots (roots : list value) (dests : list (rtype * value)) :
  forall (i : nat) (acc found : list spec),
    newSpecs M roots i dests acc = Ok found ->
    Forall (slot roots) acc -> Forall (slot roots) found.
Proof.
  induction dests as [|[t v] dests IH]; intros i acc found H Hacc; simpl in H.
  - by simplify_eq.
  - destruct (specsFromStruct (mkPath i []) t) as [fs [[]|e|]] eqn:Hfs; try done.
    destruct (addDefaults M roots fs) as [fs'|e|] eqn:Hfs'; try done.
    eapply IH; [done|]. apply Forall_app. split; [done|].
    apply specsFromStruct_built in Hfs. apply addDefaults_spec in Hfs'.
    clear -Hfs Hfs'. induction Hfs' as [|sp sp' fs fs' Hsp _ IHfs]; [constructor|].
    apply Forall_cons in Hfs as [Hb Hfs]. constructor; [|by apply IHfs].
    by exists i, sp.
Qed.

Lemma NewParser_slots (dests : list (rtype * value)) (p : Parser) :
  NewParser M dests = Ok p -> Forall (slot (dests.*2)) (specs p).
Proof.
  unfold NewParser. intros H.
  destruct (newSpecs M (dests.*2) 0 dests []) as [found|e|] eqn:Hn; try done.
  simplify_eq. simpl. eapply newSpecs_slots; [done|constructor].
Qed.

(** Every slot of a constructed schema, with the field it was built
    from. *)
Lemma NewParser_slot (dests : list (rtype * value)) (p : Parser) (sp : spec) :
  NewParser M dests = Ok p -> sp ∈ specs p ->
  exists field : StructField,
    fields (dest sp) = [field] /\
    typ sp = Type_ field /\
    hasDefault sp = bool_decide (is_Some (Lookup (Tag field) "default")) /\
    canParse (Type_ field) = (true, boolean sp, multiple sp) /\
    (required sp = true -> hasDefault sp = false) /\
    (multiple sp = true -> hasDefault sp = false) /\
    defaultVal sp =
      match val (dests.*2) (dest sp) with
      | Some v =>
          if isZero (typ sp) v then Get (Tag field) "default"
          else rendering (typ sp) v
      | None => Get (Tag field) "default"
      end.
Proof.
  intros Hp Hin. apply NewParser_slots in Hp.
  rewrite Forall_forall in Hp. destruct (Hp _ Hin) as (i & sp0 & (field & t & Hw) & Hd).
  apply walker_spec in Hw as (_ & Hdest & Htyp & Hdv & Hhd & Hcan & Hreq & Hmul).
  apply addDefault_spec in Hd as (Hd1 & Hd2 & _ & Hd4 & Hd5 & Hd6 & Hd7 & Hd8).
  exists field. rewrite Hd1, Hd2, Hd4, Hd5, Hd6, Hd7, Hd8, Hdest, Htyp, <- Hdv.
  repeat split; done.
Qed.

End Schema.

(** ** C2: explicit and implicit default *)

(** C2, as the code has it.  In a constructed schema every slot comes from
    one field, and its default literal is decided by what the field holds
    at construction: when the field holds a non-zero value the literal is
    the rendering of that value (the type's [MarshalText] when it has one,
    else [%v]), whether or not the field has an explicit [default]
    annotation; the annotation's value is the literal only when the field
    holds its zero value or cannot be reached. *)
Theorem C2_default_literal
    (M : Methods) (dests : list (rtype * value)) (p : Parser) (sp : spec) :
  NewParser M dests = Ok p ->
  sp ∈ specs p ->
  exists field : StructField,
    fields (dest sp) = [field] /\
    hasDefault sp = bool_decide (is_Some (Lookup (Tag field) "default")) /\
    defaultVal sp =
      match val (dests.*2) (dest sp) with
      | Some v =>
          if isZero (typ sp) v then Get (Tag field) "default"
          else rendering M (typ sp) v
      | None => Get (Tag field) "default"
      end.
Proof.
  intros Hp Hin.
  destruct (NewParser_slot M dests p sp Hp Hin) as (field & Hf & _ & Hhd & _ & _ & _ & Hdv).
  by exists field.
Qed.

(** C2 fails as stated: a field with [default:"dog"] that holds ["cat"] at
    construction gets the slot default ["cat"], not the annotation's value. *)
Lemma C2_counterexample :
  let d := fixtures.dest [fixtures.field "Content" TString [("default", "dog")]]
                         [VString "cat"] in
  exists sp : spec,
    NewParser fixtures.methods [d] = Ok (mkParser [sp]) /\
    hasDefault sp = true /\
    defaultVal sp = "cat" /\
    defaultVal sp <> "dog".
Proof. eexists. split; [reflexivity|]. by repeat split. Qed.

(** ** C3: required and default *)

(** C3, as the code has it.  In a constructed schema no slot is both
    required and carrying an explicit [default] annotation: [lookAtTag]
    refuses the [required] key on a spec that has one, with
    [ErrorRequiredWithDefault].  The default that comes from a non-zero
    value in the destination is stored afterwards and is not looked at. *)
Theorem C3_required_excludes_explicit_default
    (M : Methods) (dests : list (rtype * value)) (p : Parser) (sp : spec) :
  NewParser M dests = Ok p ->
  sp ∈ specs p ->
  required sp = true ->
  hasDefault sp = false /\
  (exists field : StructField,
     fields (dest sp) = [field] /\ Lookup (Tag field) "default" = None) /\
  (forall sp0 : spec, hasDefault sp0 = true ->
     lookAtTag "required" sp0 = (sp0, Some ErrorRequiredWithDefault)).
Proof.
  intros Hp Hin Hreq.
  destruct (NewParser_slot M dests p sp Hp Hin) as (field & Hf & _ & Hhd & _ & Hr & _ & _).
  specialize (Hr Hreq). split; [done|]. split.
  - exists field. split; [done|]. rewrite Hr in Hhd.
    symmetry in Hhd. apply bool_decide_eq_false in Hhd.
    destruct (Lookup (Tag field) "default"); [|done]. destruct Hhd. eauto.
  - intros sp0 Hsp0. unfold lookAtTag. simpl. unfold lookAtKey. simpl. by rewrite Hsp0.
Qed.

(** C3 fails as stated: a required field that holds ["abc"] at construction
    gives a schema whose slot is required and has the default literal
    ["abc"]. *)
Lemma C3_counterexample :
  let d := fixtures.dest [fixtures.field "Foo" TString [("env", "required")]]
                         [VString "abc"] in
  exists sp : spec,
    NewParser fixtures.methods [d] = Ok (mkParser [sp]) /\
    required sp = true /\
    defaultVal sp = "abc" /\
    defaultVal sp <> EmptyString.
Proof. eexists. split; [reflexivity|]. by repeat split. Qed.

(** ** C4: multi-value and default *)

Lemma canParse_unparseable (t : rtype) (b m : bool) :
  canParse t = (false, b, m) -> b = false /\ m = false.
Proof. unfold canParse. intros H. repeat case_match; by simplify_eq. Qed.

(** C4, as the code has it.  In a constructed schema no multi-value slot
    carries an explicit [default] annotation: for a field that has one and
    whose type is multi-value, [walker] returns the error "default values
    are not supported for slice fields".  The default that comes from a
    slice that is not nil in the destination is stored afterwards and is
    not looked at. *)
Theorem C4_multiple_excludes_explicit_default
    (M : Methods) (dests : list (rtype * value)) (p : Parser) (sp : spec) :
  NewParser M dests = Ok p ->
  sp ∈ specs p ->
  multiple sp = true ->
  hasDefault sp = false /\
  (exists field : StructField,
     fields (dest sp) = [field] /\ Lookup (Tag field) "default" = None) /\
  (forall (d : path) (field : StructField) (t : rtype) (sp0 : spec) (expand : bool)
          (e : option error),
     walker d field t = (Some sp0, expand, e) ->
     multiple sp0 = true -> hasDefault sp0 = true ->
     exists err, e = Some err /\ Is err ErrorDefaultValueForSlice = true /\
       Error err = reflect.NameOf t +:+ "." +:+ Name field +:+ ": "
                   +:+ "default values are not supported for slice fields").
Proof.
  intros Hp Hin Hmul.
  destruct (NewParser_slot M dests p sp Hp Hin) as (field & Hf & _ & Hhd & _ & _ & Hm & _).
  specialize (Hm Hmul). split; [done|]. split.
  - exists field. split; [done|]. rewrite Hm in Hhd.
    symmetry in Hhd. apply bool_decide_eq_false in Hhd.
    destruct (Lookup (Tag field) "default"); [|done]. destruct Hhd. eauto.
  - clear. intros d field t sp0 expand e Hw Hm Hd. unfold walker in Hw.
    case_bool_decide; [done|].
    destruct (Anonymous field && _); [done|].
    destruct (lookAtTag _ _) as [sp1 [err|]]; [done|].
    destruct (canParse (Type_ field)) as [[parseable b] m] eqn:Hcan.
    destruct parseable; simpl in Hw.
    + destruct (m && hasDefault sp1) eqn:Hmd; simplify_eq; simpl in *.
      * eexists. split; [done|]. split; [apply Is_wrapped|done].
      * subst. by rewrite Hd in Hmd.
    + (* a type that cannot be parsed is not multi-value *)
      apply canParse_unparseable in Hcan as [_ ->]. by simplify_eq.
Qed.

(** C4 fails as stated: a slice field that holds [[3, 4]] at construction
    gives a schema whose slot is multi-value and has the default literal
    ["[3 4]"]. *)
Lemma C4_counterexample :
  let d := fixtures.dest [fixtures.field "Values" (TSlice TInt) []]
                         [VSlice (Some [VInt 3; VInt 4])] in
  exists sp : spec,
    NewParser fixtures.methods [d] = Ok (mkParser [sp]) /\
    multiple sp = true /\
    defaultVal sp = "[3 4]" /\
    defaultVal sp <> EmptyString.
Proof. eexists. split; [reflexivity|]. by repeat split. Qed.

(** ** C9: the keys of the annotation *)

Fixpoint spaces (n : nat) : string :=
  match n with
  | 0 => EmptyString
  | S n' => String " " (spaces n')
  end.

Lemma append_cons (a : ascii) (s t : string) : String a s +:+ t = String a (s +:+ t).
Proof. reflexivity. Qed.

Lemma TrimLeft_spaces (n : nat) (s : string) :
  strings.TrimLeft (spaces n +:+ s) " " = strings.TrimLeft s " ".
Proof. induction n as [|n IH]; [done|]. by simpl. Qed.

Lemma TrimLeft_keeps (k s : string) :
  strings.TrimLeft k " " = k -> k <> EmptyString ->
  strings.TrimLeft (k +:+ s) " " = k +:+ s.
Proof.
  destruct k as [|a k]; [done|]. intros H _. simpl in *.
  destruct (Ascii.eqb a " ") eqn:Ha; [|done].
  apply Ascii.eqb_eq in Ha. subst a.
  assert (Hlen : String.length (strings.TrimLeft k " ") <= String.length k).
  { clear. induction k as [|b k IH]; simpl; [lia|]. destruct (Ascii.eqb b " "); simpl; lia. }
  rewrite H in Hlen. simpl in Hlen. lia.
Qed.

Lemma Index_append (k s : string) (c : ascii) :
  strings.Index k c = None ->
  strings.Index (k +:+ String c s) c = Some (String.length k).
Proof.
  induction k as [|a k IH]; simpl; intros H.
  - by rewrite Ascii.eqb_refl.
  - destruct (Ascii.eqb a c); [done|].
    destruct (strings.Index k c); [done|]. by rewrite IH.
Qed.

Lemma take_append (k s : string) : strings.take (String.length k) (k +:+ s) = k.
Proof.
  induction k as [|a k IH]; simpl.
  - by destruct s.
  - by rewrite IH.
Qed.

Lemma drop_append (k s : string) (c : ascii) :
  strings.drop (String.length k + 1) (k +:+ String c s) = s.
Proof. induction k as [|a k IH]; by simpl. Qed.

Lemma keyValue_colon (n : nat) (k v : string) :
  strings.Index k ":" = None -> strings.TrimLeft k " " = k ->
  keyValue (spaces n +:+ k +:+ ":" +:+ v) = (k, v).
Proof.
  intros Hk Ht. unfold keyValue. rewrite TrimLeft_spaces.
  assert (Htrim : strings.TrimLeft (k +:+ ":" +:+ v) " " = k +:+ ":" +:+ v).
  { destruct k as [|a k]; [done|]. by apply TrimLeft_keeps. }
  rewrite Htrim. change (":" +:+ v) with (String ":" v).
  rewrite Index_append by done. by rewrite take_append, drop_append.
Qed.

Lemma keyValue_plain (n : nat) (k : string) :
  strings.Index k ":" = None -> strings.TrimLeft k " " = k ->
  keyValue (spaces n +:+ k) = (k, EmptyString).
Proof.
  intros Hk Ht. unfold keyValue. rewrite TrimLeft_spaces. by rewrite Ht, Hk.
Qed.

Lemma lookAtTag_empty (sp : spec) : lookAtTag EmptyString sp = (sp, None).
Proof. reflexivity. Qed.

Lemma newSpec_name (d : path) (field : StructField) :
  name (newSpec d field) = strings.ToLower (Name field).
Proof.
  unfold newSpec. by destruct (Lookup (Tag field) "help"), (Lookup (Tag field) "default").
Qed.

(** C9, as the code has it.  [lookAtTag] splits the annotation at the commas
    and takes the keys in order: an empty key is skipped, the first key
    that fails ends the pass with its error.  A key is trimmed of leading
    spaces and cut at its first colon into key and value.  The key [name]
    with a value that is not empty makes the value the slot's name; the key
    [required] marks the slot required when the slot has no explicit
    [default] annotation, and is refused with [ErrorRequiredWithDefault]
    when it has one; every other key, also [name] with an empty value, is
    refused with the error [key-unrecognized tag], and [walker] returns the
    failure with the field in front.  With an empty annotation the slot's
    name is the lower-cased field name. *)
Theorem C9_annotation_keys :
  (forall (tag : string) (sp : spec),
     lookAtTag tag sp = lookAtKeys (strings.Split tag ",") sp) /\
  (forall (keys : list string) (sp : spec),
     lookAtKeys (EmptyString :: keys) sp = lookAtKeys keys sp) /\
  (forall (key : string) (keys : list string) (sp : spec),
     key <> EmptyString ->
     lookAtKeys (key :: keys) sp =
     match lookAtKey key sp with
     | (sp', None) => lookAtKeys keys sp'
     | failed => failed
     end) /\
  (forall (n : nat) (k v : string),
     strings.Index k ":" = None -> strings.TrimLeft k " " = k ->
     keyValue (spaces n +:+ k +:+ ":" +:+ v) = (k, v) /\
     keyValue (spaces n +:+ k) = (k, EmptyString)) /\
  (forall (token value : string) (sp : spec),
     keyValue token = ("name", value) -> value <> EmptyString ->
     lookAtKey token sp = (withName sp value, None)) /\
  (forall (token value : string) (sp : spec),
     keyValue token = ("required", value) ->
     lookAtKey token sp =
     if hasDefault sp then (sp, Some ErrorRequiredWithDefault)
     else (withRequired sp, None)) /\
  (forall (token key value : string) (sp : spec),
     keyValue token = (key, value) ->
     key <> "required" -> (key = "name" -> value = EmptyString) ->
     exists e : error,
       lookAtKey token sp = (sp, Some e) /\
       Is e ErrorUnrecognizedTag = true /\
       Error e = key +:+ "-unrecognized tag" /\
       strings.Contains (Error e) key) /\
  (forall (d : path) (field : StructField) (t : rtype) (sp' : spec) (err : error),
     Get (Tag field) "env" <> "-" ->
     Anonymous field && bool_decide (KindOf (Type_ field) = Struct) = false ->
     lookAtTag (Get (Tag field) "env") (newSpec d field) = (sp', Some err) ->
     walker d field t =
     (None, false,
      Some (Errorf (reflect.NameOf t +:+ "." +:+ Name field +:+ ": " +:+ Error err) err))) /\
  (forall (d : path) (field : StructField) (t : rtype) (sp : spec) (expand : bool),
     walker d field t = (Some sp, expand, None) ->
     Get (Tag field) "env" = EmptyString ->
     name sp = strings.ToLower (Name field)).
Proof.
  split; [done|]. split; [done|]. split.
  { intros key keys sp Hkey. simpl. rewrite bool_decide_eq_false_2 by done.
    by destruct (lookAtKey key sp) as [sp' [e|]]. }
  split.
  { intros n k v Hk Ht. split; [by apply keyValue_colon|by apply keyValue_plain]. }
  split.
  { intros token value sp Hkv Hv. unfold lookAtKey. rewrite Hkv. simpl.
    by rewrite bool_decide_eq_false_2 by done. }
  split.
  { intros token value sp Hkv. unfold lookAtKey. by rewrite Hkv. }
  split.
  { intros token key value sp Hkv Hreq Hname. unfold lookAtKey. rewrite Hkv.
    assert (Hn : bool_decide (key = "name") && negb (bool_decide (value = EmptyString)) = false).
    { case_bool_decide as Hk; [|done]. by rewrite (Hname Hk). }
    rewrite Hn, (bool_decide_eq_false_2 _ Hreq).
    eexists. split; [done|]. split; [apply Is_wrapped|]. split; [done|].
    apply Contains_head. }
  split.
  { intros d field t sp' err Hdash Hanon Htag. unfold walker.
    by rewrite (bool_decide_eq_false_2 _ Hdash), Hanon, Htag. }
  intros d field t sp expand Hw Hempty. unfold walker in Hw.
  rewrite Hempty in Hw. rewrite bool_decide_eq_false_2 in Hw by done.
  destruct (Anonymous field && _); [done|].
  rewrite lookAtTag_empty in Hw.
  destruct (canParse (Type_ field)) as [[parseable b] m].
  destruct parseable; simpl in Hw; [|done].
  destruct (m && _); simplify_eq. simpl. apply newSpec_name.
Qed.

(** C9 fails as stated: on a slot that has an explicit default, the key
    [required] does not mark the slot required, it is refused. *)
Lemma C9_counterexample :
  let field := mkStructField "A" TInt [("env", "required"); ("default", "123")] false [0] in
  lookAtTag "required" (newSpec (mkPath 0 []) field)
    = (newSpec (mkPath 0 []) field, Some ErrorRequiredWithDefault) /\
  required (newSpec (mkPath 0 []) field) = false /\
  NewParser fixtures.methods
    [fixtures.zeroDest [fixtures.field "A" TInt [("env", "required"); ("default", "123")]]]
    = Err (Errorf ".A: 'required' cannot be used when a default value is specified"
                  ErrorRequiredWithDefault).
Proof. by repeat split. Qed.

(** ** Schemas whose slots have destinations of their own *)

(** No two slots of the list write the same place. *)
Fixpoint pairwise_independent (found : list spec) : Prop :=
  match found with
  | [] => True
  | sp :: found' =>
      Forall (fun sp' => independent (dest sp) (dest sp') = true) found' /\
      pairwise_independent found'
  end.

(** A well-formed schema: every destination is one field, reached by an
    index sequence that is not empty, and no two slots share a place. *)
Definition wf_specs (found : list spec) : Prop :=
  Forall (fun sp => steps_ok (fields (dest sp))) found /\ pairwise_independent found.

Lemma pairwise_independent_lookup (found : list spec) (i j : nat) (a b : spec) :
  pairwise_independent found ->
  found !! i = Some a -> found !! j = Some b -> i <> j ->
  independent (dest a) (dest b) = true.
Proof.
  revert i j. induction found as [|sp found IH]; intros i j Hp Hi Hj Hij; [done|].
  destruct Hp as [Hhead Htail]. rewrite Forall_forall in Hhead.
  destruct i as [|i], j as [|j]; simpl in *; simplify_eq.
  - apply Hhead. by eapply list_elem_of_lookup_2.
  - rewrite independent_sym. apply Hhead. by eapply list_elem_of_lookup_2.
  - eapply IH; eauto.
Qed.

Lemma pairwise_independent_app (l1 l2 : list spec) :
  pairwise_independent (l1 ++ l2) <->
  pairwise_independent l1 /\ pairwise_independent l2 /\
  Forall (fun a => Forall (fun b => independent (dest a) (dest b) = true) l2) l1.
Proof.
  induction l1 as [|a l1 IH]; simpl.
  - split; [intros H; by repeat split|tauto].
  - rewrite Forall_app, IH, Forall_cons. tauto.
Qed.

Section Frame.
Variable M : Methods.
Variable E : environ.

Lemma store_other (roots : list value) (d d' : path) (new : option value) :
  independent d d' = true -> val (store roots d new) d' = val roots d'.
Proof. destruct new; simpl; [apply val_setVal_other|done]. Qed.

Lemma parseInto_other (roots roots' : list value) (sp : spec) (s : string)
    (r : result unit) (d : path) :
  parseInto M roots sp s = (roots', r) ->
  independent (dest sp) d = true -> val roots' d = val roots d.
Proof.
  unfold parseInto. intros H Hd.
  destruct (val roots (dest sp)) as [v|]; [|by simplify_eq].
  destruct (scalar.ParseValue M (typ sp) v s) as [v' r']. simplify_eq.
  by apply val_setVal_other.
Qed.

(** The first loop writes the destinations of the slots that are present,
    and nothing else. *)
Lemma captureEnvVars_other (found : list spec) (d : path) :
  (forall sp, sp ∈ found -> is_Some (E !! name sp) -> independent (dest sp) d = true) ->
  forall (i : nat) (wp wp' : gmap nat bool) (roots roots' : list value) (r : result unit),
    captureEnvVars M E i found wp roots = (roots', wp', r) ->
    val roots' d = val roots d.
Proof.
  induction found as [|sp found IH]; intros Hind i wp wp' roots roots' r H; simpl in H.
  - by simplify_eq.
  - assert (Hrest : forall sp', sp' ∈ found -> is_Some (E !! name sp') ->
                                independent (dest sp') d = true).
    { intros sp' Hin. apply Hind. by right. }
    destruct (E !! name sp) as [value|] eqn:Hname; [|by eapply IH].
    assert (Hsp : independent (dest sp) d = true).
    { apply Hind; [by left|]. by rewrite Hname. }
    destruct (if multiple sp then _ else _) as [roots1 r1] eqn:Hstep.
    assert (Hroots1 : val roots1 d = val roots d).
    { destruct (multiple sp).
      - destruct (csv.Read value) as [values|e|]; [|by simplify_eq..].
        destruct (setSlice M (typ sp) (val roots (dest sp)) values) as [new [[]|e|]];
          simplify_eq; by apply store_other.
      - destruct (parseInto M roots sp value) as [roots2 r2] eqn:Hp.
        pose proof (parseInto_other _ _ _ _ _ _ Hp Hsp).
        destruct r2; by simplify_eq. }
    destruct r1 as [[]|e|]; try by simplify_eq.
    rewrite <- Hroots1. by eapply IH.
Qed.

(** The second loop writes the destinations of the slots it converts a
    default for, and nothing else. *)
Lemma fillDefaults_other (found : list spec) (d : path) (wp : gmap nat bool) :
  forall (i : nat),
    (forall k sp, found !! k = Some sp -> default false (wp !! (i + k)) = false ->
                  defaultVal sp <> EmptyString -> independent (dest sp) d = true) ->
    forall (roots roots' : list value) (r : result unit),
      fillDefaults M i found wp roots = (roots', r) ->
      val roots' d = val roots d.
Proof.
  induction found as [|sp found IH]; intros i Hind roots roots' r H; simpl in H.
  - by simplify_eq.
  - assert (Hrest : forall k sp', found !! k = Some sp' ->
              default false (wp !! (S i + k)) = false ->
              defaultVal sp' <> EmptyString -> independent (dest sp') d = true).
    { intros k sp' Hk Hwp. apply (Hind (S k)); [done|].
      by replace (i + S k) with (S i + k) by lia. }
    destruct (default false (wp !! i)) eqn:Hwp; [by eapply IH|].
    destruct (required sp); [by simplify_eq|].
    case_bool_decide as Hdef; simpl in H; [by eapply IH|].
    assert (Hsp : independent (dest sp) d = true).
    { apply (Hind 0); [done| |done]. by rewrite Nat.add_0_r. }
    destruct (parseInto M roots sp (defaultVal sp)) as [roots1 r1] eqn:Hp.
    pose proof (parseInto_other _ _ _ _ _ _ Hp Hsp) as Hroots1.
    destruct r1 as [[]|e|]; try by simplify_eq.
    rewrite <- Hroots1. by eapply IH.
Qed.

End Frame.

(** ** A pass with a key gone *)

(** In a well-formed schema, a pass against an environment that does not
    have a slot's key leaves the slot's destination as it was, however the
    pass ends, when the slot has no default literal. *)
Lemma process_absent_keeps
    (M : Methods) (E : environ) (p : Parser) (roots roots' : list value)
    (r : result unit) (i : nat) (sp : spec) :
  wf_specs (specs p) ->
  specs p !! i = Some sp ->
  E !! name sp = None ->
  defaultVal sp = EmptyString ->
  process M p E roots = (roots', r) ->
  val roots' (dest sp) = val roots (dest sp).
Proof.
  intros [_ Hwf] Hi Habsent Hdef H. unfold process in H.
  destruct (captureEnvVars M E 0 (specs p) ∅ roots) as [[roots1 wp] r1] eqn:Hc.
  assert (H1 : val roots1 (dest sp) = val roots (dest sp)).
  { eapply captureEnvVars_other; [|done].
    intros sp' Hin Hpresent. apply list_elem_of_lookup in Hin as [j Hj].
    eapply pairwise_independent_lookup; [done..|].
    intros ->. rewrite Hi in Hj. simplify_eq. rewrite Habsent in Hpresent.
    by destruct Hpresent. }
  destruct r1 as [[]|e|]; [|by simplify_eq..].
  rewrite <- H1. eapply fillDefaults_other; [|done].
  intros k sp' Hk _ Hdef'. eapply pairwise_independent_lookup; [done..|].
  intros ->. rewrite Hi in Hk. by simplify_eq.
Qed.

(** ** Exported fields

    [reflect] refuses to set a field, and to hand it out as an interface
    value, when the field or an embedded struct on the way to it is not
    exported ([CanSet] is false, [Interface] panics).  The model of
    [reflect] has no such flag: it is the model of structs whose fields
    are all exported.  A property that depends on it says so with
    [exported_fields].  A name is exported when its first character is an
    upper-case letter; the letters A to Z are the ones looked for here. *)
Definition exported (n : string) : bool :=
  match n with
  | String a _ => (65 <=? nat_of_ascii a) && (nat_of_ascii a <=? 90)
  | EmptyString => false
  end.

Fixpoint exported_fields (t : rtype) : bool :=
  match t with
  | TPtr e => exported_fields e
  | TNamed _ u _ _ => exported_fields u
  | TStruct fs =>
      (fix all (fs : list (decl rtype)) : bool :=
         match fs with
         | [] => true
         | d :: fs' =>
             exported (decl_Name d) &&
             (if decl_Anonymous d then exported_fields (decl_Type d) else true) &&
             all fs'
         end) fs
  | _ => true
  end.

(** The second loop of a pass gets to slot number [i]: the first loop
    returned no error, and neither did the second loop for the slots before
    slot [i]. *)
Definition reaches (M : Methods) (p : Parser) (E : environ) (roots : list value)
    (i : nat) : bool :=
  match captureEnvVars M E 0 (specs p) ∅ roots with
  | (roots1, wasPresent, Ok _) =>
      match fillDefaults M 0 (take i (specs p)) wasPresent roots1 with
      | (_, Ok _) => true
      | _ => false
      end
  | _ => false
  end.

(** The pass applies the default of a slot: the second loop gets to the
    slot, the slot is not required and its default literal is not empty. *)
Definition appliesDefault (M : Methods) (p : Parser) (E : environ) (roots : list value)
    (i : nat) (sp : spec) : bool :=
  reaches M p E roots i && negb (required sp) &&
  negb (bool_decide (defaultVal sp = EmptyString)).

(** In a well-formed schema, what a slot's destination holds after a pass
    against an environment that does not have the slot's key. *)
Lemma process_absent_slot
    (M : Methods) (E : environ) (p : Parser) (roots roots' : list value)
    (r : result unit) (i : nat) (sp : spec) :
  wf_specs (specs p) ->
  specs p !! i = Some sp ->
  E !! name sp = None ->
  process M p E roots = (roots', r) ->
  val roots' (dest sp) =
  if appliesDefault M p E roots i sp
  then (fun v => (scalar.ParseValue M (typ sp) v (defaultVal sp)).1) <$> val roots (dest sp)
  else val roots (dest sp).
Proof.
  intros [Hsteps Hwf] Hi Habsent H. unfold process in H.
  unfold appliesDefault, reaches.
  destruct (captureEnvVars M E 0 (specs p) ∅ roots) as [[rootsC wp] rC] eqn:Hc.
  assert (HvalC : val rootsC (dest sp) = val roots (dest sp)).
  { eapply captureEnvVars_other; [|done].
    intros sp' Hin Hpresent. apply list_elem_of_lookup in Hin as [j Hj].
    eapply pairwise_independent_lookup; [done..|].
    intros ->. rewrite Hi in Hj. simplify_eq. rewrite Habsent in Hpresent.
    by destruct Hpresent. }
  destruct rC as [[]|e|]; [|by simplify_eq..].
  assert (Hwp : default false (wp !! i) = false).
  { change i with (0 + i). erewrite captureEnvVars_at by done. by rewrite Habsent. }
  assert (Hok : steps_ok (fields (dest sp))).
  { rewrite Forall_forall in Hsteps. apply Hsteps. by eapply list_elem_of_lookup_2. }
  assert (Hlen : length (take i (specs p)) = i).
  { apply length_take_le. apply lookup_lt_Some in Hi. lia. }
  rewrite <- (take_drop_middle _ _ _ Hi) in H at 1.
  rewrite <- (take_drop_middle _ _ _ Hi) in Hwf.
  apply pairwise_independent_app in Hwf as (_ & [Hhead _] & Hbefore).
  rewrite fillDefaults_app in H.
  destruct (fillDefaults M 0 (take i (specs p)) wp rootsC) as [rootsD rD] eqn:Hpre.
  assert (HvalD : val rootsD (dest sp) = val roots (dest sp)).
  { rewrite <- HvalC. eapply fillDefaults_other; [|done].
    intros k sp' Hk _ _. rewrite Forall_forall in Hbefore.
    specialize (Hbefore sp' (list_elem_of_lookup_2 _ _ _ Hk)).
    by apply Forall_cons in Hbefore as [? _]. }
  assert (Hrest : forall rootsX rootsY rY,
            fillDefaults M (S i) (drop (S i) (specs p)) wp rootsX = (rootsY, rY) ->
            val rootsY (dest sp) = val rootsX (dest sp)).
  { intros rootsX rootsY rY HX. eapply fillDefaults_other; [|done].
    intros k sp' Hk _ _. rewrite Forall_forall in Hhead. rewrite independent_sym.
    apply Hhead. by eapply list_elem_of_lookup_2. }
  destruct rD as [[]|e|]; [|by simplify_eq..].
  rewrite Hlen in H. simpl in H. rewrite Hwp in H.
  destruct (required sp); [by simplify_eq|].
  destruct (bool_decide (defaultVal sp = EmptyString)); simpl in *.
  { rewrite <- HvalD. by eapply Hrest. }
  unfold parseInto in H. rewrite <- HvalD.
  destruct (val rootsD (dest sp)) as [v|] eqn:Hv; [|by simplify_eq].
  destruct (scalar.ParseValue M (typ sp) v (defaultVal sp)) as [v' rP] eqn:Hparse.
  simpl. rewrite Hparse. simpl.
  assert (Hset : val (setVal rootsD (dest sp) v') (dest sp) = Some v').
  { by eapply val_setVal_same. }
  destruct rP as [[]|e|]; [|by injection H as <- _..].
  rewrite <- Hset. by eapply Hrest.
Qed.


(** ** A multi-value slot takes the whole slice *)

(** A record that [Read] returns has at least one field. *)
Lemma csv_fields_nonempty (next : string -> list string -> result (list string)) :
  (forall f fs r, next f fs = Ok r -> r <> []) ->
  forall (n : nat) (line field : string) (fields r : list string),
    String.length line <= n ->
    (csv.unquoted next line field fields = Ok r -> r <> []) /\
    (csv.quoted next line field fields = Ok r -> r <> []).
Proof.
  intros Hnext n. induction n as [|n IH]; intros line field fields r Hlen.
  - destruct line; simpl in *; [|lia]. split; [|by apply Hnext].
    intros ?; simplify_eq. by destruct fields.
  - destruct line as [|a line]; simpl in *.
    { split; [|by apply Hnext]. intros ?; simplify_eq. by destruct fields. }
    assert (Hl : String.length line <= n) by lia.
    assert (Hsnoc : forall (l : list string) (x : string), Ok (l ++ [x]) = Ok r -> r <> []).
    { intros l x ?; simplify_eq. by destruct l. }
    split.
    + destruct (Ascii.eqb a csv.comma).
      { destruct line as [|b line']; [apply Hsnoc|].
        destruct (Ascii.eqb b csv.quote).
        - apply IH. simpl in Hl. lia.
        - by apply IH. }
      destruct (Ascii.eqb a csv.quote); [done|].
      destruct (Ascii.eqb a csv.LF); [apply Hsnoc|]. by apply IH.
    + destruct (Ascii.eqb a csv.quote); [|by apply IH].
      destruct line as [|b line']; [apply Hsnoc|]. simpl in Hl.
      destruct (Ascii.eqb b csv.quote); [apply IH; lia|].
      destruct (Ascii.eqb b csv.comma).
      { destruct line' as [|c line'']; [apply Hsnoc|]. simpl in Hl.
        destruct (Ascii.eqb c csv.quote); apply IH; simpl; lia. }
      destruct (Ascii.eqb b csv.LF); [apply Hsnoc|done].
Qed.

Lemma csv_Read_nonempty (s : string) (values : list string) :
  csv.Read s = Ok values -> values <> [].
Proof.
  unfold csv.Read, csv.readRecord.
  destruct (csv.skipBlank (csv.lines s)) as [|l ls]; [done|].
  assert (Hnext : forall ls f fs r, csv.continueQuoted ls f fs = Ok r -> r <> []).
  { clear. induction ls as [|l ls IH]; intros f fs r; simpl; [done|].
    by apply (csv_fields_nonempty _ (IH) (String.length l) l f fs r). }
  unfold csv.startField.
  destruct l as [|b l'].
  - by apply (csv_fields_nonempty _ (Hnext ls) 0 _ _ _ values).
  - destruct (Ascii.eqb b csv.quote).
    + by apply (csv_fields_nonempty _ (Hnext ls) (String.length l') l').
    + by apply (csv_fields_nonempty _ (Hnext ls) (String.length (String b l'))).
Qed.

Section Slices.
Variable M : Methods.

(** The element type that [setSlice] parses into, and whether it appends
    the pointer to the element. *)
Definition elemOf (t : rtype) : rtype * bool :=
  match Elem t with
  | None => (t, false)
  | Some elem =>
      let ptr := bool_decide (KindOf elem = Ptr) && negb (ImplementsUnmarshaler elem) in
      (if ptr then default elem (Elem elem) else elem, ptr)
  end.

(** One value of the record converted into a new element of the slice. *)
Definition convertElem (t : rtype) (s : string) : value * result unit :=
  let '(elem, ptr) := elemOf t in
  match scalar.ParseValue M elem (Zero elem) s with
  | (e, r) => (if ptr then VPtr (Some e) else e, r)
  end.

Lemma appendValues_converted (t : rtype) (values : list string) :
  forall (d d' : value),
    appendValues M (elemOf t).1 (elemOf t).2 d values = (d', Ok tt) ->
    values <> [] ->
    (d = VSlice None \/ exists l, d = VSlice (Some l)) /\
    exists elems,
      Forall2 (fun s e => convertElem t s = (e, Ok tt)) values elems /\
      d' = VSlice (Some (default [] (match d with VSlice o => o | _ => None end) ++ elems)).
Proof.
  unfold convertElem. destruct (elemOf t) as [elem ptr]. simpl.
  induction values as [|s values IH]; intros d d' H Hne; [done|]. simpl in H.
  destruct (scalar.ParseValue M elem (Zero elem) s) as [e [[]|err|]] eqn:Hs; try done.
  destruct (Append d _) as [d1|] eqn:Hd1; [|done].
  assert (Hd : (d = VSlice None \/ exists l, d = VSlice (Some l)) /\
               d1 = VSlice (Some (default [] (match d with VSlice o => o | _ => None end)
                                  ++ [if ptr then VPtr (Some e) else e]))).
  { unfold Append in Hd1. destruct d as [| | | | |[l|]|]; simplify_eq; eauto. }
  destruct Hd as [Hd ->]. split; [done|].
  destruct values as [|s' values].
  - simpl in H. simplify_eq. eexists [_]. split; [|done].
    constructor; [|constructor]. by rewrite Hs.
  - destruct (IH _ _ H) as (_ & elems & Hall & ->); [done|].
    eexists (_ :: elems). split.
    + constructor; [by rewrite Hs|done].
    + simpl. by rewrite <- app_assoc.
Qed.

(** [setSlice] that returns no error leaves a slice that holds the
    converted values of the record, in order, and nothing else. *)
Lemma setSlice_replaces (t : rtype) (old : option value) (values : list string)
    (new : option value) :
  setSlice M t old values = (new, Ok tt) ->
  values <> [] ->
  is_Some old /\
  exists elems,
    Forall2 (fun s e => convertElem t s = (e, Ok tt)) values elems /\
    new = Some (VSlice (Some elems)).
Proof.
  unfold setSlice. intros H Hne. destruct old as [d|]; [|done]. split; [done|].
  pose proof (appendValues_converted t values) as Happ. unfold elemOf in Happ.
  destruct (Elem t) as [elem|]; [|done]. simpl in *.
  destruct (if IsNil d then _ else _) as [d0|] eqn:Hd0; [|done].
  destruct (appendValues M _ _ d0 values) as [d' r] eqn:Hd'. simplify_eq.
  destruct (Happ _ _ Hd' Hne) as (Hshape & elems & Hall & ->).
  exists elems. split; [done|]. do 3 f_equal.
  assert (Hempty : default [] (match d0 with VSlice o => o | _ => None end) = []).
  { destruct (IsNil d) eqn:Hnil.
    - simplify_eq. by destruct d0 as [| | | |[]|[]|].
    - destruct d as [| | | | |[l|]|]; by simplify_eq. }
  by rewrite Hempty.
Qed.

End Slices.

Section Binding.
Variable M : Methods.
Variable E : environ.

Lemma captureEnvVars_app (pre rest : list spec) :
  forall (i : nat) (wp : gmap nat bool) (roots : list value),
    captureEnvVars M E i (pre ++ rest) wp roots =
    match captureEnvVars M E i pre wp roots with
    | (roots', wp', Ok _) => captureEnvVars M E (i + length pre) rest wp' roots'
    | other => other
    end.
Proof.
  induction pre as [|sp pre IH]; intros i wp roots; simpl.
  - by rewrite Nat.add_0_r.
  - replace (i + S (length pre)) with (S i + length pre) by lia.
    destruct (E !! name sp) as [value|]; [|apply IH].
    destruct (if multiple sp then _ else _) as [roots1 [[]|e|]]; [apply IH|done..].
Qed.

(** The value of a multi-value slot converts: the first loop gets to the
    slot (the slots before it returned no error), the CSV reader returns a
    record for the value, and [setSlice] returns no error for the record. *)
Definition converts (p : Parser) (roots : list value) (i : nat) (sp : spec)
    (raw : string) (before : list value) (values : list string) (new : option value)
  : Prop :=
  (exists wp, captureEnvVars M E 0 (take i (specs p)) ∅ roots = (before, wp, Ok tt)) /\
  csv.Read raw = Ok values /\
  setSlice M (typ sp) (val before (dest sp)) values = (new, Ok tt).

(** The store after a pass, at the destination of a multi-value slot whose
    value converted: what the slot's own step wrote, however the pass ended
    after it. *)
Lemma process_multiple_slot (p : Parser) (roots roots' : list value) (r : result unit)
    (i : nat) (sp : spec) (raw : string) (before : list value) (values : list string)
    (new : option value) :
  wf_specs (specs p) ->
  specs p !! i = Some sp ->
  multiple sp = true ->
  E !! name sp = Some raw ->
  converts p roots i sp raw before values new ->
  process M p E roots = (roots', r) ->
  val roots' (dest sp) = val (store before (dest sp) new) (dest sp).
Proof.
  intros [Hsteps Hwf] Hi Hmul Hraw ([wpA HA] & Hread & Hset) H. unfold process in H.
  destruct (captureEnvVars M E 0 (specs p) ∅ roots) as [[rootsC wp] rC] eqn:Hc.
  assert (HC : val rootsC (dest sp) = val (store before (dest sp) new) (dest sp)).
  { rewrite <- (take_drop_middle _ _ _ Hi) in Hc, Hwf.
    rewrite captureEnvVars_app, HA in Hc. simpl in Hc.
    rewrite Hraw, Hmul, Hread, Hset in Hc.
    eapply captureEnvVars_other; [|done].
    intros sp' Hin _. apply pairwise_independent_app in Hwf as (_ & [Hhead _] & _).
    rewrite Forall_forall in Hhead. rewrite independent_sym. by apply Hhead. }
  rewrite <- HC. destruct rC as [[]|e|]; [|by simplify_eq..].
  assert (Hwp : default false (wp !! i) = true).
  { change i with (0 + i). erewrite captureEnvVars_at by done. by rewrite Hraw. }
  eapply fillDefaults_other; [|done].
  intros k sp' Hk Hwpk _. eapply pairwise_independent_lookup; [done..|].
  intros ->. simpl in Hwpk. congruence.
Qed.

(** In a pass that returned no error the value of every multi-value slot
    that is present converted. *)
Lemma process_converts (p : Parser) (roots roots' : list value) (i : nat)
    (sp : spec) (raw : string) :
  specs p !! i = Some sp ->
  multiple sp = true ->
  E !! name sp = Some raw ->
  process M p E roots = (roots', Ok tt) ->
  exists before values new, converts p roots i sp raw before values new.
Proof.
  intros Hi Hmul Hraw H. unfold process in H.
  destruct (captureEnvVars M E 0 (specs p) ∅ roots) as [[rootsC wp] [[]|e|]] eqn:Hc;
    [|by simplify_eq..].
  rewrite <- (take_drop_middle _ _ _ Hi) in Hc.
  rewrite captureEnvVars_app in Hc.
  destruct (captureEnvVars M E 0 (take i (specs p)) ∅ roots)
    as [[rootsA wpA] [[]|e|]] eqn:HA; [|by simplify_eq..].
  simpl in Hc. rewrite Hraw, Hmul in Hc.
  destruct (csv.Read raw) as [values|e|] eqn:Hread; [|by simplify_eq..].
  destruct (setSlice M (typ sp) (val rootsA (dest sp)) values) as [new [[]|e|]] eqn:Hset;
    [|by simplify_eq..].
  exists rootsA, values, new. split; [by exists wpA|]. by split.
Qed.

End Binding.

(** In a well-formed schema, after a pass the destination of a multi-value
    slot whose value converted holds the converted values of the record,
    and nothing else. *)
Lemma process_multi_value_replaces
    (M : Methods) (E : environ) (p : Parser) (roots roots' : list value)
    (r : result unit) (i : nat) (sp : spec) (raw : string)
    (before : list value) (values : list string) (new : option value) :
  wf_specs (specs p) ->
  specs p !! i = Some sp ->
  multiple sp = true ->
  E !! name sp = Some raw ->
  converts M E p roots i sp raw before values new ->
  process M p E roots = (roots', r) ->
  exists elems : list value,
    Forall2 (fun s e => convertElem M (typ sp) s = (e, Ok tt)) values elems /\
    val roots' (dest sp) = Some (VSlice (Some elems)).
Proof.
  intros Hwf Hi Hmul Hraw Hconv H.
  pose proof (process_multiple_slot M E p roots roots' r i sp raw _ _ _
                Hwf Hi Hmul Hraw Hconv H) as Hval.
  destruct Hconv as (_ & Hread & Hset).
  destruct (setSlice_replaces M _ _ _ _ Hset (csv_Read_nonempty _ _ Hread))
    as ([old Hold] & elems & Hall & ->).
  exists elems. split; [done|].
  rewrite Hval. simpl. eapply val_setVal_same; [|done].
  destruct Hwf as [Hsteps _]. rewrite Forall_forall in Hsteps.
  apply Hsteps. by eapply list_elem_of_lookup_2.
Qed.

(** ** Binding twice *)

(** A decoder is idempotent when decoding the same text again, into what
    the first call left, gives what the first call gave. *)
Definition idempotent_decoders (M : Methods) : Prop :=
  forall (type : string) (v : value) (s : string),
    UnmarshalText M type (UnmarshalText M type v s).1 s = UnmarshalText M type v s.

Section Twice.
Variable M : Methods.
Variable E : environ.
Hypothesis Hidem : idempotent_decoders M.

Lemma parseKind_twice (t : rtype) (v : value) (s : string) :
  scalar.parseKind t (scalar.parseKind t v s).1 s = scalar.parseKind t v s.
Proof.
  unfold scalar.parseKind. destruct (KindOf t); try done.
  - by destruct (strconv.ParseBool s).
  - by destruct (strconv.ParseInt s).
Qed.

Lemma ParseValue_twice (t : rtype) (v : value) (s : string) :
  scalar.ParseValue M t (scalar.ParseValue M t v s).1 s = scalar.ParseValue M t v s.
Proof.
  unfold scalar.ParseValue. case_bool_decide.
  - set (e := default t (Elem t)).
    set (r0 := match v with VPtr (Some r) => r | _ => Zero e end).
    destruct (ImplementsUnmarshaler t).
    + pose proof (Hidem (scalar.decoderOf e) r0 s) as Hi.
      destruct (UnmarshalText M (scalar.decoderOf e) r0 s) as [r' err] eqn:Hr.
      simpl in *. by rewrite Hi.
    + pose proof (parseKind_twice e r0 s) as Hi.
      destruct (scalar.parseKind e r0 s) as [r' res] eqn:Hr.
      simpl in *. by rewrite Hi.
  - destruct (ImplementsUnmarshaler (TPtr t)).
    + pose proof (Hidem (scalar.decoderOf t) v s) as Hi.
      destruct (UnmarshalText M (scalar.decoderOf t) v s) as [v' err] eqn:Hr.
      simpl in *. by rewrite Hi.
    + apply parseKind_twice.
Qed.

(** A step done again on a store that already has what the step wrote
    changes nothing and returns the same. *)
Lemma parseInto_settled (roots roots1 S : list value) (sp : spec) (s : string)
    (r : result unit) :
  steps_ok (fields (dest sp)) ->
  parseInto M roots sp s = (roots1, r) ->
  val S (dest sp) = val roots1 (dest sp) ->
  parseInto M S sp s = (S, r).
Proof.
  unfold parseInto. intros Hok H HS.
  destruct (val roots (dest sp)) as [v|] eqn:Hv.
  - pose proof (ParseValue_twice (typ sp) v s) as Htw.
    destruct (scalar.ParseValue M (typ sp) v s) as [v' r'] eqn:Hp. simplify_eq.
    rewrite (val_setVal_same _ _ _ v' Hok Hv) in HS. rewrite HS.
    simpl in Htw. rewrite Htw. by rewrite (setVal_same _ _ _ HS).
  - simplify_eq. by rewrite HS, Hv.
Qed.

Lemma captureEnvVars_settled (found : list spec) :
  Forall (fun sp => steps_ok (fields (dest sp))) found ->
  pairwise_independent found ->
  Forall (fun sp => multiple sp = false) found ->
  forall (i : nat) (wp wp1 : gmap nat bool) (roots roots1 : list value) (r : result unit),
    captureEnvVars M E i found wp roots = (roots1, wp1, r) ->
    forall S : list value,
      (forall sp, sp ∈ found -> is_Some (E !! name sp) ->
                  val S (dest sp) = val roots1 (dest sp)) ->
      captureEnvVars M E i found wp S = (S, wp1, r).
Proof.
  induction found as [|sp found IH];
    intros Hsteps Hwf Hscalar i wp wp1 roots roots1 r H S HS; simpl in *.
  - by simplify_eq.
  - apply Forall_cons in Hsteps as [Hok Hsteps].
    apply Forall_cons in Hscalar as [Hsp Hscalar].
    destruct Hwf as [Hhead Hwf].
    assert (HSrest : forall sp', sp' ∈ found -> is_Some (E !! name sp') ->
                                 val S (dest sp') = val roots1 (dest sp')).
    { intros sp' Hin. apply HS. by right. }
    destruct (E !! name sp) as [raw|] eqn:Hraw; [|by eapply IH].
    rewrite Hsp in *.
    destruct (parseInto M roots sp raw) as [rootsA rA] eqn:Hp.
    assert (HA : val S (dest sp) = val rootsA (dest sp)).
    { rewrite HS; [|by left|by rewrite Hraw].
      destruct rA as [[]|e|]; [|by simplify_eq..].
      eapply captureEnvVars_other; [|done].
      intros sp' Hin _. rewrite Forall_forall in Hhead.
      rewrite independent_sym. by apply Hhead. }
    rewrite (parseInto_settled _ _ _ _ _ _ Hok Hp HA).
    destruct rA as [[]|e|]; [by eapply IH|by simplify_eq..].
Qed.

Lemma fillDefaults_settled (found : list spec) (wp : gmap nat bool) :
  Forall (fun sp => steps_ok (fields (dest sp))) found ->
  pairwise_independent found ->
  forall (i : nat) (roots roots1 : list value) (r : result unit),
    fillDefaults M i found wp roots = (roots1, r) ->
    forall S : list value,
      (forall sp, sp ∈ found -> val S (dest sp) = val roots1 (dest sp)) ->
      fillDefaults M i found wp S = (S, r).
Proof.
  induction found as [|sp found IH];
    intros Hsteps Hwf i roots roots1 r H S HS; simpl in *.
  - by simplify_eq.
  - apply Forall_cons in Hsteps as [Hok Hsteps]. destruct Hwf as [Hhead Hwf].
    assert (HSrest : forall sp', sp' ∈ found -> val S (dest sp') = val roots1 (dest sp')).
    { intros sp' Hin. apply HS. by right. }
    destruct (default false (wp !! i)); [by eapply IH|].
    destruct (required sp); [by simplify_eq|].
    destruct (negb _); [|by eapply IH].
    destruct (parseInto M roots sp (defaultVal sp)) as [rootsA rA] eqn:Hp.
    assert (HA : val S (dest sp) = val rootsA (dest sp)).
    { rewrite HS by (by left).
      destruct rA as [[]|e|]; [|by simplify_eq..].
      eapply fillDefaults_other; [|done].
      intros k sp' Hk _ _. rewrite Forall_forall in Hhead.
      rewrite independent_sym. apply Hhead. by eapply list_elem_of_lookup_2. }
    rewrite (parseInto_settled _ _ _ _ _ _ Hok Hp HA).
    destruct rA as [[]|e|]; [by eapply IH|by simplify_eq..].
Qed.

End Twice.

(** For a well-formed schema without multi-value slots and with idempotent
    decoders, a second pass with the same environment changes nothing. *)
Lemma process_twice
    (M : Methods) (E : environ) (p : Parser) (roots roots1 : list value)
    (r : result unit) :
  idempotent_decoders M ->
  wf_specs (specs p) ->
  Forall (fun sp => multiple sp = false) (specs p) ->
  process M p E roots = (roots1, r) ->
  process M p E roots1 = (roots1, r).
Proof.
  intros Hidem [Hsteps Hwf] Hscalar H. unfold process in *.
  destruct (captureEnvVars M E 0 (specs p) ∅ roots) as [[rootsC wp] rC] eqn:Hc.
  assert (Hkeep : forall sp, sp ∈ specs p -> is_Some (E !! name sp) ->
                             val roots1 (dest sp) = val rootsC (dest sp)).
  { intros sp Hin Hpresent.
    destruct rC as [[]|e|]; [|by simplify_eq..].
    apply list_elem_of_lookup in Hin as [j Hj].
    eapply fillDefaults_other; [|done].
    intros k sp' Hk Hwpk _. eapply pairwise_independent_lookup; [done..|].
    intros ->. rewrite Hj in Hk. injection Hk as <-.
    erewrite captureEnvVars_at in Hwpk by done.
    destruct Hpresent as [raw Hraw]. by rewrite Hraw in Hwpk. }
  rewrite (captureEnvVars_settled M E Hidem _ Hsteps Hwf Hscalar _ _ _ _ _ _ Hc _ Hkeep).
  destruct rC as [[]|e|]; [|by simplify_eq..].
  by eapply fillDefaults_settled.
Qed.


(** ** Constructed schemas are well-formed *)

(** The slot is the field of root [r0] whose index sequence goes through
    [pre] and then through field [j]. *)
Definition at_field (r0 : nat) (pre : list nat) (j : nat) (sp : spec) : Prop :=
  exists (f : StructField) (rest : list nat),
    dest sp = mkPath r0 [f] /\ Index f = pre ++ j :: rest.

Definition at_or_after (r0 : nat) (pre : list nat) (lo : nat) (sp : spec) : Prop :=
  exists j : nat, lo <= j /\ at_field r0 pre j sp.

Lemma diverge_after_prefix (pre r1 r2 : list nat) (i j : nat) :
  i <> j -> diverge (pre ++ i :: r1) (pre ++ j :: r2) = true.
Proof.
  intros Hij. induction pre as [|k pre IH]; simpl.
  - by rewrite bool_decide_eq_false_2.
  - by rewrite bool_decide_eq_true_2.
Qed.

Lemma at_field_independent (r0 : nat) (pre : list nat) (i j : nat) (a b : spec) :
  at_field r0 pre i a -> at_field r0 pre j b -> i <> j ->
  independent (dest a) (dest b) = true.
Proof.
  intros (f & r1 & -> & Hf) (g & r2 & -> & Hg) Hij. unfold independent. simpl.
  rewrite Hf, Hg. rewrite diverge_after_prefix by done. apply orb_true_r.
Qed.

Lemma at_field_deeper (r0 : nat) (pre : list nat) (i lo : nat) (sp : spec) :
  at_or_after r0 (pre ++ [i]) lo sp -> at_field r0 pre i sp.
Proof.
  intros (j & _ & f & rest & Hd & Hf). exists f, (j :: rest). split; [done|].
  by rewrite Hf, <- app_assoc.
Qed.

Lemma at_or_after_steps_ok (r0 : nat) (pre : list nat) (lo : nat) (sp : spec) :
  at_or_after r0 pre lo sp -> steps_ok (fields (dest sp)) /\ root (dest sp) = r0.
Proof.
  intros (j & _ & f & rest & -> & Hf). split; [|done].
  apply Forall_singleton. rewrite Hf. by destruct pre.
Qed.

(** What [walker] gives as the visitor of [specsFromStruct]. *)
Lemma walker_visit (d : path) (field : StructField) (t : rtype)
    (found : option spec) (expand : bool) :
  walker d field t = (found, expand, None) ->
  (expand = true -> found = None /\ Anonymous field = true) /\
  (forall sp, found = Some sp -> expand = false /\ dest sp = Child d field).
Proof.
  intros H. split.
  - intros ->. unfold walker in H. case_bool_decide; [done|].
    destruct (Anonymous field) eqn:Ha; simpl in H.
    + case_bool_decide; [by simplify_eq|]. repeat case_match; by simplify_eq.
    + repeat case_match; by simplify_eq.
  - intros sp ->. by apply walker_spec in H as (? & ? & _).
Qed.

Lemma walkFieldsImpl_wf (r0 : nat) (t : rtype) :
  forall (owner : rtype) (path : list nat) (acc acc' : list spec),
    walkFieldsImpl
      (fun found field t =>
         let '(sp, expand, err) := walker (mkPath r0 []) field t in
         (found ++ option_list sp, expand, err))
      owner t path acc = (acc', Ok tt) ->
    exists new : list spec,
      acc' = acc ++ new /\ Forall (at_or_after r0 path 0) new /\ pairwise_independent new.
Proof.
  induction t as [| | | |e IH|e IH|fs IH|n u a b IH] using rtype_fields_ind;
    intros owner path acc acc' H; simpl in H; try done; [|by eapply IH].
  revert acc H. generalize 0 as i.
  induction IH as [|d fs Hd _ IHfs]; intros i acc H.
  { simplify_eq. exists []. by rewrite app_nil_r. }
  set (field := mkStructField (decl_Name d) (decl_Type d) (decl_Tag d)
                              (decl_Anonymous d) (path ++ [i])) in *.
  destruct (walker (mkPath r0 []) field owner) as [[found expand] [err|]] eqn:Hw;
    [by destruct expand|].
  apply walker_visit in Hw as [Hexp Hsp].
  assert (Hlater : forall a b, at_field r0 path i a -> at_or_after r0 path (S i) b ->
                               independent (dest a) (dest b) = true).
  { intros a b Ha (j & Hj & Hb). eapply at_field_independent; [done..|lia]. }
  assert (Hweak : forall l, Forall (at_or_after r0 path (S i)) l ->
                            Forall (at_or_after r0 path i) l).
  { intros l Hl. eapply Forall_impl; [done|].
    intros sp (j & Hj & Hat). exists j. split; [lia|done]. }
  destruct expand.
  - destruct (Hexp eq_refl) as [-> Hanon]. simpl in H. rewrite app_nil_r in H.
    subst field. simpl in Hanon. rewrite Hanon in H.
    destruct (walkFieldsImpl _ (decl_Type d) (decl_Type d) (path ++ [i]) acc)
      as [acc1 [[]|e|]] eqn:Hrec; try done.
    destruct (Hd _ _ _ _ Hrec) as (new1 & -> & Hat1 & Hp1).
    destruct (IHfs _ _ H) as (new2 & -> & Hat2 & Hp2).
    exists (new1 ++ new2). split; [by rewrite app_assoc|]. split.
    + apply Forall_app. split; [|by apply Hweak].
      eapply Forall_impl; [done|]. intros sp Hsp1. exists i. split; [lia|].
      by eapply at_field_deeper.
    + apply pairwise_independent_app. split; [done|]. split; [done|].
      eapply Forall_impl; [done|]. intros a Ha. simpl.
      eapply Forall_impl; [done|]. intros b Hb. simpl.
      apply Hlater; [|done]. by eapply at_field_deeper.
  - destruct (IHfs _ _ H) as (new2 & -> & Hat2 & Hp2).
    destruct found as [sp|]; simpl.
    + destruct (Hsp sp eq_refl) as [_ Hdest].
      assert (Hat : at_field r0 path i sp).
      { exists field, []. by split. }
      exists (sp :: new2). split; [by rewrite <- app_assoc|]. split.
      * constructor; [|by apply Hweak]. exists i. split; [lia|done].
      * split; [|done]. eapply Forall_impl; [done|]. intros b Hb. simpl. by apply Hlater.
    + exists new2. rewrite app_nil_r. split; [done|]. split; [by apply Hweak|done].
Qed.

Lemma specsFromStruct_wf (r0 : nat) (t : rtype) (found : list spec) :
  specsFromStruct (mkPath r0 []) t = (found, Ok tt) ->
  Forall (at_or_after r0 [] 0) found /\ pairwise_independent found.
Proof.
  unfold specsFromStruct, walkFields.
  destruct (negb (bool_decide (KindOf t = Ptr))); [done|].
  destruct (negb (bool_decide (KindOf (default t (Elem t)) = Struct))); [done|].
  intros H. apply walkFieldsImpl_wf in H as (new & -> & Hat & Hp). by simpl.
Qed.

(** Slots with the destinations of a well-formed list are well-formed. *)
Lemma pairwise_independent_dests (l l' : list spec) :
  Forall2 (fun a b => dest b = dest a) l l' ->
  pairwise_independent l -> pairwise_independent l'.
Proof.
  induction 1 as [|a b l l' Hab Hl IH]; simpl; [done|].
  intros [Hhead Htail]. split; [|by apply IH].
  clear IH Htail. induction Hl as [|a' b' l l' Hab' _ IH']; [constructor|].
  apply Forall_cons in Hhead as [Hh Hhead]. constructor; [|by apply IH'].
  by rewrite Hab, Hab'.
Qed.

Lemma newSpecs_wf (M : Methods) (roots : list value) (dests : list (rtype * value)) :
  forall (i : nat) (acc found : list spec),
    newSpecs M roots i dests acc = Ok found ->
    Forall (fun sp => steps_ok (fields (dest sp)) /\ root (dest sp) < i) acc ->
    pairwise_independent acc ->
    wf_specs found.
Proof.
  induction dests as [|[t v] dests IH]; intros i acc found H Hacc Hp; simpl in H.
  - simplify_eq. split; [|done]. eapply Forall_impl; [done|]. by intros sp [? _].
  - destruct (specsFromStruct (mkPath i []) t) as [fs [[]|e|]] eqn:Hfs; try done.
    destruct (addDefaults M roots fs) as [fs'|e|] eqn:Hfs'; try done.
    apply specsFromStruct_wf in Hfs as [Hat Hpfs].
    apply addDefaults_spec in Hfs'.
    assert (Hdests : Forall2 (fun a b => dest b = dest a) fs fs').
    { eapply Forall2_impl; [done|]. intros a b Hab. by apply addDefault_spec in Hab as [? _]. }
    assert (Hat' : Forall (fun sp => steps_ok (fields (dest sp)) /\ root (dest sp) = i) fs').
    { clear -Hat Hdests. induction Hdests as [|a b l l' Hab _ IHl]; [constructor|].
      apply Forall_cons in Hat as [Ha Hat]. constructor; [|by apply IHl].
      rewrite Hab. by eapply at_or_after_steps_ok. }
    eapply IH; [done| |].
    + apply Forall_app. split.
      * eapply Forall_impl; [done|]. intros sp [? ?]. split; [done|lia].
      * eapply Forall_impl; [done|]. intros sp [? ?]. split; [done|lia].
    + apply pairwise_independent_app. split; [done|].
      split; [by eapply pairwise_independent_dests|].
      eapply Forall_impl; [done|]. intros a [_ Ha]. simpl.
      eapply Forall_impl; [done|]. intros b [_ Hb]. simpl.
      unfold independent. rewrite bool_decide_eq_false_2 by lia. done.
Qed.

Lemma NewParser_wf (M : Methods) (dests : list (rtype * value)) (p : Parser) :
  NewParser M dests = Ok p -> wf_specs (specs p).
Proof.
  unfold NewParser. intros H.
  destruct (newSpecs M (dests.*2) 0 dests []) as [found|e|] eqn:Hn; try done.
  simplify_eq. simpl. by eapply newSpecs_wf.
Qed.

(** ** C5, C6, C7: the passes over a constructed schema *)




(** ** C8: types with a text decoder *)

(** What the scalar parser gives for a call of the decoder. *)
Definition decoded (M : Methods) (type : string) (receiver : value) (s : string)
  : value * result unit :=
  let '(receiver', err) := UnmarshalText M type receiver s in
  (receiver', scalar.fromError err).

Lemma decodable_forms (t : rtype) :
  decodable t = true <->
  (exists n u m, t = TNamed n u true m) \/ (exists n u m, t = TPtr (TNamed n u true m)).
Proof.
  unfold decodable. split.
  - intros H. apply orb_true_iff in H as [H|H].
    + right. simpl in H. destruct t as [| | | |[| | | | | | |n u [] m]| | |]; try done. eauto.
    + left. simpl in H. destruct t as [| | | | | | |n u [] m]; try done. eauto.
  - intros [(n & u & m & ->)|(n & u & m & ->)]; simpl; [done|done].
Qed.



(** ** C10: one record of the environment value *)

(** A byte that is no quote, line feed or carriage return. *)
Definition plainByte (a : ascii) : bool :=
  negb (Ascii.eqb a csv.quote) && negb (Ascii.eqb a csv.LF) && negb (Ascii.eqb a csv.CR).

(** A line of plain bytes, at least one. *)
Fixpoint plainBytes (line : string) : bool :=
  match line with
  | EmptyString => true
  | String a line' => plainByte a && plainBytes line'
  end.

Definition plainLine (line : string) : Prop :=
  line <> EmptyString /\ plainBytes line = true.

(** The first piece of a split with [field] in front of it. *)
Definition continued (field : string) (pieces : list string) : list string :=
  match pieces with
  | [] => [field]
  | w :: ws => (field +:+ w) :: ws
  end.

Lemma Split_pieces (s : string) (c : ascii) :
  exists w ws, strings.Split s c = w :: ws.
Proof.
  induction s as [|a s (w & ws & IH)]; simpl; [by eauto|].
  destruct (Ascii.eqb a c); [by eauto|]. rewrite IH. eauto.
Qed.

Lemma continued_empty (s : string) (c : ascii) :
  continued EmptyString (strings.Split s c) = strings.Split s c.
Proof. by destruct (Split_pieces s c) as (w & ws & ->). Qed.

Lemma append_empty_r (s : string) : s +:+ EmptyString = s.
Proof. induction s as [|a s IH]; [done|]. by rewrite append_cons, IH. Qed.

Lemma append_snoc (s t : string) (a : ascii) : csv.snoc s a +:+ t = s +:+ String a t.
Proof.
  unfold csv.snoc. induction s as [|b s IH]; [done|]. by rewrite !append_cons, IH.
Qed.

Lemma plainByte_inv (a : ascii) :
  plainByte a = true ->
  Ascii.eqb a csv.quote = false /\ Ascii.eqb a csv.LF = false /\ Ascii.eqb a csv.CR = false.
Proof.
  unfold plainByte. intros H.
  apply andb_true_iff in H as [H H3]. apply andb_true_iff in H as [H1 H2].
  by repeat split; apply negb_true_iff.
Qed.

Lemma csv_lines_first (line rest : string) :
  plainBytes line = true ->
  csv.lines (line +:+ String csv.LF rest)
  = (line +:+ String csv.LF EmptyString) :: csv.lines rest.
Proof.
  induction line as [|a line IH]; simpl; intros H; [done|].
  apply andb_true_iff in H as [Ha Hl]. apply plainByte_inv in Ha as (_ & -> & ->).
  by rewrite (IH Hl).
Qed.

Lemma csv_lines_last (line : string) :
  plainLine line -> csv.lines line = [line].
Proof.
  intros [Hne H]. induction line as [|a line IH]; [done|]. simpl in *.
  apply andb_true_iff in H as [Ha Hl]. apply plainByte_inv in Ha as (_ & -> & ->).
  destruct line as [|b line]; [done|]. by rewrite IH.
Qed.

(** A field that did not start with a quote, on a line of plain bytes:
    the pieces between the commas. *)
Lemma csv_unquoted_plain (next : string -> list string -> result (list string))
    (tail : string) :
  tail = EmptyString \/ tail = String csv.LF EmptyString ->
  forall (line field : string) (fields : list string),
    plainBytes line = true ->
    csv.unquoted next (line +:+ tail) field fields
    = Ok (fields ++ continued field (strings.Split line ",")).
Proof.
  intros Htail. induction line as [|a line IH]; intros field fields H; simpl in *.
  - rewrite append_empty_r. by destruct Htail as [-> | ->].
  - apply andb_true_iff in H as [Ha Hl]. apply plainByte_inv in Ha as (Hq & Hlf & _).
    change csv.comma with ","%char.
    destruct (Ascii.eqb a ",") eqn:Hc.
    + assert (Hnext : csv.unquoted next (line +:+ tail) EmptyString (fields ++ [field])
                      = Ok (fields ++ continued field (EmptyString :: strings.Split line ","))).
      { rewrite (IH _ _ Hl). simpl.
        by rewrite append_empty_r, <- app_assoc, continued_empty. }
      destruct (line +:+ tail) as [|b line'] eqn:Hline; [done|].
      assert (Hb : Ascii.eqb b csv.quote = false).
      { destruct line as [|b' line].
        - change (EmptyString +:+ tail) with tail in Hline.
          by destruct Htail as [-> | ->]; simplify_eq.
        - rewrite append_cons in Hline. simplify_eq. simpl in Hl.
          apply andb_true_iff in Hl as [Hb _].
          by apply plainByte_inv in Hb as (-> & _). }
      by rewrite Hb.
    + rewrite Hq, Hlf, (IH _ _ Hl). do 2 f_equal.
      destruct (Split_pieces line ",") as (w & ws & ->). simpl.
      by rewrite append_snoc.
Qed.

Lemma skipBlank_cons (l : string) (ls : list string) :
  csv.blank l = false -> csv.skipBlank (l :: ls) = l :: ls.
Proof. intros H. simpl. by rewrite H. Qed.

(** The first record of a value whose first line is plain: the pieces of
    that line, whatever follows the line feed. *)
Lemma csv_Read_first_line (line rest : string) :
  plainLine line ->
  csv.Read (line +:+ String csv.LF rest) = Ok (strings.Split line ",") /\
  csv.Read line = Ok (strings.Split line ",").
Proof.
  intros Hline. pose proof Hline as [Hne Hplain].
  unfold csv.Read, csv.readRecord.
  rewrite (csv_lines_first _ _ Hplain), (csv_lines_last _ Hline).
  destruct line as [|a line]; [done|]. simpl in Hplain.
  apply andb_true_iff in Hplain as [Ha Hl]. pose proof Ha as Ha'.
  apply plainByte_inv in Ha as (Hq & Hlf & _).
  assert (Hstart : forall next tail,
            csv.startField next (String a line +:+ tail) []
            = csv.unquoted next (String a line +:+ tail) EmptyString []).
  { intros next tail. rewrite append_cons. unfold csv.startField. by rewrite Hq. }
  assert (Hsplit : continued EmptyString (strings.Split (String a line) ",")
                   = strings.Split (String a line) ",") by apply continued_empty.
  split.
  - assert (Hblank : csv.blank (String a line +:+ String csv.LF EmptyString) = false)
      by (by destruct line).
    rewrite (skipBlank_cons _ _ Hblank), Hstart.
    rewrite (csv_unquoted_plain _ (String csv.LF EmptyString) (or_intror eq_refl))
      by (simpl; by rewrite Ha', Hl).
    by rewrite Hsplit.
  - assert (Hblank : csv.blank (String a line) = false).
    { simpl. destruct line; [|done]. by rewrite Hlf. }
    rewrite (skipBlank_cons _ _ Hblank).
    rewrite <- (append_empty_r (String a line)) at 1. rewrite Hstart.
    rewrite (csv_unquoted_plain _ EmptyString (or_introl eq_refl))
      by (simpl; by rewrite Ha', Hl).
    by rewrite Hsplit.
Qed.

(** Two environments give the slots of a list the same records: the same
    value for a slot that is not multi-value, values with the same first
    record for a slot that is. *)
Definition same_records (found : list spec) (E E' : environ) : Prop :=
  forall sp, sp ∈ found ->
    match E !! name sp, E' !! name sp with
    | Some a, Some b => if multiple sp then csv.Read a = csv.Read b else a = b
    | None, None => True
    | _, _ => False
    end.

(** The first loop reads a multi-value slot's value through one [Read]. *)
Lemma captureEnvVars_records (M : Methods) (E E' : environ) (found : list spec) :
  same_records found E E' ->
  forall (i : nat) (wp : gmap nat bool) (roots : list value),
    captureEnvVars M E i found wp roots = captureEnvVars M E' i found wp roots.
Proof.
  induction found as [|sp found IH]; intros Hsame i wp roots; simpl; [done|].
  assert (Hrest : same_records found E E').
  { intros sp' Hin. apply Hsame. by right. }
  pose proof (Hsame sp (list_elem_of_here _ _)) as Hsp.
  destruct (E !! name sp) as [a|], (E' !! name sp) as [b|]; try done; [|by apply IH].
  destruct (multiple sp).
  - rewrite Hsp. destruct (csv.Read b) as [values|e|]; [|done..].
    destruct (setSlice M (typ sp) (val roots (dest sp)) values) as [new [[]|e|]];
      [by apply IH|done..].
  - subst b. destruct (parseInto M roots sp a) as [roots1 [[]|e|]]; [by apply IH|done..].
Qed.

(** The end of a line: a line feed, or a carriage return and a line feed. *)
Definition lineEnd (crlf : bool) : string :=
  if crlf then String csv.CR (String csv.LF EmptyString) else String csv.LF EmptyString.

(** Empty lines, one for each element of [ends]. *)
Fixpoint emptyLines (ends : list bool) : string :=
  match ends with
  | [] => EmptyString
  | crlf :: ends' => lineEnd crlf +:+ emptyLines ends'
  end.

Lemma csv_lines_lineEnd (crlf : bool) (rest : string) :
  csv.lines (lineEnd crlf +:+ rest) = String csv.LF EmptyString :: csv.lines rest.
Proof. by destruct crlf. Qed.

Lemma csv_lines_first_end (line rest : string) (crlf : bool) :
  plainBytes line = true ->
  csv.lines (line +:+ lineEnd crlf +:+ rest)
  = (line +:+ String csv.LF EmptyString) :: csv.lines rest.
Proof.
  induction line as [|a line IH]; intros H.
  - apply csv_lines_lineEnd.
  - simpl in H. apply andb_true_iff in H as [Ha Hl].
    apply plainByte_inv in Ha as (_ & Hlf & Hcr).
    rewrite !append_cons. simpl. rewrite Hlf, Hcr. by rewrite (IH Hl).
Qed.

(** The reader skips the empty lines at the start of a value. *)
Lemma csv_Read_emptyLines (ends : list bool) (s : string) :
  csv.Read (emptyLines ends +:+ s) = csv.Read s.
Proof.
  induction ends as [|crlf ends IH]; [done|].
  transitivity (csv.Read (lineEnd crlf +:+ emptyLines ends +:+ s)).
  { f_equal. by destruct crlf. }
  rewrite <- IH. unfold csv.Read. by rewrite csv_lines_lineEnd.
Qed.

(** The first loop on two values of a multi-value key with the same first
    record. *)
Lemma process_same_record (M : Methods) (p : Parser) (E : environ) (roots : list value)
    (key a b : string) :
  (forall sp, sp ∈ specs p -> name sp = key -> multiple sp = true) ->
  csv.Read a = csv.Read b ->
  process M p (<[key := a]> E) roots = process M p (<[key := b]> E) roots.
Proof.
  intros Hmul Hread. unfold process.
  rewrite (captureEnvVars_records M _ (<[key := b]> E)); [done|].
  intros sp Hin. destruct (decide (name sp = key)) as [Hkey|Hkey].
  - rewrite Hkey, !lookup_insert_eq. by rewrite (Hmul sp Hin Hkey).
  - rewrite !lookup_insert_ne by done. destruct (E !! name sp); [|done].
    by destruct (multiple sp).
Qed.

(** C10, as the code has it.  The pass calls [Read] once on the value of a
    multi-value slot, so one record is bound.  The reader skips the empty
    lines at the start of the value (a line feed, or a carriage return and
    a line feed, each).  When the value goes on with a line of plain bytes
    (at least one; no quote, no carriage return, no line feed) and the end
    of that line, the line is the record: the reader returns its pieces
    between the commas, and the pass is the pass for that line alone,
    whatever follows the end of the line.  A value of empty lines only is
    as the empty value: the reader returns [EOF]. *)
Theorem C10_first_record_only
    (M : Methods) (p : Parser) (E : environ) (roots : list value)
    (key line rest : string) (ends : list bool) (crlf : bool) :
  plainLine line ->
  (forall sp, sp ∈ specs p -> name sp = key -> multiple sp = true) ->
  (csv.Read (emptyLines ends +:+ line +:+ lineEnd crlf +:+ rest)
   = Ok (strings.Split line ",") /\
   process M p (<[key := emptyLines ends +:+ line +:+ lineEnd crlf +:+ rest]> E) roots
   = process M p (<[key := line]> E) roots) /\
  (csv.Read (emptyLines ends) = Err csv.EOF /\
   process M p (<[key := emptyLines ends]> E) roots
   = process M p (<[key := EmptyString]> E) roots).
Proof.
  intros Hline Hmul.
  destruct (csv_Read_first_line line rest Hline) as [Hfirst Hcut].
  assert (Hread : csv.Read (emptyLines ends +:+ line +:+ lineEnd crlf +:+ rest)
                  = csv.Read line).
  { rewrite csv_Read_emptyLines, Hcut, <- Hfirst. unfold csv.Read.
    destruct Hline as [_ Hplain].
    by rewrite (csv_lines_first_end _ _ _ Hplain), (csv_lines_first _ _ Hplain). }
  assert (Hempty : csv.Read (emptyLines ends) = csv.Read EmptyString).
  { rewrite <- (append_empty_r (emptyLines ends)). apply csv_Read_emptyLines. }
  split; split.
  - by rewrite Hread.
  - by apply process_same_record.
  - by rewrite Hempty.
  - by apply process_same_record.
Qed.

(** C10 fails as stated: for a value whose first line is blank, what follows
    the line feed is not ignored, it is the record that is bound; and a
    value that is only a line feed is an error. *)
Lemma C10_counterexample :
  let d := fixtures.zeroDest [fixtures.field "Foo" (TSlice TInt) []] in
  let p := fixtures.parserOf d in
  csv.Read (String csv.LF "3,4") = Ok ["3"; "4"] /\
  process fixtures.methods p {[ "foo" := String csv.LF "3,4" ]} [d.2]
    = ([VPtr (Some (VStruct [VSlice (Some [VInt 3; VInt 4])]))], Ok tt) /\
  csv.Read (String csv.LF EmptyString) = Err csv.EOF /\
  (process fixtures.methods p {[ "foo" := String csv.LF EmptyString ]} [d.2]).2
    = Err (Errorf
             "error reading a CSV string from environment variable foo with multiple values: EOF"
             csv.EOF).
Proof. by repeat split; vm_compute. Qed.

(** ** The scenarios of the repository's tests, run on the model *)

Example csv_plain : csv.Read "1,2,3" = Ok ["1"; "2"; "3"].
Proof. reflexivity. Qed.

Example csv_empty_value : csv.Read "" = Err csv.EOF.
Proof. reflexivity. Qed.

Example csv_quoted_comma :
  csv.Read (String csv.quote ("a,b" +:+ String csv.quote ",c")) = Ok ["a,b"; "c"].
Proof. reflexivity. Qed.

Example csv_second_line_unread :
  csv.Read ("1,2" +:+ String csv.LF (String csv.quote "3")) = Ok ["1"; "2"].
Proof. reflexivity. Qed.

Example TestMultipleWithDefault :
  (fixtures.pparse {[ "foo" := "1,2,3"; "bar" := "x,y,z" ]}
     (fixtures.dest [fixtures.field "Foo" (TSlice TInt) [];
                     fixtures.field "Bar" (TSlice TString) []]
                    [VSlice (Some [VInt 42]); VSlice (Some [VString "foo"])])).2
  = Ok tt /\
  (fixtures.pparse {[ "foo" := "1,2,3"; "bar" := "x,y,z" ]}
     (fixtures.dest [fixtures.field "Foo" (TSlice TInt) [];
                     fixtures.field "Bar" (TSlice TString) []]
                    [VSlice (Some [VInt 42]); VSlice (Some [VString "foo"])])).1.2
  = [VPtr (Some (VStruct [VSlice (Some [VInt 1; VInt 2; VInt 3]);
                          VSlice (Some [VString "x"; VString "y"; VString "z"])]))].
Proof. by split; vm_compute. Qed.

Example TestDefaultUnparseable :
  (fixtures.pparse ∅ (fixtures.zeroDest [fixtures.field "A" TInt [("default", "x")]])).2
  = Err (Errorf ("error processing default value for a: strconv.ParseInt: parsing "
                 +:+ strconv.quote "x" +:+ ": invalid syntax")
                (strconv.syntaxError "ParseInt" "x")).
Proof. by vm_compute. Qed.

Example TestDefaultValuesNotAllowedWithSlice :
  NewParser fixtures.methods
    [fixtures.zeroDest [fixtures.field "A" (TSlice TInt) [("default", "123")]]]
  = Err (Errorf ".A: default values are not supported for slice fields"
                ErrorDefaultValueForSlice).
Proof. reflexivity. Qed.

Example TestMissingRequired :
  (fixtures.pparse {[ "x" := "bar" ]}
     (fixtures.zeroDest [fixtures.field "Foo" TString [("env", "required")];
                         fixtures.field "X" TString []])).2
  = Err (Errorf "foo: field is required" ErrorFieldIsRequired).
Proof. by vm_compute. Qed.

Example TestUnknownTag :
  NewParser fixtures.methods
    [fixtures.zeroDest [fixtures.field "Foo" TString [("env", "this_is_not_valid")]]]
  = Err (Errorf ".Foo: this_is_not_valid-unrecognized tag"
           (Errorf "this_is_not_valid-unrecognized tag" ErrorUnrecognizedTag)).
Proof. reflexivity. Qed.

Example TestRepeatedPtrToTextUnmarshaler :
  (fixtures.pparse {[ "foo" := "abc,d,ef" ]}
     (fixtures.zeroDest
        [fixtures.field "Foo" (TSlice (TPtr fixtures.textUnmarshaler)) []])).1.2
  = [VPtr (Some (VStruct [VSlice (Some [VPtr (Some (VStruct [VInt 3]));
                                        VPtr (Some (VStruct [VInt 1]));
                                        VPtr (Some (VStruct [VInt 2]))])]))].
Proof. by vm_compute. Qed.

Example TestBoolUnmarshaler :
  (fixtures.pparse {[ "foo" := "ab" ]}
     (fixtures.zeroDest [fixtures.field "Foo" (TPtr fixtures.boolUnmarshaler) []])).1.2
  = [VPtr (Some (VStruct [VPtr (Some (VBool true))]))].
Proof. by vm_compute. Qed.

Example TestUsageCannotMarshalToString :
  NewParser fixtures.methods
    [fixtures.dest [fixtures.field "Name" (TPtr fixtures.MyEnum) []] [VPtr (Some (VInt 42))]]
  = Err (Errorf "args.Name: error marshaling default value to string: there was a problem"
                fixtures.errTestProblem).
Proof. reflexivity. Qed.

(** The decoders of the tests' types are idempotent. *)
Lemma fixtures_idempotent : idempotent_decoders fixtures.methods.
Proof.
  intros type v s. simpl. unfold fixtures.unmarshalText.
  repeat case_bool_decide; try done.
  by destruct (strings.Index s ".").
Qed.

(** ** The theorems at work on the tests' types *)

Lemma C1_witness :
  let d := fixtures.zeroDest [fixtures.field "A" TInt [("default", "123")];
                              fixtures.field "Foo" TString [("env", "required")]] in
  let p := fixtures.parserOf d in
  (exists e : error,
     process fixtures.methods p ∅ [d.2]
     = ([VPtr (Some (VStruct [VInt 123; VString ""]))], Err e) /\
     e = Errorf "foo: field is required" ErrorFieldIsRequired /\
     Is e ErrorFieldIsRequired = true /\
     strings.Contains (Error e) "foo") /\
  process fixtures.methods p ∅ [d.2]
  = fillDefaults fixtures.methods 1 (drop 1 (specs p)) ∅
      [VPtr (Some (VStruct [VInt 123; VString ""]))].
Proof.
  intros d p.
  let l := eval vm_compute in (specs p) in
  match l with
  | [?a; ?b] =>
      pose proof (C1_absent_required_or_default fixtures.methods ∅ p [d.2] [a] [] b
                    eq_refl eq_refl) as (_ & Hb & _);
      pose proof (C1_absent_required_or_default fixtures.methods ∅ p [d.2] [] [b] a
                    eq_refl eq_refl) as (_ & Ha & _)
  end.
  split.
  - destruct (Hb [d.2] [VPtr (Some (VStruct [VInt 123; VString ""]))] ∅ eq_refl eq_refl)
      as [Hreq _].
    exact (Hreq eq_refl).
  - destruct (Ha [d.2] [d.2] ∅ eq_refl eq_refl) as [_ Hdef].
    exact (Hdef eq_refl ltac:(discriminate) (VInt 0) (VInt 123) (Ok tt) eq_refl eq_refl).
Defined.

Lemma C2_witness :
  let d := fixtures.dest [fixtures.field "Label" TString [];
                          fixtures.field "Content" TString [("default", "dog")]]
                         [VString "cat"; VString ""] in
  let p := fixtures.parserOf d in
  Forall (fun sp =>
            exists field : StructField,
              fields (dest sp) = [field] /\
              hasDefault sp = bool_decide (is_Some (Lookup (Tag field) "default")) /\
              defaultVal sp =
                match val [d.2] (dest sp) with
                | Some v =>
                    if isZero (typ sp) v then Get (Tag field) "default"
                    else rendering fixtures.methods (typ sp) v
                | None => Get (Tag field) "default"
                end)
         (specs p) /\
  (defaultVal <$> specs p) = ["cat"; "dog"].
Proof.
  intros d p. split; [|reflexivity].
  apply Forall_forall. intros sp Hin.
  exact (C2_default_literal fixtures.methods [d] p sp eq_refl Hin).
Defined.

Lemma C3_witness :
  let d := fixtures.zeroDest [fixtures.field "Foo" TString [("env", "required")]] in
  let p := fixtures.parserOf d in
  Forall (fun sp => hasDefault sp = false) (specs p) /\
  (required <$> specs p) = [true].
Proof.
  intros d p. split; [|reflexivity].
  apply Forall_forall. intros sp Hin.
  refine (proj1 (C3_required_excludes_explicit_default fixtures.methods [d] p sp
                   eq_refl Hin _)).
  vm_compute in Hin. apply list_elem_of_singleton in Hin. by rewrite Hin.
Defined.

Lemma C4_witness :
  let d := fixtures.dest [fixtures.field "Values" (TSlice TInt) []]
                         [VSlice (Some [VInt 3; VInt 4])] in
  let p := fixtures.parserOf d in
  Forall (fun sp => hasDefault sp = false) (specs p) /\
  (multiple <$> specs p) = [true].
Proof.
  intros d p. split; [|reflexivity].
  apply Forall_forall. intros sp Hin.
  refine (proj1 (C4_multiple_excludes_explicit_default fixtures.methods [d] p sp
                   eq_refl Hin _)).
  vm_compute in Hin. apply list_elem_of_singleton in Hin. by rewrite Hin.
Defined.




Lemma C10_witness :
  let d := fixtures.zeroDest [fixtures.field "Foo" (TSlice TInt) []] in
  let p := fixtures.parserOf d in
  let value := String csv.LF (String csv.CR (String csv.LF
                 ("1,2" +:+ String csv.CR (String csv.LF "3,4")))) in
  (csv.Read value = Ok ["1"; "2"] /\
   process fixtures.methods p {[ "foo" := value ]} [d.2]
   = process fixtures.methods p {[ "foo" := "1,2" ]} [d.2]) /\
  (csv.Read (String csv.LF (String csv.CR (String csv.LF EmptyString))) = Err csv.EOF /\
   process fixtures.methods p
     {[ "foo" := String csv.LF (String csv.CR (String csv.LF EmptyString)) ]} [d.2]
   = process fixtures.methods p {[ "foo" := EmptyString ]} [d.2]).
Proof.
  intros d p value.
  refine (C10_first_record_only fixtures.methods p ∅ [d.2] "foo" "1,2" "3,4"
            [false; true] true _ _).
  - split; [discriminate|reflexivity].
  - intros sp Hin _. vm_compute in Hin. apply list_elem_of_singleton in Hin.
    by rewrite Hin.
Defined.

(** * Further properties of the code *)

(** ** The help text ([usage.go]) *)

Lemma length_append (s t : string) :
  String.length (s +:+ t) = String.length s + String.length t.
Proof. induction s as [|a s IH]; simpl; [done|]. by rewrite IH. Qed.

Lemma append_assoc (s t u : string) : (s +:+ t) +:+ u = s +:+ t +:+ u.
Proof. induction s as [|a s IH]; [done|]. by rewrite !append_cons, IH. Qed.

Lemma Repeat_length (n : nat) : String.length (usage.Repeat " " n) = n.
Proof.
  induction n as [|n IH]; [done|].
  change (usage.Repeat " " (S n)) with (String " " (usage.Repeat " " n)).
  simpl. by rewrite IH.
Qed.

(** The column a writer is in after writing [s] from column [c]: the number
    of bytes since the last line feed. *)
Fixpoint column (c : nat) (s : string) : nat :=
  match s with
  | EmptyString => c
  | String a s' => if Ascii.eqb a csv.LF then column 0 s' else column (S c) s'
  end.

Lemma column_append (s t : string) : forall c, column c (s +:+ t) = column (column c s) t.
Proof.
  induction s as [|a s IH]; intros c; simpl; [done|].
  destruct (Ascii.eqb a csv.LF); apply IH.
Qed.

Lemma column_plain (s : string) :
  strings.Index s csv.LF = None -> forall c, column c s = c + String.length s.
Proof.
  induction s as [|a s IH]; intros H c; simpl in *; [lia|].
  destruct (Ascii.eqb a csv.LF); [done|].
  rewrite IH; [lia|]. by destruct (strings.Index s csv.LF).
Qed.

Lemma column_Repeat (n : nat) : forall c, column c (usage.Repeat " " n) = c + n.
Proof.
  induction n as [|n IH]; intros c; [simpl; lia|].
  change (usage.Repeat " " (S n)) with (String " " (usage.Repeat " " n)).
  simpl. rewrite IH. lia.
Qed.

(** What [printTwoCols] writes does not depend on what was written
    before. *)
Lemma printTwoCols_writes (w left help defaultVal : string) :
  usage.printTwoCols w left help defaultVal
  = w +:+ usage.printTwoCols EmptyString left help defaultVal.
Proof.
  unfold usage.printTwoCols.
  change (EmptyString +:+ ?x) with x.
  destruct (negb (bool_decide (help = EmptyString)));
    destruct (String.length ("  " +:+ left) + 2 <? usage.colWidth);
    destruct (negb (bool_decide (defaultVal = EmptyString)));
    cbn [length app]; change (0 <? 1) with true; change (0 <? 0) with false; cbv iota;
    by rewrite ?append_assoc.
Qed.

(** The entry of one option. *)
Definition entry (sp : spec) : string :=
  usage.printTwoCols EmptyString (name sp) (help sp) (defaultVal sp).

Lemma printOptions_writes (found : list spec) :
  forall w : string,
    fold_left usage.printOption found w = w +:+ foldr String.app EmptyString (entry <$> found).
Proof.
  induction found as [|sp found IH]; intros w; simpl.
  - by rewrite append_empty_r.
  - rewrite IH. unfold usage.printOption, usage.synopsis, entry.
    rewrite printTwoCols_writes. by rewrite append_assoc.
Qed.

(** X17.  The help text is the description line, when there is a
    description, then, when the schema has slots, the line
    [Environments:] and one entry for every slot, in the order of the
    schema; an entry is made of the slot's name, help and default literal
    only.  With no description and no slot the help text is empty. *)
Theorem Help_entries (description : string) (p : Parser) :
  usage.Help description p =
    (if bool_decide (description = EmptyString) then EmptyString
     else description +:+ usage.newline)
    +:+ (if bool_decide (specs p = []) then EmptyString
         else "Environments:" +:+ usage.newline
              +:+ foldr String.app EmptyString (entry <$> specs p)) /\
  (usage.Help description p = EmptyString <->
   description = EmptyString /\ specs p = []).
Proof.
  assert (Heq : usage.Help description p =
    (if bool_decide (description = EmptyString) then EmptyString
     else description +:+ usage.newline)
    +:+ (if bool_decide (specs p = []) then EmptyString
         else "Environments:" +:+ usage.newline
              +:+ foldr String.app EmptyString (entry <$> specs p))).
  { unfold usage.Help, usage.writeHelp. simpl app.
    destruct (specs p) as [|sp found] eqn:Hspecs.
    - simpl. case_bool_decide; simpl; by rewrite ?append_empty_r.
    - change (0 <? length (sp :: found)) with true. cbv iota.
      rewrite printOptions_writes.
      destruct (bool_decide (sp :: found = [])) eqn:Hb;
        [by apply bool_decide_eq_true in Hb|].
      destruct (bool_decide (description = EmptyString)); simpl negb; cbv iota;
        change (EmptyString +:+ ?x) with x; rewrite ?append_assoc; reflexivity. }
  split; [done|]. rewrite Heq. split.
  - intros H. case_bool_decide as Hd.
    + split; [done|]. case_bool_decide; [done|]. discriminate H.
    + destruct description; [done|discriminate H].
  - intros [-> ->]. done.
Qed.

(** X18.  In the entry of an option with a help text, the help text starts
    at column 25 of its line: on the line of the name, after three spaces
    or more, when the name has at most 20 bytes, and else on a line of its
    own after 25 spaces.  The default literal, when there is one, follows
    in brackets, and the entry ends with a line feed. *)
Theorem printTwoCols_help_column (left help defaultVal : string) :
  strings.Index left csv.LF = None ->
  help <> EmptyString ->
  exists gap : string,
    usage.printTwoCols EmptyString left help defaultVal
    = "  " +:+ left +:+ gap +:+ help
      +:+ (if bool_decide (defaultVal = EmptyString) then EmptyString
           else " [default: " +:+ defaultVal +:+ "]")
      +:+ usage.newline /\
    column 0 ("  " +:+ left +:+ gap) = usage.colWidth /\
    gap = (if String.length left <=? 20
           then usage.Repeat " " (23 - String.length left)
           else usage.newline +:+ usage.Repeat " " 25) /\
    3 <= String.length gap.
Proof.
  intros Hleft Hhelp.
  exists (if String.length left <=? 20
          then usage.Repeat " " (23 - String.length left)
          else usage.newline +:+ usage.Repeat " " 25).
  split; [|split; [|split; [done|]]].
  - unfold usage.printTwoCols. rewrite (bool_decide_eq_false_2 _ Hhelp).
    change (EmptyString +:+ ?x) with x. simpl negb. cbv iota.
    change (String.length ("  " +:+ left)) with (S (S (String.length left))).
    unfold usage.colWidth.
    replace (S (S (String.length left)) + 2 <? 25) with (String.length left <=? 20)
      by (destruct (Nat.leb_spec (String.length left) 20), (Nat.ltb_spec (S (S (String.length left)) + 2) 25); (done || lia)).
    replace (25 - S (S (String.length left))) with (23 - String.length left) by lia.
    destruct (String.length left <=? 20); case_bool_decide; simpl negb; cbv iota;
      cbn [length app]; change (0 <? 1) with true; change (0 <? 0) with false; cbv iota;
      cbn [strings.Join]; by rewrite ?append_assoc.
  - change ("  " +:+ left +:+ ?g) with (String " " (String " " (left +:+ g))).
    simpl column. rewrite column_append, (column_plain _ Hleft).
    destruct (Nat.leb_spec (String.length left) 20).
    + rewrite column_Repeat. unfold usage.colWidth. lia.
    + unfold usage.newline. by simpl.
  - destruct (Nat.leb_spec (String.length left) 20).
    + rewrite Repeat_length. lia.
    + rewrite length_append, Repeat_length. simpl. lia.
Qed.

(** ** The destinations that [NewParser] accepts *)

Lemma specsFromStruct_kinds (d : path) (t : rtype) (found : list spec) :
  specsFromStruct d t = (found, Ok tt) ->
  KindOf t = Ptr /\ KindOf (default t (Elem t)) = Struct.
Proof.
  unfold specsFromStruct. intros H.
  case_bool_decide; [|done]. case_bool_decide; [|done]. done.
Qed.

Lemma newSpecs_kinds (M : Methods) (roots : list value) (dests : list (rtype * value)) :
  forall (i : nat) (acc found : list spec),
    newSpecs M roots i dests acc = Ok found ->
    Forall (fun d => KindOf d.1 = Ptr /\ KindOf (default d.1 (Elem d.1)) = Struct) dests.
Proof.
  induction dests as [|[t v] dests IH]; intros i acc found H; [constructor|].
  simpl in H.
  destruct (specsFromStruct (mkPath i []) t) as [fs [[]|e|]] eqn:Hfs; try done.
  destruct (addDefaults M roots fs) as [fs'|e|]; try done.
  constructor; [by eapply specsFromStruct_kinds|by eapply IH].
Qed.

(** X1.  [NewParser] accepts pointers to structs only: when it returns a
    parser, every destination is a pointer to a struct.  A first
    destination that is no pointer is refused with
    [args:KIND - must be pointers], which wraps [ErrorNotPointers]; one that
    points to something that is no struct with
    [args:KIND - must be structs], which wraps [ErrorNotStruct]. *)
Theorem NewParser_destination_kinds (M : Methods) :
  (forall (dests : list (rtype * value)) (p : Parser),
     NewParser M dests = Ok p ->
     Forall (fun d => KindOf d.1 = Ptr /\ KindOf (default d.1 (Elem d.1)) = Struct) dests) /\
  (forall (t : rtype) (v : value) (rest : list (rtype * value)),
     KindOf t <> Ptr ->
     NewParser M ((t, v) :: rest) =
     Err (Errorf ("args:" +:+ KindString (KindOf t) +:+ " - must be pointers")
                 ErrorNotPointers)) /\
  (forall (t : rtype) (v : value) (rest : list (rtype * value)),
     KindOf t = Ptr -> KindOf (default t (Elem t)) <> Struct ->
     NewParser M ((t, v) :: rest) =
     Err (Errorf ("args:" +:+ KindString (KindOf (default t (Elem t)))
                  +:+ " - must be structs")
                 ErrorNotStruct)).
Proof.
  split; [|split].
  - intros dests p H. unfold NewParser in H.
    destruct (newSpecs M (dests.*2) 0 dests []) as [found|e|] eqn:Hn; try done.
    by eapply newSpecs_kinds.
  - intros t v rest Hk. unfold NewParser. simpl. unfold specsFromStruct.
    by rewrite (bool_decide_eq_false_2 _ Hk).
  - intros t v rest Hp Hs. unfold NewParser. simpl. unfold specsFromStruct.
    by rewrite (bool_decide_eq_true_2 _ Hp), (bool_decide_eq_false_2 _ Hs).
Qed.

(** ** The annotation, token by token *)

Lemma Split_app (s t : string) (sep : ascii) :
  strings.Split (s +:+ String sep t) sep = strings.Split s sep ++ strings.Split t sep.
Proof.
  induction s as [|a s IH].
  - change (EmptyString +:+ String sep t) with (String sep t). simpl.
    by rewrite Ascii.eqb_refl.
  - rewrite append_cons. simpl. destruct (Ascii.eqb a sep); [by rewrite IH|].
    rewrite IH. by destruct (Split_pieces s sep) as (w & ws & ->).
Qed.

Lemma lookAtKeys_app (keys keys' : list string) :
  forall sp : spec,
    lookAtKeys (keys ++ keys') sp =
    match lookAtKeys keys sp with
    | (sp', None) => lookAtKeys keys' sp'
    | failed => failed
    end.
Proof.
  induction keys as [|key keys IH]; intros sp; simpl; [done|].
  case_bool_decide; [apply IH|].
  destruct (lookAtKey key sp) as [sp' [e|]]; [done|apply IH].
Qed.

(** An annotation with a comma in it: the part before the comma, then the
    part after it. *)
Lemma lookAtTag_app (tag tag' : string) (sp : spec) :
  lookAtTag (tag +:+ "," +:+ tag') sp =
    match lookAtTag tag sp with
    | (sp', None) => lookAtTag tag' sp'
    | failed => failed
    end.
Proof.
  unfold lookAtTag. change ("," +:+ tag') with (String "," tag').
  by rewrite Split_app, lookAtKeys_app.
Qed.

(** X2.  An annotation with a comma in it is looked at as the part before
    the comma, then, when that part is accepted, the part after it on the
    spec that the first part left; a failure of the first part is the
    failure of the whole.  A comma at the end changes nothing. *)
Theorem lookAtTag_comma (tag tag' : string) (sp : spec) :
  lookAtTag (tag +:+ "," +:+ tag') sp =
    match lookAtTag tag sp with
    | (sp', None) => lookAtTag tag' sp'
    | failed => failed
    end /\
  lookAtTag (tag +:+ ",") sp = lookAtTag tag sp.
Proof.
  split; [apply lookAtTag_app|].
  change (tag +:+ ",") with (tag +:+ "," +:+ EmptyString). rewrite lookAtTag_app.
  by destruct (lookAtTag tag sp) as [sp' [e|]].
Qed.

Lemma keyValue_spaces (n : nat) : keyValue (spaces n) = (EmptyString, EmptyString).
Proof.
  unfold keyValue. rewrite <- (append_empty_r (spaces n)). by rewrite TrimLeft_spaces.
Qed.

(** X3.  An empty token of the annotation is skipped, a token of spaces
    only is not: it is trimmed to an empty key after the test for the
    empty token, and refused with the error [-unrecognized tag], also at
    the end of an annotation whose other tokens are accepted. *)
Theorem lookAtTag_blank_token (n : nat) (tag : string) (sp : spec) :
  lookAtTag (spaces (S n)) sp
    = (sp, Some (Errorf "-unrecognized tag" ErrorUnrecognizedTag)) /\
  (lookAtTag (tag +:+ "," +:+ spaces (S n)) sp).2 <> None.
Proof.
  assert (H : forall sp0, lookAtTag (spaces (S n)) sp0
    = (sp0, Some (Errorf "-unrecognized tag" ErrorUnrecognizedTag))).
  { intros sp0. unfold lookAtTag.
    assert (Hsplit : strings.Split (spaces (S n)) "," = [spaces (S n)]).
    { generalize (S n) as m. induction m as [|m IH]; [done|].
      simpl. by rewrite IH. }
    rewrite Hsplit. unfold lookAtKeys.
    rewrite bool_decide_eq_false_2 by done.
    unfold lookAtKey. by rewrite keyValue_spaces. }
  split; [apply H|]. rewrite lookAtTag_app.
  destruct (lookAtTag tag sp) as [sp' [e|]]; [done|]. by rewrite H.
Qed.

(** A token that names the slot, and one that asks for the slot to be
    required (whatever follows a colon in it). *)
Definition isName (token : string) : bool :=
  let '(key, value) := keyValue token in
  bool_decide (key = "name") && negb (bool_decide (value = EmptyString)).

Definition isRequired (token : string) : bool :=
  bool_decide ((keyValue token).1 = "required").

(** A token that [lookAtTag] accepts on a spec that has an explicit default
    ([hasDefault]) or has none. *)
Definition accepted (hasDefault : bool) (token : string) : bool :=
  bool_decide (token = EmptyString) || isName token ||
  (isRequired token && negb hasDefault).

(** The value of the last naming token, [current] without one. *)
Definition lastName (tokens : list string) (current : string) : string :=
  fold_left (fun current token => if isName token then (keyValue token).2 else current)
            tokens current.

Lemma lookAtKeys_result (keys : list string) :
  forall sp : spec,
    if forallb (accepted (hasDefault sp)) keys
    then lookAtKeys keys sp =
         (mkSpec (dest sp) (typ sp) (lastName keys (name sp)) (help sp) (defaultVal sp)
                 (multiple sp) (required sp || existsb isRequired keys) (boolean sp)
                 (hasDefault sp), None)
    else (lookAtKeys keys sp).2 <> None.
Proof.
  induction keys as [|key keys IH]; intros sp.
  - simpl. rewrite orb_false_r. by destruct sp.
  - cbn [forallb existsb lookAtKeys]. unfold lastName. cbn [fold_left].
    fold (lastName keys). unfold accepted at 1.
    destruct (keyValue key) as [k v] eqn:Hkv.
    assert (HisName : isName key
              = bool_decide (k = "name") && negb (bool_decide (v = EmptyString)))
      by (unfold isName; by rewrite Hkv).
    assert (HisReq : isRequired key = bool_decide (k = "required"))
      by (unfold isRequired; by rewrite Hkv).
    destruct (bool_decide (key = EmptyString)) eqn:Hkey.
    { apply bool_decide_eq_true in Hkey. subst key.
      rewrite HisName, HisReq. vm_compute in Hkv. simplify_eq. simpl. apply IH. }
    simpl orb. unfold lookAtKey. rewrite Hkv, HisName, HisReq.
    destruct (bool_decide (k = "name") && negb (bool_decide (v = EmptyString))) eqn:Hname.
    { simpl orb. simpl fst. simpl snd. specialize (IH (withName sp v)). simpl in IH.
      assert (Hreq : bool_decide (k = "required") = false).
      { apply andb_true_iff in Hname as [Hk _]. apply bool_decide_eq_true in Hk.
        subst k. by apply bool_decide_eq_false. }
      rewrite Hreq. simpl orb. simpl andb. apply IH. }
    simpl orb. destruct (bool_decide (k = "required")) eqn:Hreq; simpl andb.
    + destruct (hasDefault sp) eqn:Hhd; simpl negb; simpl andb; [done|].
      specialize (IH (withRequired sp)). simpl in IH. rewrite Hhd in IH.
      by rewrite orb_true_r.
    + done.
Qed.

(** X4.  Whether [lookAtTag] accepts an annotation is decided token by
    token, whatever their order: every token between the commas has to be
    empty, a [name:] with a value, or [required] (with or without a colon
    and more after it) on a spec without an explicit default.  An accepted
    annotation leaves the spec with the value of its last naming token as
    name, required when it was or when a token asks for it, and everything
    else as it was. *)
Theorem lookAtTag_result (tag : string) (sp : spec) :
  let tokens := strings.Split tag "," in
  if forallb (accepted (hasDefault sp)) tokens
  then lookAtTag tag sp =
       (mkSpec (dest sp) (typ sp) (lastName tokens (name sp)) (help sp) (defaultVal sp)
               (multiple sp) (required sp || existsb isRequired tokens) (boolean sp)
               (hasDefault sp), None)
  else (lookAtTag tag sp).2 <> None.
Proof. apply lookAtKeys_result. Qed.

(** ** The key, the help text and the required flag of a slot *)

Lemma newSpec_fields (d : path) (field : StructField) :
  help (newSpec d field) = Get (Tag field) "help" /\
  required (newSpec d field) = false.
Proof.
  unfold newSpec, Get.
  by destruct (Lookup (Tag field) "help"), (Lookup (Tag field) "default").
Qed.

Lemma walker_names (d : path) (field : StructField) (t : rtype) (sp : spec) (expand : bool) :
  walker d field t = (Some sp, expand, None) ->
  let tokens := strings.Split (Get (Tag field) "env") "," in
  name sp = lastName tokens (strings.ToLower (Name field)) /\
  help sp = Get (Tag field) "help" /\
  required sp = existsb isRequired tokens /\
  Get (Tag field) "env" <> "-" /\
  Anonymous field && bool_decide (KindOf (Type_ field) = Struct) = false.
Proof.
  unfold walker. intros H. case_bool_decide as Hdash; [done|].
  destruct (Anonymous field && _) eqn:Hanon; [done|].
  pose proof (lookAtKeys_result (strings.Split (Get (Tag field) "env") ",") (newSpec d field)) as Hres.
  unfold lookAtTag in H.
  destruct (lookAtKeys _ (newSpec d field)) as [sp1 [e|]] eqn:Htag; [done|].
  destruct (forallb _ _); [|done]. injection Hres as ->.
  destruct (canParse (Type_ field)) as [[parseable b] m].
  destruct parseable; simpl in H; [|done].
  destruct (m && _); simplify_eq. simpl.
  destruct (newSpec_fields d field) as [-> ->]. by rewrite newSpec_name.
Qed.

Lemma addDefault_help (M : Methods) (roots : list value) (sp sp' : spec) :
  addDefault M roots sp = Ok sp' -> help sp' = help sp.
Proof.
  unfold addDefault. intros H.
  destruct (val roots (dest sp)) as [v|]; [|by simplify_eq].
  destruct (isZero (typ sp) v); simpl in H; [by simplify_eq|].
  destruct (ImplementsMarshaler (typ sp)); [|by simplify_eq].
  destruct (MarshalText M _ _) as [str [err|]]; by simplify_eq.
Qed.

(** X5.  Every slot of a constructed schema comes from one field that is
    not excluded with [-] and is no embedded struct.  Its key is the value
    of the last [name:] token of the field's annotation, and the
    lower-cased field name when the annotation has none; its help text is
    the field's [help] annotation; it is required exactly when a token of
    the annotation is [required]; and its path prints as [args.] and the
    name of the field, also for a field of an embedded struct. *)
Theorem NewParser_names
    (M : Methods) (dests : list (rtype * value)) (p : Parser) (sp : spec) :
  NewParser M dests = Ok p ->
  sp ∈ specs p ->
  exists field : StructField,
    let tokens := strings.Split (Get (Tag field) "env") "," in
    fields (dest sp) = [field] /\
    name sp = lastName tokens (strings.ToLower (Name field)) /\
    help sp = Get (Tag field) "help" /\
    required sp = existsb isRequired tokens /\
    Get (Tag field) "env" <> "-" /\
    Anonymous field && bool_decide (KindOf (Type_ field) = Struct) = false /\
    path_String (dest sp) = "args." +:+ Name field.
Proof.
  intros Hp Hin. apply NewParser_slots in Hp.
  rewrite Forall_forall in Hp. destruct (Hp _ Hin) as (i & sp0 & (field & t & Hw) & Hd).
  pose proof (walker_names _ _ _ _ _ Hw) as (Hname & Hhelp & Hreq & Hdash & Hanon).
  apply walker_spec in Hw as (_ & Hdest & _).
  pose proof (addDefault_help _ _ _ _ Hd) as Hh.
  apply addDefault_spec in Hd as (Hd1 & _ & Hd3 & _ & Hd5 & _).
  exists field. simpl. unfold path_String. rewrite Hd1, Hd3, Hd5, Hh, Hdest. done.
Qed.

(** ** Memory that is not shared

    The store of the model gives every pointer a referent of its own and
    every slice elements of its own; in Go two pointers can point to the
    same variable, and two slices can share an array.  A value that is not
    a pointer or a slice that is not nil is written by [Set] in its own
    place; a value with no such pointer or slice anywhere inside is read
    from its own place alone. *)
Definition unshared (v : value) : bool :=
  match v with
  | VPtr (Some _) | VSlice (Some _) => false
  | _ => true
  end.

Fixpoint flat (v : value) : bool :=
  match v with
  | VPtr (Some _) | VSlice (Some _) => false
  | VStruct l =>
      (fix all (l : list value) : bool :=
         match l with
         | [] => true
         | x :: l' => flat x && all l'
         end) l
  | _ => true
  end.

(** ** What a pass writes, and what it reads *)

(** A pass writes through the destinations of slots only. *)
Lemma process_other (M : Methods) (E : environ) (p : Parser)
    (roots roots' : list value) (r : result unit) (d : path) :
  (forall sp, sp ∈ specs p -> independent (dest sp) d = true) ->
  process M p E roots = (roots', r) ->
  val roots' d = val roots d.
Proof.
  intros Hind H. unfold process in H.
  destruct (captureEnvVars M E 0 (specs p) ∅ roots) as [[roots1 wp] r1] eqn:Hc.
  assert (H1 : val roots1 d = val roots d).
  { eapply captureEnvVars_other; [|done]. intros sp Hin _. by apply Hind. }
  destruct r1 as [[]|e|]; [|by simplify_eq..].
  rewrite <- H1. eapply fillDefaults_other; [|done].
  intros k sp Hk _ _. apply Hind. by eapply list_elem_of_lookup_2.
Qed.

(** X12.  A pass reads the environment at the keys of the schema's slots
    and nowhere else: two environments that agree on these keys give the
    same store and the same result. *)
Theorem process_reads_keys_only
    (M : Methods) (E E' : environ) (p : Parser) (roots : list value) :
  (forall sp, sp ∈ specs p -> E !! name sp = E' !! name sp) ->
  process M p E roots = process M p E' roots.
Proof.
  intros Hkeys. unfold process.
  rewrite (captureEnvVars_records M E E'); [done|].
  intros sp Hin. rewrite <- (Hkeys sp Hin).
  destruct (E !! name sp); [|done]. by destruct (multiple sp).
Qed.

(** ** What a slot holds after a pass *)

(** The text that a pass converts into a slot: the value of the slot's key
    when the environment has the key, else the slot's default literal when
    it is not empty. *)
Definition source (E : environ) (sp : spec) : option string :=
  match E !! name sp with
  | Some raw => Some raw
  | None => if bool_decide (defaultVal sp = EmptyString) then None else Some (defaultVal sp)
  end.

Section Bound.
Variable M : Methods.
Variable E : environ.

Lemma process_present_scalar (p : Parser) (roots roots' : list value)
    (i : nat) (sp : spec) (raw : string) :
  wf_specs (specs p) ->
  specs p !! i = Some sp ->
  multiple sp = false ->
  E !! name sp = Some raw ->
  process M p E roots = (roots', Ok tt) ->
  exists v v' : value,
    val roots (dest sp) = Some v /\
    scalar.ParseValue M (typ sp) v raw = (v', Ok tt) /\
    val roots' (dest sp) = Some v'.
Proof.
  intros [Hsteps Hwf] Hi Hmul Hraw H. unfold process in H.
  destruct (captureEnvVars M E 0 (specs p) ∅ roots) as [[rootsC wp] [[]|e|]] eqn:Hc;
    [|by simplify_eq..].
  assert (Hwp : default false (wp !! i) = true).
  { change i with (0 + i). erewrite captureEnvVars_at by done. by rewrite Hraw. }
  assert (Hfill : val roots' (dest sp) = val rootsC (dest sp)).
  { eapply fillDefaults_other; [|done].
    intros k sp' Hk Hwpk _. eapply pairwise_independent_lookup; [done..|].
    intros ->. simpl in Hwpk. congruence. }
  rewrite Hfill. clear H Hfill Hwp roots'.
  assert (Hok : steps_ok (fields (dest sp))).
  { rewrite Forall_forall in Hsteps. apply Hsteps. by eapply list_elem_of_lookup_2. }
  rewrite <- (take_drop_middle _ _ _ Hi) in Hc, Hwf.
  apply pairwise_independent_app in Hwf as (_ & [Hhead _] & Hbefore).
  rewrite captureEnvVars_app in Hc.
  destruct (captureEnvVars M E 0 (take i (specs p)) ∅ roots)
    as [[rootsA wpA] [[]|e|]] eqn:HA; [|by simplify_eq..].
  assert (HvalA : val rootsA (dest sp) = val roots (dest sp)).
  { eapply captureEnvVars_other; [|done]. intros sp' Hin _.
    rewrite Forall_forall in Hbefore. specialize (Hbefore _ Hin).
    by apply Forall_cons in Hbefore as [? _]. }
  simpl in Hc. rewrite Hraw, Hmul in Hc. unfold parseInto in Hc.
  destruct (val rootsA (dest sp)) as [v|] eqn:Hv; [|by simplify_eq].
  destruct (scalar.ParseValue M (typ sp) v raw) as [v' [[]|e|]] eqn:Hparse;
    [|by simplify_eq..].
  exists v, v'. split; [by rewrite <- HvalA|]. split; [done|].
  transitivity (val (setVal rootsA (dest sp) v') (dest sp)); [|by eapply val_setVal_same].
  eapply captureEnvVars_other; [|done]. intros sp' Hin _.
  rewrite Forall_forall in Hhead. rewrite independent_sym. by apply Hhead.
Qed.

Lemma process_absent_default (p : Parser) (roots roots' : list value)
    (i : nat) (sp : spec) :
  wf_specs (specs p) ->
  specs p !! i = Some sp ->
  E !! name sp = None ->
  defaultVal sp <> EmptyString ->
  process M p E roots = (roots', Ok tt) ->
  exists v v' : value,
    val roots (dest sp) = Some v /\
    scalar.ParseValue M (typ sp) v (defaultVal sp) = (v', Ok tt) /\
    val roots' (dest sp) = Some v'.
Proof.
  intros [Hsteps Hwf] Hi Habsent Hdef H. unfold process in H.
  destruct (captureEnvVars M E 0 (specs p) ∅ roots) as [[rootsC wp] [[]|e|]] eqn:Hc;
    [|by simplify_eq..].
  assert (Hwp : default false (wp !! i) = false).
  { change i with (0 + i). erewrite captureEnvVars_at by done. by rewrite Habsent. }
  assert (HvalC : val rootsC (dest sp) = val roots (dest sp)).
  { eapply captureEnvVars_other; [|done].
    intros sp' Hin Hpresent. apply list_elem_of_lookup in Hin as [j Hj].
    eapply pairwise_independent_lookup; [done..|].
    intros ->. rewrite Hi in Hj. simplify_eq. rewrite Habsent in Hpresent.
    by destruct Hpresent. }
  assert (Hok : steps_ok (fields (dest sp))).
  { rewrite Forall_forall in Hsteps. apply Hsteps. by eapply list_elem_of_lookup_2. }
  assert (Hlen : length (take i (specs p)) = i).
  { apply length_take_le. apply lookup_lt_Some in Hi. lia. }
  rewrite <- (take_drop_middle _ _ _ Hi) in H, Hwf.
  apply pairwise_independent_app in Hwf as (_ & [Hhead _] & Hbefore).
  rewrite fillDefaults_app in H.
  destruct (fillDefaults M 0 (take i (specs p)) wp rootsC) as [roots2 [[]|e|]] eqn:Hpre;
    [|by simplify_eq..].
  assert (Hval2 : val roots2 (dest sp) = val roots (dest sp)).
  { rewrite <- HvalC. eapply fillDefaults_other; [|done].
    intros k sp' Hk _ _. rewrite Forall_forall in Hbefore.
    specialize (Hbefore sp' (list_elem_of_lookup_2 _ _ _ Hk)).
    by apply Forall_cons in Hbefore as [? _]. }
  rewrite Hlen in H. simpl in H. rewrite Hwp in H.
  destruct (required sp); [by simplify_eq|].
  rewrite (bool_decide_eq_false_2 _ Hdef) in H. simpl in H. unfold parseInto in H.
  destruct (val roots2 (dest sp)) as [v|] eqn:Hv; [|by simplify_eq].
  destruct (scalar.ParseValue M (typ sp) v (defaultVal sp)) as [v' [[]|e|]] eqn:Hparse;
    [|by simplify_eq..].
  exists v, v'. split; [by rewrite <- Hval2|]. split; [done|].
  transitivity (val (setVal roots2 (dest sp) v') (dest sp)); [|by eapply val_setVal_same].
  eapply fillDefaults_other; [|done]. intros k sp' Hk _ _.
  rewrite Forall_forall in Hhead. rewrite independent_sym.
  apply Hhead. by eapply list_elem_of_lookup_2.
Qed.

End Bound.


(** ** Excluded fields *)

(** The slot is field [j] of the struct that the walk is in, or is inside
    that field, and that field is not excluded. *)
Definition from_field (r0 : nat) (path : list nat) (fs : list (decl rtype)) (sp : spec)
  : Prop :=
  exists (j : nat) (d : decl rtype),
    fs !! j = Some d /\ Get (decl_Tag d) "env" <> "-" /\ at_field r0 path j sp.

Lemma walker_not_excluded (d : path) (field : StructField) (t : rtype)
    (found : option spec) (expand : bool) (e : option error) :
  walker d field t = (found, expand, e) ->
  is_Some found \/ expand = true -> Get (Tag field) "env" <> "-".
Proof.
  unfold walker. intros H Hsome. case_bool_decide as Hdash; [|done].
  simplify_eq. destruct Hsome as [[? ?]|?]; done.
Qed.

Lemma walkFieldsImpl_from_fields (r0 : nat) (t : rtype) :
  forall (owner : rtype) (path : list nat) (acc acc' : list spec),
    walkFieldsImpl
      (fun found field t =>
         let '(sp, expand, err) := walker (mkPath r0 []) field t in
         (found ++ option_list sp, expand, err))
      owner t path acc = (acc', Ok tt) ->
    exists new : list spec,
      acc' = acc ++ new /\ Forall (from_field r0 path (Fields t)) new.
Proof.
  induction t as [| | | |e IH|e IH|fs IH|n u a b IH] using rtype_fields_ind;
    intros owner path acc acc' H; simpl in H; try done; [|by eapply IH].
  simpl Fields.
  enough (Hgen : exists new : list spec,
             acc' = acc ++ new /\
             Forall (fun sp => exists (k : nat) (d : decl rtype),
                       fs !! k = Some d /\ Get (decl_Tag d) "env" <> "-" /\
                       at_field r0 path (0 + k) sp) new).
  { destruct Hgen as (new & -> & Hnew). exists new. split; [done|].
    eapply Forall_impl; [done|]. intros sp (k & d & ? & ? & ?). by exists k, d. }
  revert acc H. generalize 0 as i.
  induction IH as [|d fs Hd _ IHfs]; intros i acc H.
  { simplify_eq. exists []. by rewrite app_nil_r. }
  set (field := mkStructField (decl_Name d) (decl_Type d) (decl_Tag d)
                              (decl_Anonymous d) (path ++ [i])) in *.
  destruct (walker (mkPath r0 []) field owner) as [[found expand] [err|]] eqn:Hw;
    [by destruct expand|].
  pose proof (walker_not_excluded _ _ _ _ _ _ Hw) as Hdash.
  apply walker_visit in Hw as [Hexp Hsp].
  assert (Hlater : forall l,
    Forall (fun sp => exists (k : nat) (d' : decl rtype),
              fs !! k = Some d' /\ Get (decl_Tag d') "env" <> "-" /\
              at_field r0 path (S i + k) sp) l ->
    Forall (fun sp => exists (k : nat) (d' : decl rtype),
              (d :: fs) !! k = Some d' /\ Get (decl_Tag d') "env" <> "-" /\
              at_field r0 path (i + k) sp) l).
  { intros l Hl. eapply Forall_impl; [done|]. intros sp (k & d' & Hk & Htag & Hat).
    exists (S k), d'. split; [done|]. split; [done|].
    by replace (i + S k) with (S i + k) by lia. }
  destruct expand.
  - destruct (Hexp eq_refl) as [-> Hanon]. simpl in H. rewrite app_nil_r in H.
    subst field. simpl in Hanon. rewrite Hanon in H.
    destruct (walkFieldsImpl _ (decl_Type d) (decl_Type d) (path ++ [i]) acc)
      as [acc1 [[]|e|]] eqn:Hrec; try done.
    destruct (Hd _ _ _ _ Hrec) as (new1 & -> & Hat1).
    destruct (IHfs _ _ H) as (new2 & -> & Hat2).
    exists (new1 ++ new2). split; [by rewrite app_assoc|].
    apply Forall_app. split; [|by apply Hlater].
    eapply Forall_impl; [done|]. intros sp (j & d' & _ & _ & Hat).
    exists 0, d. split; [done|]. split; [by apply Hdash; right|].
    rewrite Nat.add_0_r. eapply (at_field_deeper _ _ _ 0). exists j. split; [lia|done].
  - destruct (IHfs _ _ H) as (new2 & -> & Hat2).
    destruct found as [sp|]; simpl.
    + destruct (Hsp sp eq_refl) as [_ Hdest].
      exists (sp :: new2). split; [by rewrite <- app_assoc|].
      constructor; [|by apply Hlater].
      exists 0, d. split; [done|]. split; [by apply Hdash; left|].
      rewrite Nat.add_0_r. exists field, []. by split.
    + exists new2. rewrite app_nil_r. split; [done|]. by apply Hlater.
Qed.

Lemma specsFromStruct_from_fields (r0 : nat) (t : rtype) (found : list spec) :
  specsFromStruct (mkPath r0 []) t = (found, Ok tt) ->
  Forall (from_field r0 [] (Fields (default t (Elem t)))) found.
Proof.
  unfold specsFromStruct, walkFields.
  destruct (negb (bool_decide (KindOf t = Ptr))); [done|].
  destruct (negb (bool_decide (KindOf (default t (Elem t)) = Struct))); [done|].
  intros H. by apply walkFieldsImpl_from_fields in H as (new & -> & Hat).
Qed.

Lemma from_field_root (r0 : nat) (path : list nat) (fs : list (decl rtype)) (sp : spec) :
  from_field r0 path fs sp -> root (dest sp) = r0.
Proof. by intros (j & d & _ & _ & f & rest & -> & _). Qed.

Lemma from_field_dest (r0 : nat) (path : list nat) (fs : list (decl rtype)) (sp sp' : spec) :
  dest sp' = dest sp -> from_field r0 path fs sp -> from_field r0 path fs sp'.
Proof.
  intros Hd (j & d & Hj & Htag & f & rest & Hdest & Hidx).
  exists j, d. split; [done|]. split; [done|]. exists f, rest. by rewrite Hd.
Qed.

(** What holds of the slots that [specsFromStruct] gives for a destination
    holds of the slots of a constructed schema, each with the destination
    that its root is the number of, when it is a matter of the slot's
    destination and type. *)
Section Destinations.
Variable Q : nat -> rtype -> spec -> Prop.
Hypothesis Q_found :
  forall r0 t found, specsFromStruct (mkPath r0 []) t = (found, Ok tt) -> Forall (Q r0 t) found.
Hypothesis Q_dest :
  forall r0 t sp sp', dest sp' = dest sp -> typ sp' = typ sp -> Q r0 t sp -> Q r0 t sp'.
Hypothesis Q_root : forall r0 t sp, Q r0 t sp -> root (dest sp) = r0.

Definition in_dest (dests : list (rtype * value)) (sp : spec) : Prop :=
  exists (t : rtype) (v : value),
    dests !! root (dest sp) = Some (t, v) /\ Q (root (dest sp)) t sp.

Lemma newSpecs_in_dests (M : Methods) (roots : list value)
    (all dests : list (rtype * value)) :
  forall (i : nat) (acc found : list spec),
    newSpecs M roots i dests acc = Ok found ->
    (forall k, dests !! k = all !! (i + k)) ->
    Forall (in_dest all) acc -> Forall (in_dest all) found.
Proof.
  induction dests as [|[t v] dests IH]; intros i acc found H Hall Hacc; simpl in H.
  - by simplify_eq.
  - destruct (specsFromStruct (mkPath i []) t) as [fs [[]|e|]] eqn:Hfs; try done.
    destruct (addDefaults M roots fs) as [fs'|e|] eqn:Hfs'; try done.
    eapply IH; [done| |].
    + intros k. replace (S i + k) with (i + S k) by lia. by rewrite <- (Hall (S k)).
    + apply Forall_app. split; [done|].
      apply Q_found in Hfs. apply addDefaults_spec in Hfs'.
      pose proof (Hall 0) as H0. rewrite Nat.add_0_r in H0. simpl in H0.
      clear -Hfs Hfs' H0 Q_dest Q_root.
      induction Hfs' as [|sp sp' fs fs' Hsp _ IHfs]; [constructor|].
      apply Forall_cons in Hfs as [Hb Hfs]. constructor; [|by apply IHfs].
      apply addDefault_spec in Hsp as (Hd & Ht & _).
      pose proof (Q_dest _ _ _ _ Hd Ht Hb) as Hb'.
      exists t, v. rewrite (Q_root _ _ _ Hb'). by split.
Qed.

Lemma NewParser_in_dests (M : Methods) (dests : list (rtype * value)) (p : Parser) :
  NewParser M dests = Ok p -> Forall (in_dest dests) (specs p).
Proof.
  unfold NewParser. intros H.
  destruct (newSpecs M (dests.*2) 0 dests []) as [found|e|] eqn:Hn; try done.
  simplify_eq. simpl. eapply newSpecs_in_dests; [done|done|constructor].
Qed.

End Destinations.

(** Every slot is a field of the struct that the destination of its root
    points to, and that field is not excluded. *)
Lemma NewParser_from_dests (M : Methods) (dests : list (rtype * value)) (p : Parser) :
  NewParser M dests = Ok p ->
  Forall (in_dest (fun r0 t => from_field r0 [] (Fields (default t (Elem t)))) dests)
         (specs p).
Proof.
  apply NewParser_in_dests.
  - intros r0 t found. apply specsFromStruct_from_fields.
  - intros r0 t sp sp' Hd _. by apply from_field_dest.
  - intros r0 t sp. apply from_field_root.
Qed.


(** ** A key whose value does not convert *)

(** X13.  A key that is present and whose value the scalar parser refuses
    ends the pass in the first loop, with the error
    [error processing environment variable KEY: ...] that wraps the
    parser's error.  The store is as the slots before it in the schema
    left it, with what the failed conversion wrote; no slot after it is
    bound, no default is applied and no required slot is looked for. *)
Theorem conversion_failure_aborts
    (M : Methods) (E : environ) (p : Parser) (roots roots1 : list value)
    (pre post : list spec) (sp : spec) (raw : string)
    (wasPresent : gmap nat bool) (v v' : value) (err : error) :
  specs p = pre ++ sp :: post ->
  multiple sp = false ->
  E !! name sp = Some raw ->
  captureEnvVars M E 0 pre ∅ roots = (roots1, wasPresent, Ok tt) ->
  val roots1 (dest sp) = Some v ->
  scalar.ParseValue M (typ sp) v raw = (v', Err err) ->
  exists e : error,
    process M p E roots = (setVal roots1 (dest sp) v', Err e) /\
    e = Errorf ("error processing environment variable " +:+ name sp +:+ ": "
                +:+ Error err) err /\
    Is e err = true /\
    strings.Contains (Error e) (name sp).
Proof.
  intros Hspecs Hmul Hraw Hpre Hv Hparse. eexists. split; [|split; [done|split]].
  - unfold process. rewrite Hspecs, captureEnvVars_app, Hpre. simpl.
    rewrite Hraw, Hmul. unfold parseInto. by rewrite Hv, Hparse.
  - apply Is_wrapped.
  - apply (Contains_mid "error processing environment variable ").
Qed.

(** X14.  A multi-value slot whose key is present with a value that the
    CSV reader gives no record for ends the pass in the first loop, with
    the error
    [error reading a CSV string from environment variable KEY with multiple values: ...]
    that wraps the reader's error, and its destination is not written.
    The empty value is such a value: the reader returns [EOF] for it. *)
Theorem csv_failure_aborts
    (M : Methods) (E : environ) (p : Parser) (roots roots1 : list value)
    (pre post : list spec) (sp : spec) (raw : string)
    (wasPresent : gmap nat bool) (err : error) :
  specs p = pre ++ sp :: post ->
  multiple sp = true ->
  E !! name sp = Some raw ->
  captureEnvVars M E 0 pre ∅ roots = (roots1, wasPresent, Ok tt) ->
  csv.Read raw = Err err ->
  process M p E roots =
    (roots1,
     Err (Errorf ("error reading a CSV string from environment variable "
                  +:+ name sp +:+ " with multiple values: " +:+ Error err) err)) /\
  (raw = EmptyString -> err = csv.EOF).
Proof.
  intros Hspecs Hmul Hraw Hpre Hread. split.
  - unfold process. rewrite Hspecs, captureEnvVars_app, Hpre. simpl.
    by rewrite Hraw, Hmul, Hread.
  - intros ->. vm_compute in Hread. by simplify_eq.
Qed.

(** ** A slice that is filled in part *)

Lemma appendValues_partial (M : Methods) (t : rtype)
    (good : list string) (elems : list value) :
  Forall2 (fun s x => convertElem M t s = (x, Ok tt)) good elems ->
  forall (bad : string) (rest : list string) (e : value) (r : result unit)
         (held : option (list value)),
    convertElem M t bad = (e, r) -> r <> Ok tt ->
    appendValues M (elemOf t).1 (elemOf t).2 (VSlice held) (good ++ bad :: rest)
    = (VSlice (match held, elems with
               | None, [] => None
               | _, _ => Some (default [] held ++ elems)
               end), r).
Proof.
  unfold convertElem. destruct (elemOf t) as [elem ptr]. simpl.
  induction 1 as [|s x good elems Hs _ IH]; intros bad rest e r held Hbad Hr; simpl.
  - destruct (scalar.ParseValue M elem (Zero elem) bad) as [e' r'].
    simplify_eq. destruct r as [[]|err|]; [done| |];
      destruct held; by rewrite ?app_nil_r.
  - destruct (scalar.ParseValue M elem (Zero elem) s) as [e' r'] eqn:Hparse.
    simplify_eq. destruct held as [l|]; simpl.
    + rewrite (IH _ _ _ _ (Some (l ++ [if ptr then VPtr (Some e') else e'])) Hbad Hr).
      simpl. rewrite <- app_assoc. simpl. by destruct (l ++ _ :: elems) eqn:Hl, elems.
    + rewrite (IH _ _ _ _ (Some [if ptr then VPtr (Some e') else e']) Hbad Hr).
      by destruct elems.
Qed.

(** [setSlice] with a value that does not convert. *)
Lemma setSlice_failure
    (M : Methods) (t elem : rtype) (held : option (list value))
    (good : list string) (elems : list value)
    (bad : string) (rest : list string) (e : value) (err : error) :
  Elem t = Some elem ->
  Forall2 (fun s x => convertElem M t s = (x, Ok tt)) good elems ->
  convertElem M t bad = (e, Err err) ->
  setSlice M t (Some (VSlice held)) (good ++ bad :: rest)
  = (Some (VSlice (match held, elems with
                   | None, [] => None
                   | _, _ => Some elems
                   end)), Err err).
Proof.
  intros Helem Hgood Hbad. unfold setSlice. rewrite Helem.
  pose proof (appendValues_partial M t good elems Hgood bad rest e (Err err)) as Happ.
  unfold elemOf in Happ. rewrite Helem in Happ. simpl in Happ.
  destruct held as [l|]; simpl.
  - rewrite (Happ (Some []) Hbad) by done. by destruct elems.
  - rewrite (Happ None Hbad) by done. by destruct elems.
Qed.

(** ** A slice that is not nil when the schema is constructed *)

(** The scalar parser has no case for a slice type literal. *)
Lemma ParseValue_slice (M : Methods) (e : rtype) (v : value) (s : string) :
  scalar.ParseValue M (TSlice e) v s
  = (v, Err (New ("cannot parse into " +:+ TypeString (TSlice e)))).
Proof. done. Qed.

(** X16.  A slot whose type is a slice type literal [[]T] and whose
    destination, an exported field, holds a slice that is not nil when
    the schema is constructed gets the rendering of that slice as default
    literal, and the scalar parser cannot parse a literal into such a
    slice: when the rendering is not empty, no pass over the schema
    against an environment without the slot's key returns without
    error. *)
Theorem prepopulated_slice_needs_key
    (M : Methods) (dests : list (rtype * value)) (p : Parser) (E : environ)
    (roots roots' : list value) (i : nat) (sp : spec) (e : rtype) (held : list value) :
  NewParser M dests = Ok p ->
  Forall (fun d => exported_fields d.1 = true) dests ->
  specs p !! i = Some sp ->
  typ sp = TSlice e ->
  val (dests.*2) (dest sp) = Some (VSlice (Some held)) ->
  rendering M (typ sp) (VSlice (Some held)) <> EmptyString ->
  E !! name sp = None ->
  defaultVal sp = rendering M (typ sp) (VSlice (Some held)) /\
  process M p E roots <> (roots', Ok tt).
Proof.
  intros Hp _ Hi Ht Hheld Hrender Habsent.
  assert (Hdef : defaultVal sp = rendering M (typ sp) (VSlice (Some held))).
  { destruct (NewParser_slot M dests p sp Hp (list_elem_of_lookup_2 _ _ _ Hi))
      as (field & _ & _ & _ & _ & _ & _ & Hdv).
    rewrite Hheld in Hdv. unfold isZero in Hdv.
    by rewrite Ht in Hdv |- *. }
  split; [done|]. intros H.
  destruct (process_absent_default M E p roots roots' i sp
              (NewParser_wf _ _ _ Hp) Hi Habsent) as (v & v' & _ & Hparse & _);
    [by rewrite Hdef|done|].
  by rewrite Ht, ParseValue_slice in Hparse.
Qed.

(** ** Paths resolve in a store of the shape of the destination types *)

(** A value of the shape of a type. *)
Fixpoint hasType (t : rtype) (v : value) {struct t} : Prop :=
  match t with
  | TBool => exists b, v = VBool b
  | TInt => exists n, v = VInt n
  | TString => exists s, v = VString s
  | TInterface => True
  | TPtr e => v = VPtr None \/ exists r, v = VPtr (Some r) /\ hasType e r
  | TSlice e => v = VSlice None \/ exists l, v = VSlice (Some l) /\ Forall (hasType e) l
  | TStruct fs =>
      exists vs, v = VStruct vs /\
        (fix all (fs : list (decl rtype)) (vs : list value) : Prop :=
           match fs, vs with
           | [], [] => True
           | f :: fs', x :: vs' => hasType (decl_Type f) x /\ all fs' vs'
           | _, _ => False
           end) fs vs
  | TNamed _ u _ _ => hasType u v
  end.

(** The type of the field that an index sequence leads to
    ([Type.FieldByIndex]). *)
Fixpoint TypeByIndex (t : rtype) (index : list nat) : option rtype :=
  match index with
  | [] => Some t
  | i :: index' => Fields t !! i ≫= fun d => TypeByIndex (decl_Type d) index'
  end.

Lemma hasType_field (t : rtype) :
  forall (v : value) (i : nat) (d : decl rtype),
    hasType t v -> Fields t !! i = Some d ->
    exists (vs : list value) (x : value),
      v = VStruct vs /\ vs !! i = Some x /\ hasType (decl_Type d) x.
Proof.
  induction t as [| | | |e IH|e IH|fs|n u IH a b]; intros v i d Hv Hi; simpl in *;
    try done; [|by eapply IH].
  destruct Hv as (vs & -> & Hall). exists vs.
  revert vs i Hall Hi. induction fs as [|f fs IHfs]; intros [|x vs] i Hall Hi; try done.
  destruct Hall as [Hx Hall]. destruct i as [|i]; simpl in *.
  - simplify_eq. by exists x.
  - destruct (IHfs vs i Hall Hi) as (y & Heq & Hy & Hty). exists y.
    split; [done|]. by split.
Qed.

Lemma FieldByIndex_typed (index : list nat) :
  forall (t ft : rtype) (v : value),
    hasType t v -> TypeByIndex t index = Some ft ->
    exists x : value, FieldByIndex v index = Some x /\ hasType ft x.
Proof.
  induction index as [|i index IH]; intros t ft v Hv Ht; simpl in *.
  - simplify_eq. by exists v.
  - destruct (Fields t !! i) as [d|] eqn:Hd; [|done]. simpl in Ht.
    destruct (hasType_field t v i d Hv Hd) as (vs & x & -> & Hx & Htx).
    rewrite Hx. simpl. by eapply IH.
Qed.

(** The slot is a field that an index sequence leads to from the struct
    that the walk is in, and has the type of that field. *)
Definition typed_at (r0 : nat) (path : list nat) (t : rtype) (sp : spec) : Prop :=
  exists (f : StructField) (j : nat) (rest : list nat),
    dest sp = mkPath r0 [f] /\ Index f = path ++ j :: rest /\
    TypeByIndex t (j :: rest) = Some (typ sp).

Lemma walkFieldsImpl_typed (r0 : nat) (t : rtype) :
  forall (owner : rtype) (path : list nat) (acc acc' : list spec),
    walkFieldsImpl
      (fun found field t =>
         let '(sp, expand, err) := walker (mkPath r0 []) field t in
         (found ++ option_list sp, expand, err))
      owner t path acc = (acc', Ok tt) ->
    exists new : list spec,
      acc' = acc ++ new /\ Forall (typed_at r0 path t) new.
Proof.
  induction t as [| | | |e IH|e IH|fs IH|n u a b IH] using rtype_fields_ind;
    intros owner path acc acc' H; simpl in H; try done; [|by eapply IH].
  enough (Hgen : exists new : list spec,
             acc' = acc ++ new /\
             Forall (fun sp => exists (f : StructField) (k : nat) (rest : list nat),
                       dest sp = mkPath r0 [f] /\ Index f = path ++ (0 + k) :: rest /\
                       fs !! k ≫= (fun d => TypeByIndex (decl_Type d) rest)
                       = Some (typ sp)) new).
  { destruct Hgen as (new & -> & Hnew). exists new. split; [done|].
    eapply Forall_impl; [done|]. intros sp (f & k & rest & ? & ? & ?). by exists f, k, rest. }
  revert acc H. generalize 0 as i.
  induction IH as [|d fs Hd _ IHfs]; intros i acc H.
  { simplify_eq. exists []. by rewrite app_nil_r. }
  set (field := mkStructField (decl_Name d) (decl_Type d) (decl_Tag d)
                              (decl_Anonymous d) (path ++ [i])) in *.
  destruct (walker (mkPath r0 []) field owner) as [[found expand] [err|]] eqn:Hw;
    [by destruct expand|].
  assert (Htyp : forall sp, found = Some sp -> typ sp = decl_Type d).
  { intros sp ->. by apply walker_spec in Hw as (_ & _ & -> & _). }
  apply walker_visit in Hw as [Hexp Hsp].
  assert (Hlater : forall l,
    Forall (fun sp => exists (f : StructField) (k : nat) (rest : list nat),
              dest sp = mkPath r0 [f] /\ Index f = path ++ (S i + k) :: rest /\
              fs !! k ≫= (fun d => TypeByIndex (decl_Type d) rest) = Some (typ sp)) l ->
    Forall (fun sp => exists (f : StructField) (k : nat) (rest : list nat),
              dest sp = mkPath r0 [f] /\ Index f = path ++ (i + k) :: rest /\
              (d :: fs) !! k ≫= (fun d => TypeByIndex (decl_Type d) rest)
              = Some (typ sp)) l).
  { intros l Hl. eapply Forall_impl; [done|]. intros sp (f & k & rest & Hdest & Hidx & Ht).
    exists f, (S k), rest. split; [done|]. split; [|done].
    by replace (i + S k) with (S i + k) by lia. }
  destruct expand.
  - destruct (Hexp eq_refl) as [-> Hanon]. simpl in H. rewrite app_nil_r in H.
    subst field. simpl in Hanon. rewrite Hanon in H.
    destruct (walkFieldsImpl _ (decl_Type d) (decl_Type d) (path ++ [i]) acc)
      as [acc1 [[]|e|]] eqn:Hrec; try done.
    destruct (Hd _ _ _ _ Hrec) as (new1 & -> & Hat1).
    destruct (IHfs _ _ H) as (new2 & -> & Hat2).
    exists (new1 ++ new2). split; [by rewrite app_assoc|].
    apply Forall_app. split; [|by apply Hlater].
    eapply Forall_impl; [done|]. intros sp (f & j & rest & Hdest & Hidx & Ht).
    exists f, 0, (j :: rest). split; [done|]. split; [|done].
    by rewrite Hidx, <- app_assoc, Nat.add_0_r.
  - destruct (IHfs _ _ H) as (new2 & -> & Hat2).
    destruct found as [sp|]; simpl.
    + destruct (Hsp sp eq_refl) as [_ Hdest].
      exists (sp :: new2). split; [by rewrite <- app_assoc|].
      constructor; [|by apply Hlater].
      exists field, 0, []. split; [done|]. split; [by rewrite Nat.add_0_r|].
      simpl. by rewrite (Htyp sp eq_refl).
    + exists new2. rewrite app_nil_r. split; [done|]. by apply Hlater.
Qed.

Lemma specsFromStruct_typed (r0 : nat) (t : rtype) (found : list spec) :
  specsFromStruct (mkPath r0 []) t = (found, Ok tt) ->
  Forall (typed_at r0 [] (default t (Elem t))) found.
Proof.
  unfold specsFromStruct, walkFields.
  destruct (negb (bool_decide (KindOf t = Ptr))); [done|].
  destruct (negb (bool_decide (KindOf (default t (Elem t)) = Struct))); [done|].
  intros H. by apply walkFieldsImpl_typed in H as (new & -> & Hat).
Qed.

Lemma NewParser_typed (M : Methods) (dests : list (rtype * value)) (p : Parser) :
  NewParser M dests = Ok p ->
  Forall (in_dest (fun r0 t => typed_at r0 [] (default t (Elem t))) dests) (specs p).
Proof.
  apply NewParser_in_dests.
  - intros r0 t found. apply specsFromStruct_typed.
  - intros r0 t sp sp' Hd Ht (f & j & rest & Hdest & Hidx & Hty).
    exists f, j, rest. by rewrite Hd, Ht.
  - by intros r0 t sp (f & j & rest & -> & _).
Qed.

(** X8.  The path of every slot of a constructed schema resolves: in a
    store whose root for the slot's destination points to a struct of the
    shape of the destination's type, [val] gives a value, of the shape of
    the slot's type (it does not get to its panic); when the root is a nil
    pointer, [val] gives the invalid value. *)
Theorem val_resolves
    (M : Methods) (dests : list (rtype * value)) (p : Parser) (sp : spec) :
  NewParser M dests = Ok p ->
  sp ∈ specs p ->
  exists (t : rtype) (v0 : value),
    dests !! root (dest sp) = Some (t, v0) /\
    (forall (roots : list value) (s : value),
       roots !! root (dest sp) = Some (VPtr (Some s)) ->
       hasType (default t (Elem t)) s ->
       exists v : value, val roots (dest sp) = Some v /\ hasType (typ sp) v) /\
    (forall roots : list value,
       roots !! root (dest sp) = Some (VPtr None) -> val roots (dest sp) = None).
Proof.
  intros Hp Hin. apply NewParser_typed in Hp. rewrite Forall_forall in Hp.
  destruct (Hp sp Hin) as (t & v0 & Hdest & f & j & rest & Hsp & Hidx & Hty).
  exists t, v0. split; [done|]. unfold val. rewrite Hsp. simpl. split.
  - intros roots s -> Hs. simpl. rewrite Hidx. simpl app.
    destruct (FieldByIndex_typed _ _ _ _ Hs Hty) as (x & -> & Hx). by exists x.
  - by intros roots ->.
Qed.

(** ** The order of the slots *)

(** A place is declared before another: in a destination that comes
    first, or in the same destination where the index sequences part with
    a smaller index. *)
Definition before (a b : path) : Prop :=
  root a < root b \/
  (root a = root b /\
   exists (f g : StructField) (pre : list nat) (x y : nat) (r1 r2 : list nat),
     fields a = [f] /\ fields b = [g] /\
     Index f = pre ++ x :: r1 /\ Index g = pre ++ y :: r2 /\ x < y).

Fixpoint ordered (found : list spec) : Prop :=
  match found with
  | [] => True
  | sp :: found' =>
      Forall (fun sp' => before (dest sp) (dest sp')) found' /\ ordered found'
  end.

Lemma ordered_app (l1 l2 : list spec) :
  ordered (l1 ++ l2) <->
  ordered l1 /\ ordered l2 /\
  Forall (fun a => Forall (fun b => before (dest a) (dest b)) l2) l1.
Proof.
  induction l1 as [|a l1 IH]; simpl.
  - split; [intros H; by repeat split|tauto].
  - rewrite Forall_app, IH, Forall_cons. tauto.
Qed.

Lemma ordered_lookup (found : list spec) (i j : nat) (a b : spec) :
  ordered found ->
  found !! i = Some a -> found !! j = Some b -> i < j ->
  before (dest a) (dest b).
Proof.
  revert i j. induction found as [|sp found IH]; intros i j Hp Hi Hj Hij; [done|].
  destruct Hp as [Hhead Htail]. rewrite Forall_forall in Hhead.
  destruct i as [|i], j as [|j]; simpl in *; simplify_eq; try lia.
  - apply Hhead. by eapply list_elem_of_lookup_2.
  - eapply IH; eauto. lia.
Qed.

Lemma at_field_before (r0 : nat) (pre : list nat) (i j : nat) (a b : spec) :
  at_field r0 pre i a -> at_field r0 pre j b -> i < j -> before (dest a) (dest b).
Proof.
  intros (f & r1 & -> & Hf) (g & r2 & -> & Hg) Hij. right. split; [done|].
  by exists f, g, pre, i, j, r1, r2.
Qed.

Lemma walkFieldsImpl_ordered (r0 : nat) (t : rtype) :
  forall (owner : rtype) (path : list nat) (acc acc' : list spec),
    walkFieldsImpl
      (fun found field t =>
         let '(sp, expand, err) := walker (mkPath r0 []) field t in
         (found ++ option_list sp, expand, err))
      owner t path acc = (acc', Ok tt) ->
    exists new : list spec,
      acc' = acc ++ new /\ Forall (at_or_after r0 path 0) new /\ ordered new.
Proof.
  induction t as [| | | |e IH|e IH|fs IH|n u a b IH] using rtype_fields_ind;
    intros owner path acc acc' H; simpl in H; try done; [|by eapply IH].
  revert acc H. generalize 0 as i.
  induction IH as [|d fs Hd _ IHfs]; intros i acc H.
  { simplify_eq. exists []. by rewrite app_nil_r. }
  set (field := mkStructField (decl_Name d) (decl_Type d) (decl_Tag d)
                              (decl_Anonymous d) (path ++ [i])) in *.
  destruct (walker (mkPath r0 []) field owner) as [[found expand] [err|]] eqn:Hw;
    [by destruct expand|].
  apply walker_visit in Hw as [Hexp Hsp].
  assert (Hlater : forall a b, at_field r0 path i a -> at_or_after r0 path (S i) b ->
                               before (dest a) (dest b)).
  { intros a b Ha (j & Hj & Hb). eapply at_field_before; [done..|lia]. }
  assert (Hweak : forall l, Forall (at_or_after r0 path (S i)) l ->
                            Forall (at_or_after r0 path i) l).
  { intros l Hl. eapply Forall_impl; [done|].
    intros sp (j & Hj & Hat). exists j. split; [lia|done]. }
  destruct expand.
  - destruct (Hexp eq_refl) as [-> Hanon]. simpl in H. rewrite app_nil_r in H.
    subst field. simpl in Hanon. rewrite Hanon in H.
    destruct (walkFieldsImpl _ (decl_Type d) (decl_Type d) (path ++ [i]) acc)
      as [acc1 [[]|e|]] eqn:Hrec; try done.
    destruct (Hd _ _ _ _ Hrec) as (new1 & -> & Hat1 & Hp1).
    destruct (IHfs _ _ H) as (new2 & -> & Hat2 & Hp2).
    exists (new1 ++ new2). split; [by rewrite app_assoc|]. split.
    + apply Forall_app. split; [|by apply Hweak].
      eapply Forall_impl; [done|]. intros sp Hsp1. exists i. split; [lia|].
      by eapply at_field_deeper.
    + apply ordered_app. split; [done|]. split; [done|].
      eapply Forall_impl; [done|]. intros a Ha. simpl.
      eapply Forall_impl; [done|]. intros b Hb. simpl.
      apply Hlater; [|done]. by eapply at_field_deeper.
  - destruct (IHfs _ _ H) as (new2 & -> & Hat2 & Hp2).
    destruct found as [sp|]; simpl.
    + destruct (Hsp sp eq_refl) as [_ Hdest].
      assert (Hat : at_field r0 path i sp).
      { exists field, []. by split. }
      exists (sp :: new2). split; [by rewrite <- app_assoc|]. split.
      * constructor; [|by apply Hweak]. exists i. split; [lia|done].
      * split; [|done]. eapply Forall_impl; [done|]. intros b Hb. simpl. by apply Hlater.
    + exists new2. rewrite app_nil_r. split; [done|]. split; [by apply Hweak|done].
Qed.

Lemma specsFromStruct_ordered (r0 : nat) (t : rtype) (found : list spec) :
  specsFromStruct (mkPath r0 []) t = (found, Ok tt) ->
  Forall (fun sp => root (dest sp) = r0) found /\ ordered found.
Proof.
  unfold specsFromStruct, walkFields.
  destruct (negb (bool_decide (KindOf t = Ptr))); [done|].
  destruct (negb (bool_decide (KindOf (default t (Elem t)) = Struct))); [done|].
  intros H. apply walkFieldsImpl_ordered in H as (new & -> & Hat & Hp).
  split; [|done]. eapply Forall_impl; [done|].
  intros sp Hsp. by apply at_or_after_steps_ok in Hsp as [_ ?].
Qed.

Lemma ordered_dests (l l' : list spec) :
  Forall2 (fun a b => dest b = dest a) l l' -> ordered l -> ordered l'.
Proof.
  induction 1 as [|a b l l' Hab Hl IH]; simpl; [done|].
  intros [Hhead Htail]. split; [|by apply IH].
  clear IH Htail. induction Hl as [|a' b' l l' Hab' _ IH']; [constructor|].
  apply Forall_cons in Hhead as [Hh Hhead]. constructor; [|by apply IH'].
  by rewrite Hab, Hab'.
Qed.

Lemma newSpecs_ordered (M : Methods) (roots : list value) (dests : list (rtype * value)) :
  forall (i : nat) (acc found : list spec),
    newSpecs M roots i dests acc = Ok found ->
    Forall (fun sp => root (dest sp) < i) acc ->
    ordered acc ->
    ordered found.
Proof.
  induction dests as [|[t v] dests IH]; intros i acc found H Hacc Hp; simpl in H.
  - by simplify_eq.
  - destruct (specsFromStruct (mkPath i []) t) as [fs [[]|e|]] eqn:Hfs; try done.
    destruct (addDefaults M roots fs) as [fs'|e|] eqn:Hfs'; try done.
    apply specsFromStruct_ordered in Hfs as [Hat Hpfs].
    apply addDefaults_spec in Hfs'.
    assert (Hdests : Forall2 (fun a b => dest b = dest a) fs fs').
    { eapply Forall2_impl; [done|]. intros a b Hab. by apply addDefault_spec in Hab as [? _]. }
    assert (Hat' : Forall (fun sp => root (dest sp) = i) fs').
    { clear -Hat Hdests. induction Hdests as [|a b l l' Hab _ IHl]; [constructor|].
      apply Forall_cons in Hat as [Ha Hat]. constructor; [|by apply IHl].
      by rewrite Hab. }
    eapply IH; [done| |].
    + apply Forall_app. split.
      * eapply Forall_impl; [done|]. intros sp ?. simpl in *. lia.
      * eapply Forall_impl; [done|]. intros sp ?. simpl in *. lia.
    + apply ordered_app. split; [done|].
      split; [by eapply ordered_dests|].
      eapply Forall_impl; [done|]. intros a Ha. simpl.
      eapply Forall_impl; [done|]. intros b Hb. simpl in *.
      left. lia.
Qed.

(** X19.  The slots of a constructed schema are in the order of the
    declarations: the slots of a destination come before those of the
    destinations after it, and within a destination a slot comes before
    another when, where their index sequences part, it has the smaller
    index, so the fields of an embedded struct take the place of the
    embedded field.  This is the order in which a pass binds, fills in
    defaults and looks for required keys, and in which the help text lists
    the options. *)
Theorem NewParser_ordered
    (M : Methods) (dests : list (rtype * value)) (p : Parser)
    (i j : nat) (a b : spec) :
  NewParser M dests = Ok p ->
  specs p !! i = Some a ->
  specs p !! j = Some b ->
  i < j ->
  before (dest a) (dest b).
Proof.
  unfold NewParser. intros H Hi Hj Hij.
  destruct (newSpecs M (dests.*2) 0 dests []) as [found|e|] eqn:Hn; try done.
  simplify_eq. simpl in *.
  eapply ordered_lookup; [|done..].
  eapply newSpecs_ordered; [done|constructor|done].
Qed.

(** ** A pass keeps the shape of the store *)

Lemma hasType_all (fs : list (decl rtype)) :
  forall vs : list value,
    (fix all (fs : list (decl rtype)) (vs : list value) : Prop :=
       match fs, vs with
       | [], [] => True
       | f :: fs', x :: vs' => hasType (decl_Type f) x /\ all fs' vs'
       | _, _ => False
       end) fs vs
    <-> Forall2 (fun f x => hasType (decl_Type f) x) fs vs.
Proof.
  induction fs as [|f fs IH]; intros [|x vs]; simpl.
  - split; [constructor|done].
  - split; [done|by inversion 1].
  - split; [done|by inversion 1].
  - rewrite IH. split.
    + intros [? ?]. by constructor.
    + by inversion 1.
Qed.

Lemma Fields_Struct (t : rtype) : Fields t <> [] -> KindOf t = Struct.
Proof. induction t; simpl; try done. Qed.

Lemma hasType_Struct (t : rtype) (v : value) :
  KindOf t = Struct ->
  hasType t v <->
  exists vs, v = VStruct vs /\ Forall2 (fun f x => hasType (decl_Type f) x) (Fields t) vs.
Proof.
  induction t as [| | | |e IH|e IH|fs|n u IH a b]; simpl; try done.
  intros _. split; intros (vs & -> & H); exists vs; (split; [done|]); by apply hasType_all.
Qed.

Lemma hasType_Ptr (t : rtype) :
  KindOf t = Ptr ->
  exists e, Elem t = Some e /\
    forall v, hasType t v <-> v = VPtr None \/ exists r, v = VPtr (Some r) /\ hasType e r.
Proof.
  induction t as [| | | |e IH|e IH|fs|n u IH a b]; simpl; try done.
  intros _. by exists e.
Qed.

Lemma hasType_scalar (t : rtype) :
  (KindOf t = Bool -> forall b, hasType t (VBool b)) /\
  (KindOf t = Int -> forall n, hasType t (VInt n)) /\
  (KindOf t = String_ -> forall s, hasType t (VString s)).
Proof.
  induction t as [| | | |e IH|e IH|fs|n u IH a b]; simpl; try done;
    repeat split; try done; eauto.
Qed.

Lemma hasType_Zero (t : rtype) : hasType t (Zero t).
Proof.
  induction t as [| | | |e IH|e IH|fs IH|n u a b IH] using rtype_fields_ind;
    simpl; eauto.
  eexists. split; [done|]. induction IH as [|d fs Hd _ IHfs]; [done|]. by split.
Qed.

(** The text decoders that a type may reach keep the shape of their
    receiver. *)
Fixpoint decoders_ok (M : Methods) (t : rtype) : Prop :=
  match t with
  | TNamed n u unmarshaler _ =>
      (unmarshaler = true ->
       forall (r : value) (s : string), hasType u r -> hasType u (UnmarshalText M n r s).1) /\
      decoders_ok M u
  | TPtr e | TSlice e => decoders_ok M e
  | _ => True
  end.

Lemma decoders_ok_Elem (M : Methods) (t e : rtype) :
  decoders_ok M t -> Elem t = Some e -> decoders_ok M e.
Proof.
  induction t as [| | | |e' IH|e' IH|fs|n u IH a b]; simpl; try done.
  - by intros ? [= <-].
  - by intros ? [= <-].
  - intros [_ ?]. by apply IH.
Qed.

Section Shapes.
Variable M : Methods.

Lemma parseKind_typed (t : rtype) (v : value) (s : string) :
  hasType t v -> hasType t (scalar.parseKind t v s).1.
Proof.
  intros Hv. unfold scalar.parseKind.
  destruct (hasType_scalar t) as (Hb & Hn & Hs).
  destruct (KindOf t); simpl; try done.
  - destruct (strconv.ParseBool s); simpl; by auto.
  - destruct (strconv.ParseInt s); simpl; by auto.
  - by auto.
Qed.

Lemma ParseValue_typed (t : rtype) (v : value) (s : string) :
  decoders_ok M t -> hasType t v -> hasType t (scalar.ParseValue M t v s).1.
Proof.
  intros Hok Hv. unfold scalar.ParseValue. case_bool_decide as Hk.
  - destruct (hasType_Ptr t Hk) as (e & He & Hty).
    rewrite He. simpl.
    assert (Hr : hasType e (match v with VPtr (Some r) => r | _ => Zero e end)).
    { apply Hty in Hv as [->|(r & -> & Hr)]; [apply hasType_Zero|done]. }
    pose proof (decoders_ok_Elem M t e Hok He) as Hoke.
    destruct (ImplementsUnmarshaler t) eqn:Hu.
    + destruct t as [| | | |[| | | | | | |n u [] m]| | |]; try done.
      simpl in He. injection He as <-. simpl in *.
      destruct (UnmarshalText M n _ s) as [r' err] eqn:Hdec. simpl.
      right. exists r'. split; [done|].
      destruct Hoke as [Hdecoder _].
      specialize (Hdecoder eq_refl _ s Hr). by rewrite Hdec in Hdecoder.
    + destruct (scalar.parseKind e _ s) as [r' res] eqn:Hparse. simpl.
      apply Hty. right. exists r'. split; [done|].
      pose proof (parseKind_typed e _ s Hr) as Hr'. by rewrite Hparse in Hr'.
  - destruct (ImplementsUnmarshaler (TPtr t)) eqn:Hu.
    + destruct t as [| | | | | | |n u [] m]; try done. simpl in *.
      destruct (UnmarshalText M n v s) as [v' err] eqn:Hdec. simpl.
      destruct Hok as [Hdecoder _].
      specialize (Hdecoder eq_refl _ s Hv). by rewrite Hdec in Hdecoder.
    + by apply parseKind_typed.
Qed.

Lemma Append_typed (t e : rtype) (d v d' : value) :
  hasType t d -> Elem t = Some e -> hasType e v ->
  Append d v = Some d' -> hasType t d'.
Proof.
  induction t as [| | | |e' IH|e' IH|fs|n u IH a b]; simpl; try done.
  - intros [->|(r & -> & _)]; done.
  - intros Hd [= <-] Hv Happ. right.
    destruct Hd as [->|(l & -> & Hl)]; simpl in Happ; simplify_eq.
    + exists [v]. split; [done|]. by constructor.
    + exists (l ++ [v]). split; [done|]. apply Forall_app. split; [done|]. by constructor.
Qed.

Lemma truncate_typed (t e : rtype) (l : list value) :
  Elem t = Some e -> hasType t (VSlice (Some l)) -> hasType t (VSlice (Some [])).
Proof.
  induction t as [| | | |e' IH|e' IH|fs|n u IH a b]; simpl; try done.
  - intros _ [?|(r & ? & _)]; done.
  - intros _ _. right. exists []. split; [done|constructor].
Qed.

Lemma appendValues_typed (t e elem : rtype) (ptr : bool) (values : list string) :
  Elem t = Some e ->
  (forall x, hasType elem x -> hasType e (if ptr then VPtr (Some x) else x)) ->
  decoders_ok M elem ->
  forall d : value,
    hasType t d -> hasType t (appendValues M elem ptr d values).1.
Proof.
  intros He Hwrap Hok. induction values as [|s values IH]; intros d Hd; simpl; [done|].
  pose proof (ParseValue_typed elem (Zero elem) s Hok (hasType_Zero elem)) as Hx.
  destruct (scalar.ParseValue M elem (Zero elem) s) as [x [[]|err|]]; simpl in *; try done.
  destruct (Append d _) as [d'|] eqn:Happ; [|done].
  apply IH. eapply Append_typed; [done..|by apply Hwrap|done].
Qed.

Lemma setSlice_typed (t : rtype) (d : value) (values : list string) (new : value) :
  decoders_ok M t -> hasType t d ->
  (setSlice M t (Some d) values).1 = Some new -> hasType t new.
Proof.
  intros Hok Hd. unfold setSlice.
  destruct (Elem t) as [e|] eqn:He; simpl; [|by intros [= <-]].
  set (ptr := bool_decide (KindOf e = Ptr) && negb (ImplementsUnmarshaler e)).
  set (elem := if ptr then default e (Elem e) else e).
  assert (Hoke : decoders_ok M e) by (by eapply decoders_ok_Elem).
  assert (Hokelem : decoders_ok M elem).
  { subst elem. destruct ptr; [|done].
    destruct (Elem e) as [e'|] eqn:He'; [|done]. by eapply decoders_ok_Elem. }
  assert (Hwrap : forall x, hasType elem x -> hasType e (if ptr then VPtr (Some x) else x)).
  { intros x Hx. subst elem. destruct ptr eqn:Hptr; [|done].
    apply andb_true_iff in Hptr as [Hk _]. apply bool_decide_eq_true in Hk.
    destruct (hasType_Ptr e Hk) as (e' & He' & Hty).
    rewrite He' in Hx. apply Hty. right. by exists x. }
  destruct (IsNil d) eqn:Hnil.
  - pose proof (appendValues_typed t e elem ptr values He Hwrap Hokelem d Hd) as Happ.
    destruct (appendValues M elem ptr d values) as [d' r]. by intros [= <-].
  - destruct d as [| | | | |[l|]|]; try (by intros [= <-]).
    pose proof (appendValues_typed t e elem ptr values He Hwrap Hokelem
                  (VSlice (Some [])) (truncate_typed t e l He Hd)) as Happ.
    destruct (appendValues M elem ptr (VSlice (Some [])) values) as [d' r].
    by intros [= <-].
Qed.

Lemma SetFieldByIndex_typed (index : list nat) :
  forall (t ft : rtype) (v new : value),
    hasType t v -> TypeByIndex t index = Some ft -> hasType ft new ->
    hasType t (SetFieldByIndex v index new).
Proof.
  induction index as [|i index IH]; intros t ft v new Hv Ht Hnew; simpl in *.
  - by simplify_eq.
  - destruct (Fields t !! i) as [d|] eqn:Hd; [|done]. simpl in Ht.
    assert (Hk : KindOf t = Struct).
    { apply Fields_Struct. intros Hnil. by rewrite Hnil in Hd. }
    apply (hasType_Struct t v Hk) in Hv as (vs & -> & Hall).
    destruct (vs !! i) as [x|] eqn:Hx; [|by apply hasType_Struct; eauto].
    apply hasType_Struct; [done|]. eexists. split; [done|].
    assert (Htx : hasType (decl_Type d) x).
    { by eapply (Forall2_lookup_lr _ _ _ i) in Hall. }
    rewrite <- (list_insert_id (Fields t) i d Hd).
    apply Forall2_insert; [done|]. by eapply IH.
Qed.

(** The store has the shape of the destinations: every root is a pointer,
    nil or to a value of the shape of the destination's type. *)
Definition store_typed (dests : list (rtype * value)) (roots : list value) : Prop :=
  Forall2 (fun d r => KindOf d.1 = Ptr /\ hasType d.1 r) dests roots.

(** A slot whose path and type are those of a field of its destination,
    and whose decoders keep shapes. *)
Definition slot_typed (dests : list (rtype * value)) (sp : spec) : Prop :=
  in_dest (fun r0 t => typed_at r0 [] (default t (Elem t))) dests sp /\
  decoders_ok M (typ sp).

Lemma val_typed (dests : list (rtype * value)) (roots : list value) (sp : spec) (v : value) :
  store_typed dests roots -> slot_typed dests sp ->
  val roots (dest sp) = Some v -> hasType (typ sp) v.
Proof.
  intros Hstore [(t & v0 & Hdest & f & j & rest & Hsp & Hidx & Hty) _] Hv.
  remember (root (dest sp)) as r0 eqn:Hr0. clear Hr0.
  unfold val in Hv. rewrite Hsp in Hv. simpl in Hv.
  destruct (roots !! r0) as [r|] eqn:Hr; [|done]. simpl in Hv.
  pose proof (Forall2_lookup_lr _ _ _ _ _ _ Hstore Hdest Hr) as [Hk Htr]. simpl in *.
  destruct (hasType_Ptr t Hk) as (e & He & Hptr). rewrite He in Hty. simpl in Hty.
  apply Hptr in Htr as [->|(s & -> & Hs)]; [done|].
  rewrite Hidx in Hv. simpl app in Hv.
  destruct (FieldByIndex_typed (j :: rest) e (typ sp) s Hs Hty) as (x & Hx & Htx).
  rewrite Hx in Hv. simpl in Hv. by simplify_eq.
Qed.

Lemma val_defined (dests : list (rtype * value)) (roots : list value) (sp : spec)
    (s : value) :
  store_typed dests roots -> slot_typed dests sp ->
  roots !! root (dest sp) = Some (VPtr (Some s)) ->
  exists v : value, val roots (dest sp) = Some v /\ hasType (typ sp) v.
Proof.
  intros Hstore [(t & v0 & Hdest & f & j & rest & Hsp & Hidx & Hty) _] Hr.
  remember (root (dest sp)) as r0 eqn:Hr0. clear Hr0.
  unfold val. rewrite Hsp. simpl. rewrite Hr. simpl.
  pose proof (Forall2_lookup_lr _ _ _ _ _ _ Hstore Hdest Hr) as [Hk Htr]. simpl in *.
  destruct (hasType_Ptr t Hk) as (e & He & Hptr). rewrite He in Hty. simpl in Hty.
  apply Hptr in Htr as [?|(s' & [= <-] & Hs)]; [done|].
  rewrite Hidx. simpl app.
  destruct (FieldByIndex_typed (j :: rest) e (typ sp) s Hs Hty) as (x & -> & Htx).
  by exists x.
Qed.

Lemma setVal_typed (dests : list (rtype * value)) (roots : list value) (sp : spec)
    (new : value) :
  store_typed dests roots -> slot_typed dests sp -> hasType (typ sp) new ->
  store_typed dests (setVal roots (dest sp) new).
Proof.
  intros Hstore [(t & v0 & Hdest & f & j & rest & Hsp & Hidx & Hty) _] Hnew.
  remember (root (dest sp)) as r0 eqn:Hr0. clear Hr0.
  unfold setVal. rewrite Hsp. simpl.
  destruct (roots !! r0) as [r|] eqn:Hr; [|done].
  rewrite <- (list_insert_id dests _ _ Hdest).
  apply Forall2_insert; [done|]. simpl.
  pose proof (Forall2_lookup_lr _ _ _ _ _ _ Hstore Hdest Hr) as [Hk Htr]. simpl in *.
  split; [done|].
  destruct (hasType_Ptr t Hk) as (e & He & Hptr). rewrite He in Hty. simpl in Hty.
  apply Hptr in Htr as [->|(s & -> & Hs)]; [by apply Hptr; left|].
  apply Hptr. right. eexists. split; [done|].
  rewrite Hidx. simpl app.
  destruct (FieldByIndex_typed (j :: rest) e (typ sp) s Hs Hty) as (x & -> & Htx).
  by apply (SetFieldByIndex_typed (j :: rest) e (typ sp)).
Qed.

Lemma parseInto_typed (dests : list (rtype * value)) (roots : list value) (sp : spec)
    (s : string) :
  store_typed dests roots -> slot_typed dests sp ->
  store_typed dests (parseInto M roots sp s).1.
Proof.
  intros Hstore Hsp. unfold parseInto.
  destruct (val roots (dest sp)) as [v|] eqn:Hv; [|done].
  pose proof (ParseValue_typed (typ sp) v s (proj2 Hsp) (val_typed _ _ _ _ Hstore Hsp Hv))
    as Hv'.
  destruct (scalar.ParseValue M (typ sp) v s) as [v' r]. simpl in *.
  by apply setVal_typed.
Qed.

Lemma setSlice_store_typed (dests : list (rtype * value)) (roots : list value) (sp : spec)
    (values : list string) :
  store_typed dests roots -> slot_typed dests sp ->
  store_typed dests
    (store roots (dest sp) (setSlice M (typ sp) (val roots (dest sp)) values).1).
Proof.
  intros Hstore Hsp.
  destruct (val roots (dest sp)) as [d|] eqn:Hd; [|done].
  destruct (setSlice M (typ sp) (Some d) values) as [[new|] r] eqn:Hset; [|done].
  simpl. apply setVal_typed; [done..|].
  eapply (setSlice_typed (typ sp) d values); [by apply Hsp|by eapply val_typed|].
  by rewrite Hset.
Qed.

Lemma captureEnvVars_typed (E : environ) (dests : list (rtype * value)) (found : list spec) :
  Forall (slot_typed dests) found ->
  forall (i : nat) (wp : gmap nat bool) (roots : list value),
    store_typed dests roots ->
    store_typed dests (captureEnvVars M E i found wp roots).1.1.
Proof.
  induction 1 as [|sp found Hsp _ IH]; intros i wp roots Hstore; simpl; [done|].
  destruct (E !! name sp) as [raw|]; [|by apply IH].
  assert (Hstep : store_typed dests
    (if multiple sp
     then match csv.Read raw with
          | Ok values =>
              match setSlice M (typ sp) (val roots (dest sp)) values with
              | (new, Err err) =>
                  (store roots (dest sp) new,
                   Err (Errorf ("error processing environment variable "
                                +:+ name sp +:+ " with multiple values: "
                                +:+ Error err) err))
              | (new, r) => (store roots (dest sp) new, r)
              end
          | Err err =>
              (roots,
               Err (Errorf ("error reading a CSV string from environment variable "
                            +:+ name sp +:+ " with multiple values: "
                            +:+ Error err) err))
          | Panic => (roots, Panic)
          end
     else match parseInto M roots sp raw with
          | (roots, Err err) =>
              (roots,
               Err (Errorf ("error processing environment variable "
                            +:+ name sp +:+ ": " +:+ Error err) err))
          | (roots, r) => (roots, r)
          end).1).
  { destruct (multiple sp).
    - destruct (csv.Read raw) as [values|e|]; [|done..].
      pose proof (setSlice_store_typed dests roots sp values Hstore Hsp) as Hs.
      by destruct (setSlice M (typ sp) (val roots (dest sp)) values) as [new [[]|e|]].
    - pose proof (parseInto_typed dests roots sp raw Hstore Hsp) as Hp.
      by destruct (parseInto M roots sp raw) as [roots1 [[]|e|]]. }
  destruct (if multiple sp then _ else _) as [roots1 [[]|e|]]; simpl in *; try done.
  by apply IH.
Qed.

Lemma fillDefaults_typed (dests : list (rtype * value)) (found : list spec)
    (wp : gmap nat bool) :
  Forall (slot_typed dests) found ->
  forall (i : nat) (roots : list value),
    store_typed dests roots ->
    store_typed dests (fillDefaults M i found wp roots).1.
Proof.
  induction 1 as [|sp found Hsp _ IH]; intros i roots Hstore; simpl; [done|].
  destruct (default false (wp !! i)); [by apply IH|].
  destruct (required sp); [done|].
  destruct (negb _); [|by apply IH].
  pose proof (parseInto_typed dests roots sp (defaultVal sp) Hstore Hsp) as Hp.
  destruct (parseInto M roots sp (defaultVal sp)) as [roots1 [[]|e|]]; simpl in *; try done.
  by apply IH.
Qed.

End Shapes.

(** X20.  A pass keeps the shape of the store: when every root is a
    pointer, nil or to a struct of the shape of its destination's type,
    and the text decoders of the slots' types keep the shape of their
    receivers, then after a pass over a constructed schema, however it
    ends, every root still is, and the path of every slot whose root is
    not nil still resolves, to a value of the shape of the slot's type:
    [val] does not get to its panic, pass after pass. *)
Theorem process_keeps_shape
    (M : Methods) (dests : list (rtype * value)) (p : Parser) (E : environ)
    (roots roots' : list value) (r : result unit) :
  NewParser M dests = Ok p ->
  (forall sp, sp ∈ specs p -> decoders_ok M (typ sp)) ->
  store_typed dests roots ->
  process M p E roots = (roots', r) ->
  store_typed dests roots' /\
  (forall (sp : spec) (s : value),
     sp ∈ specs p -> roots' !! root (dest sp) = Some (VPtr (Some s)) ->
     exists v : value, val roots' (dest sp) = Some v /\ hasType (typ sp) v).
Proof.
  intros Hp Hok Hstore H.
  assert (Hslots : Forall (slot_typed M dests) (specs p)).
  { apply Forall_forall. intros sp Hin. split; [|by apply Hok].
    apply NewParser_typed in Hp. rewrite Forall_forall in Hp. by apply Hp. }
  assert (Hstore' : store_typed dests roots').
  { unfold process in H.
    pose proof (captureEnvVars_typed M E dests (specs p) Hslots 0 ∅ roots Hstore) as Hc.
    destruct (captureEnvVars M E 0 (specs p) ∅ roots) as [[roots1 wp] [[]|e|]];
      simpl in Hc; [|by simplify_eq..].
    pose proof (fillDefaults_typed M dests (specs p) wp Hslots 0 roots1 Hc) as Hf.
    by rewrite H in Hf. }
  split; [done|]. intros sp s Hin Hr.
  rewrite Forall_forall in Hslots.
  exact (val_defined M dests roots' sp s Hstore' (Hslots sp Hin) Hr).
Qed.

(** ** The entry points of the package *)


(** ** A default that cannot be rendered *)

Lemma addDefaults_failure (M : Methods) (roots : list value)
    (pre post : list spec) (sp : spec) (pre' : list spec) (e : error) :
  addDefaults M roots pre = Ok pre' ->
  addDefault M roots sp = Err e ->
  addDefaults M roots (pre ++ sp :: post) = Err e.
Proof.
  revert pre'. induction pre as [|a pre IH]; intros pre' Hpre Hsp; simpl in *.
  - by rewrite Hsp.
  - destruct (addDefault M roots a) as [a'|e'|]; [|done..].
    destruct (addDefaults M roots pre) as [pre''|e'|] eqn:Hrest; [|done..].
    by rewrite (IH _ eq_refl Hsp).
Qed.

(** X22.  [NewParser] renders the value of every field that does not hold
    its zero value, also when the text is never shown: when the fields of
    the first destination are exported, the [MarshalText] of such a field
    returns an error, and the fields before it were rendered, [NewParser]
    returns no parser but the error
    [PATH: error marshaling default value to string: ...], which wraps the
    error of [MarshalText]. *)
Theorem NewParser_marshal_error
    (M : Methods) (t : rtype) (v0 : value) (rest : list (rtype * value))
    (pre post pre' : list spec) (sp : spec) (v : value) (str : string) (err : error) :
  exported_fields t = true ->
  specsFromStruct (mkPath 0 []) t = (pre ++ sp :: post, Ok tt) ->
  addDefaults M (((t, v0) :: rest).*2) pre = Ok pre' ->
  val (((t, v0) :: rest).*2) (dest sp) = Some v ->
  isZero (typ sp) v = false ->
  ImplementsMarshaler (typ sp) = true ->
  MarshalText M (marshalerOf (typ sp)) (marshalReceiver (typ sp) v) = (str, Some err) ->
  exists e : error,
    NewParser M ((t, v0) :: rest) = Err e /\
    e = Errorf (path_String (dest sp) +:+ ": error marshaling default value to string: "
                +:+ Error err) err /\
    Is e err = true.
Proof.
  intros _ Hfound Hpre Hv Hzero Hm Herr. eexists. split; [|split; [done|apply Is_wrapped]].
  unfold NewParser. cbn [newSpecs]. rewrite Hfound.
  erewrite addDefaults_failure; [done|done|].
  unfold addDefault. rewrite Hv, Hzero. simpl. by rewrite Hm, Herr.
Qed.

(** ** A value of the record that does not convert *)

(** X23.  In a schema constructed for structs whose fields are exported,
    a multi-value slot whose key is present with a record of which one
    value does not convert ends the pass in the first loop, with the
    error
    [error processing environment variable KEY with multiple values: ...]
    that wraps the conversion error; the slot's slice is left holding the
    converted values that came before the failing one, and nothing after
    the slot is bound, defaulted or looked for. *)
Theorem element_failure_aborts
    (M : Methods) (dests : list (rtype * value)) (E : environ) (p : Parser)
    (roots roots1 : list value)
    (pre post : list spec) (sp : spec) (raw : string)
    (wasPresent : gmap nat bool) (elem : rtype) (held : option (list value))
    (good : list string) (elems : list value)
    (bad : string) (rest : list string) (e : value) (err : error) :
  NewParser M dests = Ok p ->
  Forall (fun d => exported_fields d.1 = true) dests ->
  specs p = pre ++ sp :: post ->
  multiple sp = true ->
  E !! name sp = Some raw ->
  captureEnvVars M E 0 pre ∅ roots = (roots1, wasPresent, Ok tt) ->
  csv.Read raw = Ok (good ++ bad :: rest) ->
  val roots1 (dest sp) = Some (VSlice held) ->
  Elem (typ sp) = Some elem ->
  Forall2 (fun s x => convertElem M (typ sp) s = (x, Ok tt)) good elems ->
  convertElem M (typ sp) bad = (e, Err err) ->
  process M p E roots =
    (setVal roots1 (dest sp)
            (VSlice (match held, elems with
                     | None, [] => None
                     | _, _ => Some elems
                     end)),
     Err (Errorf ("error processing environment variable " +:+ name sp
                  +:+ " with multiple values: " +:+ Error err) err)).
Proof.
  intros _ _ Hspecs Hmul Hraw Hpre Hread Hv Helem Hgood Hbad.
  pose proof (setSlice_failure M (typ sp) elem held good elems bad rest e err
                Helem Hgood Hbad) as Hset.
  unfold process. rewrite Hspecs, captureEnvVars_app, Hpre. simpl.
  by rewrite Hraw, Hmul, Hread, Hv, Hset.
Qed.

(** ** What a pass reads of a slot *)

(** Two slots that a pass cannot tell apart: they differ at most in the
    help text and in the flags [boolean] and [hasDefault]. *)
Definition same_binding (a b : spec) : Prop :=
  dest a = dest b /\ typ a = typ b /\ name a = name b /\
  defaultVal a = defaultVal b /\ multiple a = multiple b /\ required a = required b.

Lemma parseInto_same (M : Methods) (roots : list value) (a b : spec) (s : string) :
  same_binding a b -> parseInto M roots a s = parseInto M roots b s.
Proof. intros (Hd & Ht & _). unfold parseInto. by rewrite Hd, Ht. Qed.

Lemma captureEnvVars_same (M : Methods) (E : environ) (l l' : list spec) :
  Forall2 same_binding l l' ->
  forall (i : nat) (wp : gmap nat bool) (roots : list value),
    captureEnvVars M E i l wp roots = captureEnvVars M E i l' wp roots.
Proof.
  induction 1 as [|a b l l' Hab _ IH]; intros i wp roots; simpl; [done|].
  pose proof (parseInto_same M roots a b) as Hparse.
  destruct Hab as (Hd & Ht & Hn & Hdv & Hm & Hr). rewrite Hd, Ht, Hn, Hm.
  destruct (E !! name b) as [raw|]; [|apply IH].
  rewrite Hparse by done.
  destruct (if multiple b then _ else _) as [roots1 [[]|e|]]; [apply IH|done..].
Qed.

Lemma fillDefaults_same (M : Methods) (l l' : list spec) (wp : gmap nat bool) :
  Forall2 same_binding l l' ->
  forall (i : nat) (roots : list value),
    fillDefaults M i l wp roots = fillDefaults M i l' wp roots.
Proof.
  induction 1 as [|a b l l' Hab _ IH]; intros i roots; simpl; [done|].
  rewrite (parseInto_same M roots a b) by done.
  destruct Hab as (_ & _ & Hn & Hdv & _ & Hr). rewrite Hn, Hdv, Hr.
  destruct (default false (wp !! i)); [apply IH|].
  destruct (required b); [done|].
  destruct (negb _); [|apply IH].
  destruct (parseInto M roots b (defaultVal b)) as [roots1 [[]|e|]]; [apply IH|done..].
Qed.

(** X24.  A pass reads of a slot its destination, type, key, default
    literal and the flags [multiple] and [required], and nothing else: the
    flag [boolean] that [walker] stores, the help text, and whether the
    default literal is explicit ([hasDefault]) have no effect on what a
    pass writes or returns. *)
Theorem process_ignores_boolean
    (M : Methods) (E : environ) (p p' : Parser) (roots : list value) :
  Forall2 same_binding (specs p) (specs p') ->
  process M p E roots = process M p' E roots.
Proof.
  intros Hsame. unfold process.
  rewrite (captureEnvVars_same M E _ _ Hsame).
  destruct (captureEnvVars M E 0 (specs p') ∅ roots) as [[roots1 wp] [[]|e|]]; [|done..].
  by apply fillDefaults_same.
Qed.

(** ** The help text of the repository's tests *)

Example TestUsageWithDefaults :
  usage.Help EmptyString
    (fixtures.parserOf
       (fixtures.dest [fixtures.field "Label" TString [];
                       fixtures.field "Content" TString [("default", "dog")]]
                      [VString "cat"; VString ""]))
  = "Environments:" +:+ usage.newline
    +:+ "  label [default: cat]" +:+ usage.newline
    +:+ "  content [default: dog]" +:+ usage.newline.
Proof. by vm_compute. Qed.

Example TestUsageWithDescription :
  usage.Help "this program does this and that" (fixtures.parserOf (fixtures.zeroDest []))
  = "this program does this and that" +:+ usage.newline.
Proof. by vm_compute. Qed.

Example TestWriteUsage :
  usage.Help EmptyString
    (fixtures.parserOf
       (fixtures.dest
          [fixtures.field "Input" TString [("env", "")];
           fixtures.field "Output" (TSlice TString) [("env", ""); ("help", "list of outputs")];
           fixtures.field "Value" TInt [("help", "secret value")];
           fixtures.field "Verbose" TBool [("env", "name:v"); ("help", "verbosity level")];
           fixtures.field "Workers" TInt [("env", "name:WORKERS");
                                          ("help", "number of workers to start");
                                          ("default", "10")];
           fixtures.field "File" (TPtr fixtures.NameDotName)
                          [("env", "name:f"); ("help", "File with mandatory extension")]]
          [VString ""; VSlice None; VInt 42; VBool false; VInt 0;
           VPtr (Some (VStruct [VString "scratch"; VString "txt"]))]))
  = "Environments:" +:+ usage.newline
    +:+ "  input" +:+ usage.newline
    +:+ "  output                 list of outputs" +:+ usage.newline
    +:+ "  value                  secret value [default: 42]" +:+ usage.newline
    +:+ "  v                      verbosity level" +:+ usage.newline
    +:+ "  WORKERS                number of workers to start [default: 10]" +:+ usage.newline
    +:+ "  f                      File with mandatory extension [default: scratch.txt]"
    +:+ usage.newline.
Proof. by vm_compute. Qed.

(** ** The further properties at work on the tests' types *)

Lemma printTwoCols_help_column_witness :
  (exists gap : string,
     usage.printTwoCols EmptyString "output" "list of outputs" "42"
     = "  " +:+ "output" +:+ gap +:+ "list of outputs"
       +:+ (if bool_decide ("42" = EmptyString) then EmptyString
            else " [default: " +:+ "42" +:+ "]")
       +:+ usage.newline /\
     column 0 ("  " +:+ "output" +:+ gap) = usage.colWidth /\
     gap = (if String.length "output" <=? 20
            then usage.Repeat " " (23 - String.length "output")
            else usage.newline +:+ usage.Repeat " " 25) /\
     3 <= String.length gap) /\
  usage.printTwoCols EmptyString "output" "list of outputs" "42"
  = "  output                 list of outputs [default: 42]" +:+ usage.newline.
Proof.
  split; [|reflexivity].
  exact (printTwoCols_help_column "output" "list of outputs" "42"
           eq_refl ltac:(discriminate)).
Defined.

Lemma NewParser_names_witness :
  let d := fixtures.zeroDest
             [fixtures.field "Verbose" TBool
                [("env", "name:x, required:no, name:v"); ("help", "verbosity level")]] in
  let p := fixtures.parserOf d in
  Forall (fun sp =>
            exists field : StructField,
              let tokens := strings.Split (Get (Tag field) "env") "," in
              fields (dest sp) = [field] /\
              name sp = lastName tokens (strings.ToLower (Name field)) /\
              help sp = Get (Tag field) "help" /\
              required sp = existsb isRequired tokens /\
              Get (Tag field) "env" <> "-" /\
              Anonymous field && bool_decide (KindOf (Type_ field) = Struct) = false /\
              path_String (dest sp) = "args." +:+ Name field)
         (specs p) /\
  (name <$> specs p) = ["v"] /\
  (required <$> specs p) = [true] /\
  (help <$> specs p) = ["verbosity level"].
Proof.
  intros d p. split; [|by vm_compute].
  apply Forall_forall. intros sp Hin.
  exact (NewParser_names fixtures.methods [d] p sp eq_refl Hin).
Defined.

Lemma val_resolves_witness :
  let d := fixtures.zeroDest
             [fixtures.field "A" TInt [];
              Decl "NameDotName" fixtures.NameDotName [] true] in
  let p := fixtures.parserOf d in
  Forall (fun sp =>
            exists (t : rtype) (v0 : value),
              [d] !! root (dest sp) = Some (t, v0) /\
              (forall (roots : list value) (s : value),
                 roots !! root (dest sp) = Some (VPtr (Some s)) ->
                 hasType (default t (Elem t)) s ->
                 exists v : value, val roots (dest sp) = Some v /\ hasType (typ sp) v) /\
              (forall roots : list value,
                 roots !! root (dest sp) = Some (VPtr None) -> val roots (dest sp) = None))
         (specs p) /\
  (fun sp => val [d.2] (dest sp)) <$> specs p
  = [Some (VInt 0); Some (VString ""); Some (VString "")].
Proof.
  intros d p. split; [|by vm_compute].
  apply Forall_forall. intros sp Hin.
  exact (val_resolves fixtures.methods [d] p sp eq_refl Hin).
Defined.



Lemma process_reads_keys_only_witness :
  let d := fixtures.zeroDest [fixtures.field "Foo" TInt []] in
  let p := fixtures.parserOf d in
  process fixtures.methods p {[ "foo" := "1"; "other" := "x" ]} [d.2]
  = process fixtures.methods p {[ "foo" := "1" ]} [d.2].
Proof.
  intros d p.
  refine (process_reads_keys_only fixtures.methods {[ "foo" := "1"; "other" := "x" ]}
            {[ "foo" := "1" ]} p [d.2] _).
  intros sp Hin. vm_compute in Hin. apply list_elem_of_singleton in Hin. by subst sp.
Defined.

Lemma conversion_failure_aborts_witness :
  let d := fixtures.zeroDest [fixtures.field "A" TInt [];
                              fixtures.field "B" TInt [];
                              fixtures.field "C" TString [("env", "required")]] in
  let p := fixtures.parserOf d in
  let E : environ := {[ "a" := "1"; "b" := "x" ]} in
  exists e : error,
    process fixtures.methods p E [d.2]
    = ([VPtr (Some (VStruct [VInt 1; VInt 0; VString ""]))], Err e) /\
    e = Errorf ("error processing environment variable b: strconv.ParseInt: parsing "
                +:+ strconv.quote "x" +:+ ": invalid syntax")
               (strconv.syntaxError "ParseInt" "x") /\
    Is e (strconv.syntaxError "ParseInt" "x") = true /\
    strings.Contains (Error e) "b".
Proof.
  intros d p E.
  let l := eval vm_compute in (specs p) in
  match l with
  | [?a; ?b; ?c] =>
      exact (conversion_failure_aborts fixtures.methods E p [d.2]
               [VPtr (Some (VStruct [VInt 1; VInt 0; VString ""]))]
               [a] [c] b "x" {[ 0 := true ]} (VInt 0) (VInt 0)
               (strconv.syntaxError "ParseInt" "x")
               eq_refl eq_refl eq_refl eq_refl eq_refl eq_refl)
  end.
Defined.

Lemma csv_failure_aborts_witness :
  let d := fixtures.dest [fixtures.field "A" TInt [];
                          fixtures.field "Ids" (TSlice TInt) []]
                         [VInt 0; VSlice None] in
  let p := fixtures.parserOf d in
  let E : environ := {[ "a" := "1"; "ids" := "" ]} in
  process fixtures.methods p E [d.2]
  = ([VPtr (Some (VStruct [VInt 1; VSlice None]))],
     Err (Errorf ("error reading a CSV string from environment variable "
                  +:+ "ids" +:+ " with multiple values: " +:+ Error csv.EOF) csv.EOF)) /\
  (EmptyString = EmptyString -> csv.EOF = csv.EOF).
Proof.
  intros d p E.
  let l := eval vm_compute in (specs p) in
  match l with
  | [?a; ?b] =>
      exact (csv_failure_aborts fixtures.methods E p [d.2]
               [VPtr (Some (VStruct [VInt 1; VSlice None]))]
               [a] [] b "" {[ 0 := true ]} csv.EOF
               eq_refl eq_refl eq_refl eq_refl eq_refl)
  end.
Defined.

Lemma prepopulated_slice_needs_key_witness :
  let d := fixtures.dest [fixtures.field "Values" (TSlice TInt) []]
                         [VSlice (Some [VInt 3; VInt 4])] in
  let p := fixtures.parserOf d in
  Forall (fun sp =>
            defaultVal sp = rendering fixtures.methods (typ sp)
                                      (VSlice (Some [VInt 3; VInt 4])) /\
            process fixtures.methods p ∅ [d.2] <> ([d.2], Ok tt))
         (specs p) /\
  process fixtures.methods p ∅ [d.2]
  = ([d.2], Err (Errorf "error processing default value for values: cannot parse into []int"
                        (New "cannot parse into []int"))).
Proof.
  intros d p. split; [|by vm_compute].
  apply Forall_forall. intros sp Hin.
  assert (Hsp : specs p !! 0 = Some sp).
  { vm_compute in Hin. apply list_elem_of_singleton in Hin. by subst sp. }
  refine (prepopulated_slice_needs_key fixtures.methods [d] p ∅ [d.2] [d.2] 0 sp
            TInt [VInt 3; VInt 4] eq_refl _ Hsp _ _ _ _);
    [by repeat constructor|..];
    vm_compute in Hsp; injection Hsp as <-; by vm_compute.
Defined.

Lemma NewParser_ordered_witness :
  let d := fixtures.zeroDest
             [fixtures.field "A" TInt [];
              Decl "NameDotName"
                   (TStruct [fixtures.field "Head" TString [];
                             fixtures.field "Tail" TString []]) [] true;
              fixtures.field "Z" TInt []] in
  let p := fixtures.parserOf d in
  exists a b : spec,
    specs p !! 1 = Some a /\ specs p !! 3 = Some b /\
    before (dest a) (dest b) /\
    (name <$> specs p) = ["a"; "head"; "tail"; "z"].
Proof.
  intros d p.
  let l := eval vm_compute in (specs p) in
  match l with
  | [_; ?a; _; ?b] =>
      exists a, b; split; [reflexivity|]; split; [reflexivity|]; split; [|reflexivity];
      exact (NewParser_ordered fixtures.methods [d] p 1 3 a b
               eq_refl eq_refl eq_refl ltac:(lia))
  end.
Defined.

Lemma process_keeps_shape_witness :
  let d := fixtures.zeroDest [fixtures.field "A" TInt [];
                              fixtures.field "Ids" (TSlice (TPtr TString)) []] in
  let p := fixtures.parserOf d in
  let E : environ := {[ "a" := "1"; "ids" := "x,y" ]} in
  let after := process fixtures.methods p E [d.2] in
  (store_typed [d] after.1 /\
   (forall (sp : spec) (s : value),
      sp ∈ specs p -> after.1 !! root (dest sp) = Some (VPtr (Some s)) ->
      exists v : value, val after.1 (dest sp) = Some v /\ hasType (typ sp) v)) /\
  after = ([VPtr (Some (VStruct [VInt 1;
                                 VSlice (Some [VPtr (Some (VString "x"));
                                               VPtr (Some (VString "y"))])]))], Ok tt).
Proof.
  intros d p E after. split; [|by vm_compute].
  refine (process_keeps_shape fixtures.methods [d] p E [d.2] after.1 after.2
            eq_refl _ _ _).
  - intros sp Hin. vm_compute in Hin.
    apply elem_of_cons in Hin as [->|Hin]; [done|].
    apply list_elem_of_singleton in Hin. by subst sp.
  - constructor; [|constructor]. split; [reflexivity|].
    right. eexists. split; [reflexivity|]. apply hasType_Zero.
  - by vm_compute.
Defined.


Lemma NewParser_marshal_error_witness :
  let d := fixtures.dest [fixtures.field "Name" (TPtr fixtures.MyEnum) []]
                         [VPtr (Some (VInt 42))] in
  exists e : error,
    NewParser fixtures.methods [d] = Err e /\
    e = Errorf "args.Name: error marshaling default value to string: there was a problem"
               fixtures.errTestProblem /\
    Is e fixtures.errTestProblem = true.
Proof.
  intros d.
  let l := eval vm_compute in (specsFromStruct (mkPath 0 []) d.1).1 in
  match l with
  | [?sp] =>
      exact (NewParser_marshal_error fixtures.methods d.1 d.2 [] [] [] [] sp
               (VPtr (Some (VInt 42))) EmptyString fixtures.errTestProblem
               eq_refl eq_refl eq_refl eq_refl eq_refl eq_refl eq_refl)
  end.
Defined.

Lemma element_failure_aborts_witness :
  let d := fixtures.dest [fixtures.field "A" TInt [];
                          fixtures.field "Ids" (TSlice TInt) [];
                          fixtures.field "C" TString [("env", "required")]]
                         [VInt 0; VSlice (Some [VInt 42]); VString ""] in
  let p := fixtures.parserOf d in
  let E : environ := {[ "a" := "1"; "ids" := "1,2,x,4" ]} in
  process fixtures.methods p E [d.2]
  = ([VPtr (Some (VStruct [VInt 1; VSlice (Some [VInt 1; VInt 2]); VString ""]))],
     Err (Errorf ("error processing environment variable ids with multiple values: "
                  +:+ Error (strconv.syntaxError "ParseInt" "x"))
                 (strconv.syntaxError "ParseInt" "x"))).
Proof.
  intros d p E.
  let l := eval vm_compute in (specs p) in
  match l with
  | [?a; ?b; ?c] =>
      refine (element_failure_aborts fixtures.methods [d] E p [d.2]
                [VPtr (Some (VStruct [VInt 1; VSlice (Some [VInt 42]); VString ""]))]
                [a] [c] b "1,2,x,4" {[ 0 := true ]} TInt (Some [VInt 42])
                ["1"; "2"] [VInt 1; VInt 2] "x" ["4"] (VInt 0)
                (strconv.syntaxError "ParseInt" "x")
                eq_refl _ eq_refl eq_refl eq_refl eq_refl eq_refl eq_refl eq_refl _ eq_refl)
  end.
  - by repeat constructor.
  - repeat constructor.
Defined.

Lemma process_ignores_boolean_witness :
  let d := fixtures.zeroDest [fixtures.field "Debug" TBool [("help", "more output")];
                              fixtures.field "N" TInt [("default", "7")]] in
  let p := fixtures.parserOf d in
  let p' := mkParser ((fun sp => mkSpec (dest sp) (typ sp) (name sp) EmptyString
                                        (defaultVal sp) (multiple sp) (required sp)
                                        (negb (boolean sp)) (negb (hasDefault sp)))
                        <$> specs p) in
  let E : environ := {[ "debug" := "true" ]} in
  process fixtures.methods p E [d.2] = process fixtures.methods p' E [d.2] /\
  process fixtures.methods p E [d.2] = ([VPtr (Some (VStruct [VBool true; VInt 7]))], Ok tt) /\
  (boolean <$> specs p) = [true; false].
Proof.
  intros d p p' E. split; [|by vm_compute].
  refine (process_ignores_boolean fixtures.methods E p p' [d.2] _).
  vm_compute. repeat constructor.
Defined.
